(** * LLM Council: the presentation layer and the deliberation contract

  A shallow embedding of the React front end of the council
  (the [Stage1] view, the [Settings] dialog and the [useConversation]
  hook) together with models of the deliberation back end (orchestrator,
  event emitter, anonymizer, ranking aggregator, cost estimator), and
  the properties that the specification states about them.

  Conventions of the embedding:
  - a JavaScript string is a [string] (a sequence of code units);
  - a value that may be [null] or [undefined] is an [option];
  - a JavaScript object used as a bag of flags is a [gmap string bool];
  - an array is a [list], indexed with stdpp's lookup and insert;
  - code that can throw returns an [Outcome]. *)

From Stdlib Require Import Ascii String QArith Qround.
From stdpp Require Import base option list strings gmap sorting.

(** ** JavaScript values *)

Module Js.

(** The result of running code that may throw. *)
Inductive Outcome (A : Type) : Type :=
| Returns (a : A)
| Throws (err : string).
Arguments Returns {A} a.
Arguments Throws {A} err.

(** Truthiness of a string that may be null or undefined:
    only a non-empty string is truthy. *)
Definition truthy (v : option string) : bool :=
  match v with
  | Some s => negb (String.eqb s "")
  | None => false
  end.

(** [s.split(sep)] for a one-character separator. *)
Fixpoint split (sep : ascii) (s : string) : list string :=
  match s with
  | EmptyString => [EmptyString]
  | String c rest =>
      if Ascii.eqb c sep then EmptyString :: split sep rest
      else match split sep rest with
           | piece :: pieces => String c piece :: pieces
           | [] => [String c EmptyString]
           end
  end.

(** [Math.round(n / 4)] on a non-negative integer: halves round up. *)
Definition round_quarter (n : nat) : nat := (n + 2) / 4.

(** [a.includes(x)] on an array of strings. *)
Definition includes (a : list string) (x : string) : bool :=
  existsb (String.eqb x) a.

(** [a.slice(0, k)]. *)
Definition slice0 {A} (a : list A) (k : nat) : list A := take k a.

End Js.

(** ** What travels on the progress stream *)

Module Wire.
Import Js.

(** One council member's result for one stage, as the views read it. *)
Record ModelResult : Type := {
  model : string;
  response : option string;
  thinking : option string;
  error : option string;
  is_rebuttal : bool;
  is_reasoning_model : bool;
  persona : option string
}.

(** A value carried by an event and stored in a message slot: [null]
    (or [undefined]), a list of model results, or any other JSON value,
    which the hook stores and hands on without looking inside. *)
Inductive Payload : Type :=
| PNull
| PResults (results : list ModelResult)
| PRaw (json : string).

(** The kinds of progress event of the emit contract. *)
Inductive EventKind : Type :=
| ResolvingPersonas
| Stage1Start
| Stage1Complete
| Stage2Start
| Stage2Complete
| Stage2_5Start
| Stage3Start
| Stage3Complete
| TitleComplete
| Complete
| Error.

#[global] Instance EventKind_eq_dec : EqDecision EventKind.
Proof. solve_decision. Defined.

(** The [eventType] string that the stream callback switches on. *)
Definition eventType (k : EventKind) : string :=
  match k with
  | ResolvingPersonas => "resolving_personas"
  | Stage1Start => "stage1_start"
  | Stage1Complete => "stage1_complete"
  | Stage2Start => "stage2_start"
  | Stage2Complete => "stage2_complete"
  | Stage2_5Start => "stage2_5_start"
  | Stage3Start => "stage3_start"
  | Stage3Complete => "stage3_complete"
  | TitleComplete => "title_complete"
  | Complete => "complete"
  | Error => "error"
  end.

(** The [event] object that comes with it: the callback reads
    [event.data], [event.metadata] and [event.message]. *)
Record Event : Type := {
  kind : EventKind;
  data : Payload;
  metadata : Payload;
  message : string
}.

(** An event that carries nothing but its kind. *)
Definition bare (k : EventKind) : Event :=
  {| kind := k; data := PNull; metadata := PNull; message := "" |}.

End Wire.

(** ** The Stage 1 view (component [Stage1]) *)

Module Stage1View.
Import Js Wire.

(** One tab button. *)
Record Tab : Type := {
  tab_active : bool;       (* class [active] *)
  tab_error : bool;        (* class [error] *)
  tab_title : string;      (* tooltip: the error text, or nothing *)
  tab_warning : bool;      (* the warning sign before the label *)
  tab_label : string
}.

(** What is shown below the model name of the active tab. *)
Inductive TabBody : Type :=
| ErrorMessage (failure : string)
| ResponseText (thinking_section : option (nat * string))
               (response_text : option string).

Record TabContent : Type := {
  model_name : string;
  reasoning_badge : bool;
  error_badge : bool;
  persona_badge : option string;
  rebuttal_badge : option string;
  body : TabBody
}.

Record View : Type := {
  tabs : list Tab;
  tab_content : TabContent
}.

Definition revised_notice : string :=
  "This answer was updated after peer review.".

(** [resp.model.split('/')[1] || resp.model] *)
Definition tabLabel (m : string) : string :=
  match split "/" m !! 1 with
  | Some piece => if String.eqb piece "" then m else piece
  | None => m
  end.

(** The button of [responses.map((resp, index) => ...)]. *)
Definition renderTab (activeTab index : nat) (resp : ModelResult) : Tab :=
  {| tab_active := Nat.eqb activeTab index;
     tab_error := truthy (error resp);
     tab_title := if truthy (error resp) then default "" (error resp) else "";
     tab_warning := truthy (error resp);
     tab_label := tabLabel (model resp) |}.

(** The thinking section: shown when the text is longer than 50,
    with its length in tokens estimated as a quarter of the length. *)
Definition renderThinking (t : option string) : option (nat * string) :=
  match t with
  | Some s =>
      if truthy (Some s) && (50 <? String.length s)
      then Some (round_quarter (String.length s), s)
      else None
  | None => None
  end.

(** The [tab-content] block for [responses[activeTab]]. *)
Definition renderContent (r : ModelResult) : TabContent :=
  {| model_name := model r;
     reasoning_badge := is_reasoning_model r;
     error_badge := truthy (error r);
     persona_badge := if truthy (persona r) then persona r else None;
     rebuttal_badge := if is_rebuttal r then Some revised_notice else None;
     body := if truthy (error r)
             then ErrorMessage (default "" (error r))
             else ResponseText (renderThinking (thinking r)) (response r) |}.

(** The component: [null] for no responses, otherwise the tabs and the
    content of the active one.  Reading a field of
    [responses[activeTab]] throws when the index is out of range. *)
Definition Stage1 (responses : option (list ModelResult)) (activeTab : nat)
  : Outcome (option View) :=
  match responses with
  | None => Returns None
  | Some rs =>
      if Nat.eqb (length rs) 0 then Returns None
      else
        match rs !! activeTab with
        | None => Throws "TypeError: responses[activeTab] is undefined"
        | Some r =>
            Returns (Some {| tabs := imap (renderTab activeTab) rs;
                             tab_content := renderContent r |})
        end
  end.

(** The tabs on screen, whatever the outcome. *)
Definition shown_tabs (o : Outcome (option View)) : list Tab :=
  match o with
  | Returns (Some v) => tabs v
  | _ => []
  end.

End Stage1View.

(** ** The settings dialog (component [Settings]) *)

Module Settings.
Import Js.

(** The part of the component state the handlers read and write. *)
Record State : Type := {
  councilModels : list string;
  chairmanModel : option string;
  modelPersonas : list (string * string);
  saving : bool;
  error : option string;
  successMessage : string
}.

Definition setCouncilModels (v : list string) (s : State) : State :=
  {| councilModels := v; chairmanModel := chairmanModel s;
     modelPersonas := modelPersonas s; saving := saving s;
     error := error s; successMessage := successMessage s |}.

Definition setSaving (v : bool) (s : State) : State :=
  {| councilModels := councilModels s; chairmanModel := chairmanModel s;
     modelPersonas := modelPersonas s; saving := v;
     error := error s; successMessage := successMessage s |}.

Definition setError (v : option string) (s : State) : State :=
  {| councilModels := councilModels s; chairmanModel := chairmanModel s;
     modelPersonas := modelPersonas s; saving := saving s;
     error := v; successMessage := successMessage s |}.

Definition setSuccessMessage (v : string) (s : State) : State :=
  {| councilModels := councilModels s; chairmanModel := chairmanModel s;
     modelPersonas := modelPersonas s; saving := saving s;
     error := error s; successMessage := v |}.

(** [handleToggleModel]: a selected model is removed, unless the list
    has a single entry; an unselected one is appended. *)
Definition handleToggleModel (modelId : string) (s : State) : State :=
  if includes (councilModels s) modelId then
    if 1 <? length (councilModels s) then
      setCouncilModels
        (filter (λ m, m ≠ modelId) (councilModels s)) s
    else s
  else
    setCouncilModels (councilModels s ++ [modelId]) s.

(** A run of clicks on model cards. *)
Definition toggles (clicks : list string) (s : State) : State :=
  foldl (λ st m, handleToggleModel m st) s clicks.

(** A configuration as it is sent and stored. *)
Record Config : Type := {
  cfg_council : list string;
  cfg_chairman : string
}.

(** A request that leaves the browser. *)
Inductive Request : Type :=
| UpdateConfig (c : Config)                      (* api.updateConfig *)
| Override (c : Config) (personas : list (string * string)).
                                                 (* onSaveOverride(...) *)

(** What lies outside the component: the configuration the back end
    holds, the browser's local storage, the requests made so far and
    whether closing the dialog has been scheduled. *)
Record World : Type := {
  backend_config : Config;
  localStorage : gmap string Config;
  requests : list Request;
  close_scheduled : bool
}.

Definition sent (r : Request) (w : World) : World :=
  {| backend_config := backend_config w; localStorage := localStorage w;
     requests := requests w ++ [r]; close_scheduled := close_scheduled w |}.

Definition stored (c : Config) (w : World) : World :=
  {| backend_config := c;
     localStorage := <["llm-council-config" := c]> (localStorage w);
     requests := requests w; close_scheduled := true |}.

(** How an awaited call ends: it resolves, or it rejects with a
    message. *)
Inductive Settled : Type :=
| Resolved
| Rejected (message : string).

(** [handleSave].  [onSaveOverride] tells whether the prop is given;
    [net] is how the awaited call ends. *)
Definition handleSave (onSaveOverride : bool) (net : Settled)
    (s : State) (w : World) : State * World :=
  if Nat.eqb (length (councilModels s)) 0 then
    (setError (Some "Please select at least one council member") s, w)
  else if negb (truthy (chairmanModel s)) then
    (setError (Some "Please select a chairman model") s, w)
  else
    let s1 := setSuccessMessage "" (setError None (setSaving true s)) in
    let c := {| cfg_council := councilModels s;
                cfg_chairman := default "" (chairmanModel s) |} in
    let failed (m : string) (st : State) :=
      setError (Some ("Failed to save configuration: " +:+ m)) st in
    if onSaveOverride then
      let w1 := sent (Override c (modelPersonas s)) w in
      match net with
      | Resolved => (setSaving false s1, w1)
      | Rejected m => (setSaving false (failed m s1), w1)
      end
    else
      let w1 := sent (UpdateConfig c) w in
      match net with
      | Resolved =>
          (setSaving false
             (setSuccessMessage "Configuration saved successfully!" s1),
           stored c w1)
      | Rejected m => (setSaving false (failed m s1), w1)
      end.

End Settings.

(** ** The conversation hook ([useConversation]) *)

Module UseConversation.
Import Js Wire.

(** A message of the conversation.  A user message has [role] and
    [content]; the assistant message has the three stage slots, the
    metadata and the [loading] flags.  A field the object does not
    have reads as [None] or [PNull]. *)
Record Message : Type := {
  role : string;
  content : option string;
  stage1 : Payload;
  stage2 : Payload;
  stage3 : Payload;
  msg_metadata : Payload;
  loading : option (gmap string bool)
}.

Record Conversation : Type := {
  id : option string;
  title : option string;
  created_at : option string;
  messages : list Message
}.

(** [{ role: 'user', content }] *)
Definition userMessage (text : string) : Message :=
  {| role := "user"; content := Some text;
     stage1 := PNull; stage2 := PNull; stage3 := PNull;
     msg_metadata := PNull; loading := None |}.

(** The placeholder that the stream fills in. *)
Definition assistantMessage : Message :=
  {| role := "assistant"; content := None;
     stage1 := PNull; stage2 := PNull; stage3 := PNull;
     msg_metadata := PNull;
     loading := Some (<["resolving" := false]>
                     (<["stage1" := false]>
                     (<["stage2" := false]>
                     (<["stage3" := false]> ∅)))) |}.

(** [msg.loading?.flag] *)
Definition flag (f : string) (m : Message) : option bool :=
  loading m ≫= (.!! f).

(** [{ ...lastMsg, loading: { ...lastMsg.loading } }] *)
Definition clone (m : Message) : Message :=
  {| role := role m; content := content m;
     stage1 := stage1 m; stage2 := stage2 m; stage3 := stage3 m;
     msg_metadata := msg_metadata m;
     loading := Some (default ∅ (loading m)) |}.

(** [msg.loading.flag = b] on a clone. *)
Definition setFlag (f : string) (b : bool) (m : Message) : Message :=
  {| role := role m; content := content m;
     stage1 := stage1 m; stage2 := stage2 m; stage3 := stage3 m;
     msg_metadata := msg_metadata m;
     loading := Some (<[f := b]> (default ∅ (loading m))) |}.

Definition setStage1 (v : Payload) (m : Message) : Message :=
  {| role := role m; content := content m;
     stage1 := v; stage2 := stage2 m; stage3 := stage3 m;
     msg_metadata := msg_metadata m; loading := loading m |}.

Definition setStage2 (v : Payload) (m : Message) : Message :=
  {| role := role m; content := content m;
     stage1 := stage1 m; stage2 := v; stage3 := stage3 m;
     msg_metadata := msg_metadata m; loading := loading m |}.

Definition setStage3 (v : Payload) (m : Message) : Message :=
  {| role := role m; content := content m;
     stage1 := stage1 m; stage2 := stage2 m; stage3 := v;
     msg_metadata := msg_metadata m; loading := loading m |}.

Definition setMetadata (v : Payload) (m : Message) : Message :=
  {| role := role m; content := content m;
     stage1 := stage1 m; stage2 := stage2 m; stage3 := stage3 m;
     msg_metadata := v; loading := loading m |}.

(** [{ ...prev, messages }]; spreading [null] gives an object with no
    other field. *)
Definition withMessages (prev : option Conversation) (ms : list Message)
  : Conversation :=
  match prev with
  | Some c => {| id := id c; title := title c;
                 created_at := created_at c; messages := ms |}
  | None => {| id := None; title := None; created_at := None;
               messages := ms |}
  end.

(** [prev?.messages || []] *)
Definition messagesOf (prev : option Conversation) : list Message :=
  match prev with
  | Some c => messages c
  | None => []
  end.

(** What the stream callback does besides computing the next
    conversation. *)
Inductive Effect : Type :=
| LoadConversations
| SetIsLoading (b : bool)
| ConsoleError (text : string).

(** The [switch (eventType)] on the clone of the last message. *)
Definition updateLastMsg (ev : Event) (updatedLastMsg : Message) : Message :=
  match kind ev with
  | ResolvingPersonas => setFlag "resolving" true updatedLastMsg
  | Stage1Start =>
      setFlag "stage1" true (setFlag "resolving" false updatedLastMsg)
  | Stage1Complete =>
      setFlag "stage1" false (setStage1 (data ev) updatedLastMsg)
  | Stage2Start => setFlag "stage2" true updatedLastMsg
  | Stage2Complete =>
      setFlag "stage2" false
        (setMetadata (metadata ev) (setStage2 (data ev) updatedLastMsg))
  | Stage2_5Start => setFlag "stage1" true updatedLastMsg
  | Stage3Start => setFlag "stage3" true updatedLastMsg
  | Stage3Complete =>
      setFlag "stage3" false (setStage3 (data ev) updatedLastMsg)
  | TitleComplete => updatedLastMsg
  | Complete => updatedLastMsg
  | Error => updatedLastMsg
  end.

(** The calls made inside the same [switch]. *)
Definition effectsOf (ev : Event) : list Effect :=
  match kind ev with
  | TitleComplete => [LoadConversations]
  | Complete => [LoadConversations; SetIsLoading false]
  | Error => [ConsoleError ("Stream error: " +:+ message ev);
              SetIsLoading false]
  | _ => []
  end.

(** The state updater that the stream callback passes to
    [setCurrentConversation] for one event.  With no conversation it
    returns [prev]; reading [loading] of the last message of an empty
    list throws. *)
Definition onEvent (ev : Event) (prev : option Conversation)
  : Outcome (option Conversation) :=
  match prev with
  | None => Returns None
  | Some c =>
      let msgs := messages c in
      match msgs !! (length msgs - 1) with
      | None => Throws "TypeError: lastMsg is undefined"
      | Some lastMsg =>
          let updatedLastMsg := updateLastMsg ev (clone lastMsg) in
          Returns (Some (withMessages prev
                           (<[length msgs - 1 := updatedLastMsg]> msgs)))
      end
  end.

(** The state of the hook. *)
Record Hook : Type := {
  currentConversationId : option string;
  currentConversation : option Conversation;
  isLoading : bool;
  error : option string;
  reloads : nat;                  (* calls of [loadConversations] *)
  console : list string
}.

Definition setCurrentConversationId (v : option string) (h : Hook) : Hook :=
  {| currentConversationId := v;
     currentConversation := currentConversation h;
     isLoading := isLoading h; error := error h;
     reloads := reloads h; console := console h |}.

Definition setCurrentConversation (v : option Conversation) (h : Hook) : Hook :=
  {| currentConversationId := currentConversationId h;
     currentConversation := v; isLoading := isLoading h;
     error := error h; reloads := reloads h; console := console h |}.

Definition setIsLoading (v : bool) (h : Hook) : Hook :=
  {| currentConversationId := currentConversationId h;
     currentConversation := currentConversation h; isLoading := v;
     error := error h; reloads := reloads h; console := console h |}.

Definition setError (v : option string) (h : Hook) : Hook :=
  {| currentConversationId := currentConversationId h;
     currentConversation := currentConversation h;
     isLoading := isLoading h;
     error := v; reloads := reloads h; console := console h |}.

Definition perform (e : Effect) (h : Hook) : Hook :=
  match e with
  | LoadConversations =>
      {| currentConversationId := currentConversationId h;
         currentConversation := currentConversation h;
         isLoading := isLoading h; error := error h;
         reloads := S (reloads h); console := console h |}
  | SetIsLoading b => setIsLoading b h
  | ConsoleError text =>
      {| currentConversationId := currentConversationId h;
         currentConversation := currentConversation h;
         isLoading := isLoading h; error := error h;
         reloads := reloads h; console := console h ++ [text] |}
  end.

(** One event arriving at the hook.  With no conversation the updater
    returns at [if (!prev) return prev], before the [switch]: the state
    stays as it is and none of the calls inside the [switch] is made. *)
Definition deliver (ev : Event) (h : Hook) : Outcome Hook :=
  match currentConversation h with
  | None => Returns h
  | Some c =>
      match onEvent ev (Some c) with
      | Returns c' =>
          Returns (foldl (λ st e, perform e st)
                         (setCurrentConversation c' h) (effectsOf ev))
      | Throws e => Throws e
      end
  end.

(** The events of a stream, one after the other. *)
Fixpoint deliverAll (evs : list Event) (h : Hook) : Outcome Hook :=
  match evs with
  | [] => Returns h
  | ev :: rest =>
      match deliver ev h with
      | Returns h' => deliverAll rest h'
      | Throws e => Throws e
      end
  end.

(** How [api.sendMessageStream] ends after its events. *)
Inductive StreamEnd : Type :=
| Finished
| Failed (message : string).

(** The [catch] block of [sendMessage]. *)
Definition rollback (message : string) (h : Hook) : Hook :=
  let h1 := perform (ConsoleError ("Failed to send message: " +:+ message)) h in
  let h2 :=
    match currentConversation h1 with
    | None => h1
    | Some c =>
        let msgCount := length (messages c) in
        setCurrentConversation
          (Some (withMessages (Some c)
                   (slice0 (messages c) (Nat.max 0 (msgCount - 2))))) h1
    end in
  setError (Some message) (setIsLoading false h2).

(** What happens while [sendMessage] awaits the stream: an event
    arrives and its updater runs on the state of that moment, or some
    other handler or effect of the hook (a click on another
    conversation and the load that follows it, a deletion, a creation)
    updates the state. *)
Inductive Step : Type :=
| Arrives (ev : Event)
| Meanwhile (update : Hook → Hook).

Definition advance (step : Step) (h : Hook) : Outcome Hook :=
  match step with
  | Arrives ev => deliver ev h
  | Meanwhile update => Returns (update h)
  end.

Fixpoint awaited (steps : list Step) (h : Hook) : Outcome Hook :=
  match steps with
  | [] => Returns h
  | step :: rest =>
      match advance step h with
      | Returns h' => awaited rest h'
      | Throws e => Throws e
      end
  end.



(** [sendMessage content].  The loading flag and the two appended
    messages are set before the first [await]; then the stream is
    awaited, while [steps] happen one after the other; then the stream
    ends as [fin] says, and the [catch] block works on the state it
    finds. *)
Definition sendMessage (text : string) (steps : list Step) (fin : StreamEnd)
    (h : Hook) : Outcome Hook :=
  if negb (truthy (currentConversationId h)) then Returns h
  else
    let h1 := setIsLoading true h in
    let h2 := setCurrentConversation
                (Some (withMessages (currentConversation h1)
                         (messagesOf (currentConversation h1)
                            ++ [userMessage text]))) h1 in
    let h3 := setCurrentConversation
                (Some (withMessages (currentConversation h2)
                         (messagesOf (currentConversation h2)
                            ++ [assistantMessage]))) h2 in
    match awaited steps h3 with
    | Throws e => Throws e
    | Returns h4 =>
        match fin with
        | Finished => Returns h4
        | Failed message => Returns (rollback message h4)
        end
    end.

(** The last message of a conversation: the one the stream fills in. *)
Definition lastMsgOf (c : option Conversation) : option Message :=
  last (messagesOf c).

(** The fields of a message, and what reading one gives. *)
Inductive Field : Type :=
| FRole
| FContent
| FStage1
| FStage2
| FStage3
| FMetadata
| FLoading (name : string).

#[global] Instance Field_eq_dec : EqDecision Field.
Proof. solve_decision. Defined.

Inductive FieldValue : Type :=
| VString (s : string)
| VText (t : option string)
| VPayload (p : Payload)
| VFlag (b : option bool).

Definition read (f : Field) (m : Message) : FieldValue :=
  match f with
  | FRole => VString (role m)
  | FContent => VText (content m)
  | FStage1 => VPayload (stage1 m)
  | FStage2 => VPayload (stage2 m)
  | FStage3 => VPayload (stage3 m)
  | FMetadata => VPayload (msg_metadata m)
  | FLoading name => VFlag (flag name m)
  end.

(** The fields that the [case] of an event kind assigns to. *)
Definition assigned (k : EventKind) : list Field :=
  match k with
  | ResolvingPersonas => [FLoading "resolving"]
  | Stage1Start => [FLoading "resolving"; FLoading "stage1"]
  | Stage1Complete => [FStage1; FLoading "stage1"]
  | Stage2Start => [FLoading "stage2"]
  | Stage2Complete => [FStage2; FMetadata; FLoading "stage2"]
  | Stage2_5Start => [FLoading "stage1"]
  | Stage3Start => [FLoading "stage3"]
  | Stage3Complete => [FStage3; FLoading "stage3"]
  | TitleComplete => []
  | Complete => []
  | Error => []
  end.

(** The last message after a run of events: each event works on a
    clone of what the one before left. *)
Definition fillIn (evs : list Event) (m : Message) : Message :=
  foldl (λ msg ev, updateLastMsg ev (clone msg)) m evs.

End UseConversation.

(** ** The deliberation orchestrator and the event emitter *)

Module Orchestrator.
Import Wire.

(** Modelled from the spec: the orchestrator's state machine (section
    4.5), whose implementation is not part of the front-end sources.
    The states are [Idle → ResolvingPersonas → Stage1 → Stage2 →
    Stage2_5 → Stage3 → Complete], plus the terminal [Failed]. *)
Inductive State : Type :=
| Idle
| Resolving
| Stage1
| Stage2
| Stage2_5
| Stage3
| Completed
| Failed.

#[global] Instance State_eq_dec : EqDecision State.
Proof. solve_decision. Defined.

(** Modelled from the spec: everything outside the orchestrator that
    decides how one exchange goes (sections 4.5, 5 and 7): the size of
    the council, whether personas are configured, which seats succeed
    in stage 1 and in stage 2, whether the chairman's call succeeds,
    the state after which the caller cancels, and the state after which
    the conversation title becomes ready (the spec names the
    [TitleComplete] event without fixing its place). *)
Record Exchange : Type := {
  council : nat;
  personas : bool;
  stage1_seats : list bool;
  stage2_seats : list bool;
  chairman_ok : bool;
  cancel_after : option State;
  title_after : option State
}.

Definition any_success (seats : list bool) : bool := existsb id seats.

(** Modelled from the spec: one transition (section 4.5) and the events
    it emits.  An empty council is a configuration failure; a stage in
    which every seat fails, and a failing chairman, are fatal (section
    7); a single council member skips stages 2 and 2.5 and flows through
    stage 3. *)
Definition transition (x : Exchange) (st : State) : list EventKind * State :=
  match st with
  | Idle =>
      if Nat.eqb (council x) 0 then ([Error], Failed)
      else if personas x then ([ResolvingPersonas], Resolving)
      else ([Stage1Start], Stage1)
  | Resolving => ([Stage1Start], Stage1)
  | Stage1 =>
      if negb (any_success (stage1_seats x)) then ([Error], Failed)
      else if Nat.eqb (council x) 1 then ([Stage1Complete; Stage3Start], Stage3)
      else ([Stage1Complete; Stage2Start], Stage2)
  | Stage2 =>
      if negb (any_success (stage2_seats x)) then ([Error], Failed)
      else ([Stage2Complete; Stage2_5Start], Stage2_5)
  | Stage2_5 => ([Stage3Start], Stage3)
  | Stage3 =>
      if chairman_ok x then ([Stage3Complete; Complete], Completed)
      else ([Error], Failed)
  | Completed => ([], Completed)
  | Failed => ([], Failed)
  end.

(** Modelled from the spec: a transition with cancellation taking effect
    at the barrier boundary (section 5), and the title event slipped in
    before the events of the transition that follows. *)
Definition step (x : Exchange) (st : State) : list EventKind * State :=
  match st with
  | Completed | Failed => ([], st)
  | _ =>
      if decide (cancel_after x = Some st) then ([Error], Failed)
      else
        let '(evs, st') := transition x st in
        ((if decide (title_after x = Some st) then [TitleComplete] else [])
           ++ evs, st')
  end.

(** Modelled from the spec: the exchange from [st] on, as the events
    produced and the state reached. *)
Fixpoint run (fuel : nat) (x : Exchange) (st : State)
  : list EventKind * State :=
  match fuel with
  | 0 => ([], st)
  | S fuel' =>
      let '(evs, st') := step x st in
      let '(rest, final) := run fuel' x st' in
      (evs ++ rest, final)
  end.

(** Seven transitions lead from [Idle] to a terminal state. *)
Definition startExchange (x : Exchange) : list EventKind * State :=
  run 7 x Idle.

Definition produced (x : Exchange) : list EventKind := fst (startExchange x).
Definition outcome (x : Exchange) : State := snd (startExchange x).

(** The order in which the events of a successful exchange may appear. *)
Definition canonical : list EventKind :=
  [ResolvingPersonas; Stage1Start; Stage1Complete; Stage2Start;
   Stage2Complete; Stage2_5Start; Stage3Start; Stage3Complete; Complete].

(** The stage events of a trace: all but the title notification. *)
Definition stage_events (tr : list EventKind) : list EventKind :=
  filter (λ k, k ≠ TitleComplete) tr.

(** The stage an event belongs to, counted in half stages:
    stage 1 is 2, stage 2 is 4, stage 2.5 is 5 and stage 3 is 6. *)
Definition stage_of (k : EventKind) : option nat :=
  match k with
  | Stage1Start | Stage1Complete => Some 2
  | Stage2Start | Stage2Complete => Some 4
  | Stage2_5Start => Some 5
  | Stage3Start | Stage3Complete => Some 6
  | _ => None
  end.

Definition is_completion (k : EventKind) : bool :=
  match k with
  | Stage1Complete | Stage2Complete | Stage3Complete => true
  | _ => false
  end.

(** The place of an event kind in [canonical]. *)
Definition rank (k : EventKind) : nat :=
  match k with
  | ResolvingPersonas => 0
  | Stage1Start => 1
  | Stage1Complete => 2
  | Stage2Start => 3
  | Stage2Complete => 4
  | Stage2_5Start => 5
  | Stage3Start => 6
  | Stage3Complete => 7
  | Complete => 8
  | TitleComplete => 9
  | Error => 10
  end.

Definition earlier_in_order (a b : EventKind) : Prop := rank a < rank b.

(** What may still be emitted from a state on: the part of [canonical]
    that lies ahead. *)
Definition ahead (st : State) : list EventKind :=
  match st with
  | Idle => canonical
  | Resolving => drop 1 canonical
  | Stage1 => drop 2 canonical
  | Stage2 => drop 4 canonical
  | Stage2_5 => drop 6 canonical
  | Stage3 => drop 7 canonical
  | Completed => []
  | Failed => []
  end.

(** The stage events of an exchange that completes, from a state on:
    with or without the resolution of personas, with or without stages
    2 and 2.5. *)
Definition courses (st : State) : list (list EventKind) :=
  let review := [Stage2Complete; Stage2_5Start;
                 Stage3Start; Stage3Complete; Complete] in
  let answers := [ Stage1Complete :: Stage2Start :: review;
                   [Stage1Complete; Stage3Start; Stage3Complete; Complete] ] in
  match st with
  | Idle => ((λ t, ResolvingPersonas :: Stage1Start :: t) <$> answers)
              ++ ((λ t, Stage1Start :: t) <$> answers)
  | Resolving => (λ t, Stage1Start :: t) <$> answers
  | Stage1 => answers
  | Stage2 => [review]
  | Stage2_5 => [[Stage3Start; Stage3Complete; Complete]]
  | Stage3 => [[Stage3Complete; Complete]]
  | Completed => [[]]
  | Failed => []
  end.

(** Wherever [e] stands in the trace, [c] stands before it. *)
Definition preceded (tr : list EventKind) (c e : EventKind) : Prop :=
  ∀ pre post, tr = pre ++ e :: post → c ∈ pre.

(** The same, as a check along the trace; [seen] tells whether [c] has
    been met. *)
Fixpoint precededb (c e : EventKind) (seen : bool) (tr : list EventKind)
  : bool :=
  match tr with
  | [] => true
  | k :: rest =>
      (if decide (k = e) then seen else true)
      && precededb c e (seen || bool_decide (k = c)) rest
  end.

(** The barriers between the stages: an event of the next stage is seen
    only after the completion event of the stage before it.  Stage 2.5
    has no completion event; stage 3 waits for the completion of stage 1
    and, when stage 2 was started, of stage 2. *)
Definition barriers_kept (tr : list EventKind) : Prop :=
  preceded tr Stage1Complete Stage2Start ∧
  preceded tr Stage2Complete Stage2_5Start ∧
  preceded tr Stage1Complete Stage3Start ∧
  (Stage2Start ∈ tr → preceded tr Stage2Complete Stage3Start).

(** An event of a later stage is seen, and after it the completion of
    an earlier stage. *)
Definition overtaken (tr : list EventKind) : Prop :=
  ∃ pre e mid c post a b,
    tr = pre ++ e :: mid ++ c :: post ∧
    is_completion c = true ∧
    stage_of e = Some a ∧ stage_of c = Some b ∧ b < a.

End Orchestrator.

Module Emitter.
Import Wire.

(** Modelled from the spec: the event emitter of one exchange (section
    4.6), whose implementation is not part of the front-end sources: a
    first-in first-out buffer between the orchestrator and its single
    consumer. *)
Record State : Type := {
  buffer : list EventKind;
  connected : bool;
  delivered : list EventKind
}.

Definition start : State :=
  {| buffer := []; connected := true; delivered := [] |}.

(** What can happen at the emitter. *)
Inductive Action : Type :=
| Emit (k : EventKind)     (* the orchestrator emits *)
| Take                     (* the consumer reads the next event *)
| Disconnect.              (* the consumer goes away *)

(** Modelled from the spec: emission buffers the event, and is a no-op
    once the consumer has disconnected; the consumer reads from the
    front of the buffer. *)
Definition act (a : Action) (s : State) : State :=
  match a with
  | Emit k =>
      if connected s
      then {| buffer := buffer s ++ [k]; connected := true;
              delivered := delivered s |}
      else s
  | Take =>
      if connected s then
        match buffer s with
        | k :: rest => {| buffer := rest; connected := true;
                          delivered := delivered s ++ [k] |}
        | [] => s
        end
      else s
  | Disconnect =>
      {| buffer := buffer s; connected := false; delivered := delivered s |}
  end.

Definition drive (acts : list Action) (s : State) : State :=
  foldl (λ st a, act a st) s acts.

(** What the consumer has seen after a run of actions. *)
Definition observed (acts : list Action) : list EventKind :=
  delivered (drive acts start).

(** The events the orchestrator handed to the emitter, in order. *)
Definition emitted (acts : list Action) : list EventKind :=
  omap (λ a, match a with Emit k => Some k | _ => None end) acts.

End Emitter.

(** ** The anonymizer *)

Module Anonymizer.
Import Js.

(** Modelled from the spec: a label (section 3) is an opaque token of
    one exchange; [Label i] stands for the i-th letter, "A" being
    [Label 0].  The anonymizer's implementation is not part of the
    front-end sources. *)
Inductive Label : Type := Lab (index : nat).

#[global] Instance Label_eq_dec : EqDecision Label.
Proof. solve_decision. Defined.

Definition index_of (l : Label) : nat := let 'Lab i := l in i.

(** Modelled from the spec: a mapping (section 4.2) lists the models in
    label order: the model at position i carries [Lab i]. *)
Abbreviation Mapping := (list string).

(** Modelled from the spec: a random permutation (section 4.2), drawn
    with the numbers [rnd] supplies: one element is picked out of those
    left, at a position given by the next number, until none is left. *)
Fixpoint draw (n : nat) (rnd : nat → nat) (left : list string) : list string :=
  match n with
  | 0 => []
  | S n' =>
      let i := rnd n' `mod` length left in
      match left !! i with
      | Some x => x :: draw n' rnd (delete i left)
      | None => []
      end
  end.

(** Modelled from the spec: [assign(models) -> mapping]. *)
Definition assign (rnd : nat → nat) (models : list string) : Mapping :=
  draw (length models) rnd models.

(** Modelled from the spec: [reveal(label) -> model_id], a lookup; an
    unknown label is a fatal error of the caller. *)
Definition reveal (m : Mapping) (l : Label) : Outcome string :=
  match m !! index_of l with
  | Some model => Returns model
  | None => Throws "unknown label"
  end.

(** Modelled from the spec: [hide(model_id) -> label], a lookup. *)
Definition hide (m : Mapping) (model : string) : option Label :=
  (λ p, Lab (fst p)) <$> list_find (λ x, x = model) m.

(** Modelled from the spec: the anonymizer as the exchange owns it
    (sections 3 and 9): it has no mapping, or the one assigned. *)
Inductive Owner : Type :=
| Unassigned
| Assigned (m : Mapping).

(** A call on the anonymizer of an exchange. *)
Inductive Call : Type :=
| CallAssign (rnd : nat → nat) (models : list string)
| CallReveal (l : Label)
| CallHide (model : string).

(** Modelled from the spec: the mapping is immutable once assigned
    (section 4.2): a later [assign] finds it in place and leaves it;
    [reveal] and [hide] only read. *)
Definition call (c : Call) (o : Owner) : Owner :=
  match c, o with
  | CallAssign rnd models, Unassigned => Assigned (assign rnd models)
  | _, _ => o
  end.

Definition calls (cs : list Call) (o : Owner) : Owner :=
  foldl (λ st c, call c st) o cs.

End Anonymizer.

(** ** The ranking aggregator *)

Module RankingAggregator.
Import Anonymizer.

(** Modelled from the spec: a peer review (section 3) is one reviewer's
    ordered list of labels, best first, with a critique per label.  The
    aggregator's implementation is not part of the front-end sources. *)
Record PeerReview : Type := {
  ranking : list Label;
  critique : list (Label * string)
}.

(** A review that only ranks. *)
Definition ranks (ls : list Label) : PeerReview :=
  {| ranking := ls; critique := [] |}.

(** Modelled from the spec: the position (from 1) a review gives to an
    answer, if it ranks it at all. *)
Definition position (a : Label) (r : PeerReview) : option nat :=
  (λ p, S (fst p)) <$> list_find (λ l, l = a) (ranking r).

(** Modelled from the spec: the positions of an answer over the
    reviews that ranked it; a review that did not rank it contributes
    nothing. *)
Definition positions (a : Label) (reviews : list PeerReview) : list nat :=
  omap (position a) reviews.

Definition total (ps : list nat) : nat := foldr Nat.add 0 ps.

(** Modelled from the spec: an entry of the aggregate ranking (section
    3): the answer, its mean rank and its vote count; [abstentions]
    counts the reviews that did not rank it. *)
Record Entry : Type := {
  answer : Label;
  mean_rank : Q;
  votes : nat;
  abstentions : nat
}.

(** Modelled from the spec: the mean position of an answer (section
    4.4); an answer nobody ranked has no entry. *)
Definition score (reviews : list PeerReview) (a : Label) : option Entry :=
  let ps := positions a reviews in
  match ps with
  | [] => None
  | _ :: _ =>
      Some {| answer := a;
              mean_rank := Z.of_nat (total ps) # Pos.of_nat (length ps);
              votes := length ps;
              abstentions := length reviews - length ps |}
  end.

(** Modelled from the spec: the order of the aggregate (section 4.4):
    the lower mean first; for equal means, the fewer abstentions. *)
Definition not_worse (e1 e2 : Entry) : bool :=
  match (mean_rank e1 ?= mean_rank e2)%Q with
  | Lt => true
  | Eq => abstentions e1 <=? abstentions e2
  | Gt => false
  end.

(** Insertion before the first entry that is not better: entries that
    tie keep the order in which they came. *)
Fixpoint place (e : Entry) (l : list Entry) : list Entry :=
  match l with
  | [] => [e]
  | x :: l' => if not_worse e x then e :: l else x :: place e l'
  end.

Definition order (l : list Entry) : list Entry := foldr place [] l.

(** Modelled from the spec: [aggregate(reviews) -> AggregateRanking]
    for the answers of an exchange, listed in council order. *)
Definition aggregate (answers : list Label) (reviews : list PeerReview)
  : list Entry :=
  order (omap (score reviews) answers).

(** A mean rank as it is shown, with two decimals: the number of
    hundredths nearest to it. *)
Definition hundredths (q : Q) : Z := Qfloor (q * 100 + (1 # 2))%Q.

End RankingAggregator.

(** ** The cost estimator *)

Module CostEstimator.

(** Modelled from the spec: the price table (section 6), from a model
    id to its cost per input and per output token.  The estimator's
    implementation is not part of the front-end sources. *)
Record Price : Type := {
  input_price : Q;
  output_price : Q
}.

(** A call of the model gateway. *)
Record GatewayCall : Type := {
  called_model : string;
  prompt : string
}.

(** Modelled from the spec: what an operation of the orchestrator can
    read and change: the price table, and the calls made to the model
    gateway so far. *)
Record World : Type := {
  price_table : gmap string Price;
  gateway_calls : list GatewayCall
}.

Record Estimate : Type := {
  promptTokens : nat;
  estimatedCost : Q
}.

Section Estimator.
(** The approximation of the number of tokens of a text, which the
    spec leaves open. *)
Variable tokenCount : string → nat.

Definition input_cost (w : World) (tokens : nat) (model : string) : Q :=
  match price_table w !! model with
  | Some p => (inject_Z (Z.of_nat tokens) * input_price p)%Q
  | None => 0%Q
  end.

(** Modelled from the spec: [estimateCost(query, councilMembers,
    chairman) -> {promptTokens, estimatedCost}] (section 6): the
    tokens of the query, priced for every council member and for the
    chairman from the price table.  It runs in a world and returns
    the world it leaves. *)
Definition estimateCost (query : string) (councilMembers : list string)
    (chairman : string) (w : World) : Estimate * World :=
  let tokens := tokenCount query in
  ({| promptTokens := tokens;
      estimatedCost :=
        foldr Qplus 0%Q
              (map (input_cost w tokens) (councilMembers ++ [chairman])) |},
   w).
End Estimator.

End CostEstimator.

(** ** The cost estimate of the chat input (component [ChatInterface]) *)

Module ChatInterface.
Import Js CostEstimator.

(** A text is kept as the list of its code units, each an [ascii], so
    it holds the code units below 256.  The white space that [trim]
    strips among these: tab to carriage return (9 to 13), the space (32)
    and the no-break space (160). *)
Definition is_space (c : ascii) : bool :=
  match nat_of_ascii c with
  | 9 | 10 | 11 | 12 | 13 | 32 | 160 => true
  | _ => false
  end.

(** [!input.trim()]: the input has nothing but white space. *)
Fixpoint blank (s : string) : bool :=
  match s with
  | EmptyString => true
  | String c rest => is_space c && blank rest
  end.

(** The part of the component state the estimate effect writes. *)
Record State : Type := {
  estimate : option Estimate;
  isEstimating : bool
}.

Section Effect.
Variable tokenCount : string → nat.
(** The council and the chairman the back end holds for a
    conversation id. *)
Variable councilOf : string → option (list string * string).

(** Modelled from the spec: [api.estimateCost(input, conversation.id)]
    reaches [estimateCost] (section 6) with the council and the
    chairman of the conversation, and fails for a conversation the
    back end does not know. *)
Definition api_estimateCost (input conversationId : string) (w : World)
  : Outcome Estimate * World :=
  match councilOf conversationId with
  | Some (members, chairman) =>
      let '(e, w') := estimateCost tokenCount input members chairman w in
      (Returns e, w')
  | None => (Throws "conversation not found", w)
  end.

(** The body of the debounced effect, when its timer fires. *)
Definition estimateEffect (input : string) (isLoading : bool)
    (conversationId : option string) (s : State) (w : World)
  : State * World :=
  if negb (blank input) && negb isLoading && truthy conversationId then
    match api_estimateCost input (default "" conversationId) w with
    | (Returns data, w') =>
        ({| estimate := Some data; isEstimating := false |}, w')
    | (Throws _, w') =>
        ({| estimate := None; isEstimating := false |}, w')
    end
  else ({| estimate := None; isEstimating := isEstimating s |}, w).
End Effect.

End ChatInterface.

(** ** More of JavaScript's arrays and strings *)

Module Arrays.

(** [a.filter((x, i) => p(x, i))], the index counted from [i]. *)
Fixpoint filterFrom {A} (i : nat) (p : A → nat → bool) (a : list A) : list A :=
  match a with
  | [] => []
  | x :: rest =>
      if p x i then x :: filterFrom (S i) p rest
      else filterFrom (S i) p rest
  end.

Definition filterIndexed {A} (p : A → nat → bool) (a : list A) : list A :=
  filterFrom 0 p a.

(** [a.filter((_, i) => i !== index)] *)
Definition removeAt {A} (index : nat) (a : list A) : list A :=
  filterIndexed (λ _ i, negb (i =? index)) a.

(** Insertion of [x] before the first element that it does not come
    after. *)
Fixpoint insertBy {A} (cmp : A → A → Z) (x : A) (l : list A) : list A :=
  match l with
  | [] => [x]
  | y :: rest =>
      if (cmp x y <=? 0)%Z then x :: l else y :: insertBy cmp x rest
  end.

(** [a.sort(cmp)].  The sort is stable, and for a comparator that
    orders the elements consistently its result is that of any stable
    sort; here each element, from the last to the first, is inserted
    before the elements it does not come after. *)
Definition sort {A} (cmp : A → A → Z) (a : list A) : list A :=
  foldr (insertBy cmp) [] a.

(** [s.includes(sub)] on strings: [sub] occurs in [s]. *)
Fixpoint contains (s sub : string) : bool :=
  String.prefix sub s ||
  match s with
  | EmptyString => false
  | String _ rest => contains rest sub
  end.

(** A text with no slash in it. *)
Fixpoint slashless (s : string) : Prop :=
  match s with
  | EmptyString => True
  | String c rest => c ≠ "/"%char ∧ slashless rest
  end.

End Arrays.

(** ** The presets and the model lists of the settings dialog *)

Module Presets.
Import Js.

(** A saved selection. *)
Record Preset : Type := {
  name : string;
  councilModels : list string;
  chairmanModel : option string
}.

(** The presets of the component state, the name being typed, and what
    local storage holds under [llm-council-presets] ([None] when the
    key is absent).  The stored text is the JSON of a list of presets,
    kept here as the list. *)
Record State : Type := {
  selection : Settings.State;
  presets : list Preset;
  newPresetName : string;
  storedPresets : option (list Preset)
}.

Definition defaultPresets : list Preset :=
  [ {| name := "The Big Three";
       councilModels := ["openai/gpt-4o"; "anthropic/claude-3-5-sonnet";
                         "google/gemini-1.5-pro"];
       chairmanModel := Some "google/gemini-1.5-pro" |};
    {| name := "Fast & Cheap";
       councilModels := ["openai/gpt-4o-mini"; "anthropic/claude-3-haiku";
                         "google/gemini-1.5-flash"];
       chairmanModel := Some "google/gemini-1.5-flash" |} ].

(** [loadPresets]: the stored presets, or the defaults, which are then
    stored. *)
Definition loadPresets (s : State) : State :=
  match storedPresets s with
  | Some saved =>
      {| selection := selection s; presets := saved;
         newPresetName := newPresetName s; storedPresets := storedPresets s |}
  | None =>
      {| selection := selection s; presets := defaultPresets;
         newPresetName := newPresetName s;
         storedPresets := Some defaultPresets |}
  end.

Definition setChairmanModel (v : option string) (s : Settings.State)
  : Settings.State :=
  {| Settings.councilModels := Settings.councilModels s;
     Settings.chairmanModel := v;
     Settings.modelPersonas := Settings.modelPersonas s;
     Settings.saving := Settings.saving s;
     Settings.error := Settings.error s;
     Settings.successMessage := Settings.successMessage s |}.

(** [handleApplyPreset] *)
Definition handleApplyPreset (preset : Preset) (s : State) : State :=
  {| selection :=
       setChairmanModel (chairmanModel preset)
         (Settings.setCouncilModels (councilModels preset) (selection s));
     presets := presets s; newPresetName := newPresetName s;
     storedPresets := storedPresets s |}.

(** [handleSavePreset]: nothing for a blank name; otherwise the current
    selection is appended under the name as typed, the list is stored
    and the name is cleared. *)
Definition handleSavePreset (s : State) : State :=
  if ChatInterface.blank (newPresetName s) then s
  else
    let newPreset :=
      {| name := newPresetName s;
         councilModels := Settings.councilModels (selection s);
         chairmanModel := Settings.chairmanModel (selection s) |} in
    let updatedPresets := presets s ++ [newPreset] in
    {| selection := selection s; presets := updatedPresets;
       newPresetName := ""; storedPresets := Some updatedPresets |}.

(** [handleDeletePreset] *)
Definition handleDeletePreset (index : nat) (s : State) : State :=
  let updatedPresets := Arrays.removeAt index (presets s) in
  {| selection := selection s; presets := updatedPresets;
     newPresetName := newPresetName s;
     storedPresets := Some updatedPresets |}.

(** What the user can do with the presets once the dialog is open. *)
Inductive Action : Type :=
| TypeName (text : string)          (* the input of the preset name *)
| SavePreset
| DeletePreset (index : nat)
| ApplyPreset (index : nat)         (* a click on a listed preset *)
| Reopen.                           (* the dialog opens again *)

Definition act (a : Action) (s : State) : State :=
  match a with
  | TypeName text =>
      {| selection := selection s; presets := presets s;
         newPresetName := text; storedPresets := storedPresets s |}
  | SavePreset => handleSavePreset s
  | DeletePreset index => handleDeletePreset index s
  | ApplyPreset index =>
      match presets s !! index with
      | Some preset => handleApplyPreset preset s
      | None => s
      end
  | Reopen => loadPresets s
  end.

Definition run (acts : list Action) (s : State) : State :=
  foldl (λ st a, act a st) s acts.

(** The [disabled] of the button that saves a preset. *)
Definition savePresetDisabled (s : State) : bool :=
  ChatInterface.blank (newPresetName s).

(** The [disabled] of the save button of the dialog. *)
Definition saveDisabled (s : Settings.State) : bool :=
  Settings.saving s
  || Nat.eqb (length (Settings.councilModels s)) 0
  || negb (truthy (Settings.chairmanModel s)).

(** After the presets were loaded, local storage holds the list that
    the dialog shows. *)
Definition in_step (s : State) : Prop := storedPresets s = Some (presets s).

End Presets.

Module ModelLists.
Import Js Arrays.

(** An entry of [availableModels]. *)
Record Model : Type := {
  id : string;
  name : string;
  provider : string;
  description : string
}.

Section Lists.
(** [s.toLowerCase()] *)
Variable toLowerCase : string → string.

(** The filter of the model grid: the search text occurs in the name,
    the id or the provider, case apart. *)
Definition matches (modelSearch : string) (model : Model) : bool :=
  let search := toLowerCase modelSearch in
  contains (toLowerCase (name model)) search
  || contains (toLowerCase (id model)) search
  || contains (toLowerCase (provider model)) search.

(** The comparator of the model grid: selected models first. *)
Definition selectedFirst (councilModels : list string) (a b : Model) : Z :=
  let aSelected := includes councilModels (id a) in
  let bSelected := includes councilModels (id b) in
  if aSelected && negb bSelected then (-1)%Z
  else if negb aSelected && bSelected then 1%Z
  else 0%Z.

(** The cards of the model grid, in the order shown. *)
Definition gridModels (availableModels : list Model) (modelSearch : string)
    (councilModels : list string) : list Model :=
  sort (selectedFirst councilModels)
       (filter (λ m, matches modelSearch m = true) availableModels).

(** The comparator of the chairman select: by provider, then by name. *)
Definition byProviderThenName (a b : Model) : Z :=
  if String.ltb (provider a) (provider b) then (-1)%Z
  else if String.ltb (provider b) (provider a) then 1%Z
  else if String.ltb (name a) (name b) then (-1)%Z
  else if String.ltb (name b) (name a) then 1%Z
  else 0%Z.

(** The options of the chairman select after the placeholder: the models
    that match the search and the model that is selected. *)
Definition chairmanOptions (availableModels : list Model)
    (modelSearch : string) (chairmanModel : option string) : list Model :=
  sort byProviderThenName
       (filter (λ m, matches modelSearch m
                     || bool_decide (chairmanModel = Some (id m)) = true)
               availableModels).
End Lists.

(** The order of the chairman select: by provider, and for the same
    provider by name. *)
Definition in_select_order (a b : Model) : Prop :=
  String.ltb (provider a) (provider b) = true ∨
  (provider a = provider b ∧
   (String.ltb (name a) (name b) = true ∨ name a = name b)).

End ModelLists.

(** ** The application shell (component [App]) and the reset *)

Module App.
Import Js.

(** The call of [api.updateConfig] alone: the request is sent, and the
    back end holds the configuration when the call resolves. *)
Definition updateConfig (c : Settings.Config) (net : Settings.Settled)
    (w : Settings.World) : Settings.World :=
  let w1 := Settings.sent (Settings.UpdateConfig c) w in
  match net with
  | Settings.Resolved =>
      {| Settings.backend_config := c;
         Settings.localStorage := Settings.localStorage w1;
         Settings.requests := Settings.requests w1;
         Settings.close_scheduled := Settings.close_scheduled w1 |}
  | Settings.Rejected _ => w1
  end.

(** [loadConfigFromStorage], run when the application mounts: a stored
    configuration is applied to the back end. *)
Definition loadConfigFromStorage (net : Settings.Settled)
    (w : Settings.World) : Settings.World :=
  match Settings.localStorage w !! "llm-council-config" with
  | Some savedConfig => updateConfig savedConfig net w
  | None => w
  end.

(** [handleReset] of the settings dialog: once confirmed, the stored
    configuration is removed (and the page reloads). *)
Definition handleReset (confirmed : bool) (w : Settings.World)
  : Settings.World :=
  if confirmed then
    {| Settings.backend_config := Settings.backend_config w;
       Settings.localStorage :=
         delete "llm-council-config" (Settings.localStorage w);
       Settings.requests := Settings.requests w;
       Settings.close_scheduled := Settings.close_scheduled w |}
  else w.

(** The back end after a restart: it holds its default again; the
    browser keeps its storage. *)
Definition restarted (default : Settings.Config) (w : Settings.World)
  : Settings.World :=
  {| Settings.backend_config := default;
     Settings.localStorage := Settings.localStorage w;
     Settings.requests := Settings.requests w;
     Settings.close_scheduled := false |}.

(** Where the theme lives: the [data-theme] attribute of the body and
    the [llm-council-theme] key of local storage. *)
Record ThemeStore : Type := {
  bodyTheme : option string;
  storedTheme : option string
}.

Definition reads (v : option string) (text : string) : bool :=
  match v with
  | Some s => String.eqb s text
  | None => false
  end.

(** The initial [isDarkMode] of [App]. *)
Definition initialDarkMode (t : ThemeStore) : bool :=
  if truthy (storedTheme t) then reads (storedTheme t) "dark"
  else reads (bodyTheme t) "dark".

(** The theme effect of [App]. *)
Definition applyTheme (isDarkMode : bool) (t : ThemeStore) : ThemeStore :=
  let theme := if isDarkMode then "dark" else "light" in
  {| bodyTheme := Some theme; storedTheme := Some theme |}.

(** The initial [isDarkMode] of [Settings]. *)
Definition settingsInitialDarkMode (t : ThemeStore) : bool :=
  reads (bodyTheme t) "dark" || reads (storedTheme t) "dark".

(** The theme effect of the earlier [Settings]. *)
Definition settingsApplyTheme (isDarkMode : bool) (t : ThemeStore)
  : ThemeStore :=
  if isDarkMode
  then {| bodyTheme := Some "dark"; storedTheme := Some "dark" |}
  else {| bodyTheme := None; storedTheme := Some "light" |}.

End App.

(** ** The form of the chat (component [ChatInterface]) *)

Module ChatForm.
Import Js.

(** A file picked in the file input. *)
Record File : Type := {
  file_name : string;
  file_type : string;
  size : N;                (* in bytes *)
  text : string            (* what reading it as text gives *)
}.

Record Attachment : Type := {
  name : string;
  type : string;
  content : string
}.

(** 5 MB, as the code counts it. *)
Definition maxSize : N := 1024 * 1024 * 5.

(** The loop of [handleFileSelect] over the files: a file that is too
    large raises an alert and is passed over, the others are read and
    pushed. *)
Fixpoint readFiles (files : list File) (newAttachments : list Attachment)
    (alerts : list string) : list Attachment * list string :=
  match files with
  | [] => (newAttachments, alerts)
  | file :: rest =>
      if (maxSize <? size file)%N then
        readFiles rest newAttachments
          (alerts ++ ["File " +:+ file_name file +:+ " is too large (max 5MB)"])
      else
        readFiles rest
          (newAttachments ++ [{| name := file_name file;
                                 type := file_type file;
                                 content := text file |}])
          alerts
  end.

(** The part of the component state the form works on. *)
Record State : Type := {
  input : string;
  attachments : list Attachment;
  estimate : option CostEstimator.Estimate;
  alerts : list string
}.

(** [handleFileSelect] *)
Definition handleFileSelect (files : list File) (s : State) : State :=
  let '(newAttachments, raised) := readFiles files [] [] in
  {| input := input s;
     attachments := attachments s ++ newAttachments;
     estimate := estimate s;
     alerts := alerts s ++ raised |}.

(** [removeAttachment] *)
Definition removeAttachment (index : nat) (s : State) : State :=
  {| input := input s;
     attachments := Arrays.removeAt index (attachments s);
     estimate := estimate s;
     alerts := alerts s |}.

(** A call of [onSendMessage]. *)
Record Sent : Type := {
  sent_input : string;
  sent_attachments : list Attachment
}.

(** [handleSubmit]: the state it leaves and the call it makes, if any. *)
Definition handleSubmit (isLoading : bool) (s : State) : State * option Sent :=
  if (negb (ChatInterface.blank (input s))
      || (0 <? length (attachments s)))
     && negb isLoading
  then ({| input := ""; attachments := []; estimate := None;
           alerts := alerts s |},
        Some {| sent_input := input s; sent_attachments := attachments s |})
  else (s, None).

(** [handleKeyDown]: Enter without Shift submits. *)
Definition handleKeyDown (key : string) (shiftKey : bool) (isLoading : bool)
    (s : State) : State * option Sent :=
  if String.eqb key "Enter" && negb shiftKey then handleSubmit isLoading s
  else (s, None).

(** The [disabled] of the Send button. *)
Definition sendDisabled (isLoading : bool) (s : State) : bool :=
  (ChatInterface.blank (input s) && Nat.eqb (length (attachments s)) 0)
  || isLoading.

(** The attachment that a file that was read becomes. *)
Definition attach (file : File) : Attachment :=
  {| name := file_name file; type := file_type file; content := text file |}.

End ChatForm.

(** ** The list of conversations ([useConversation]) *)

Module Conversations.
Import Js UseConversation.

(** An entry of the sidebar. *)
Record Summary : Type := {
  id : string;
  created_at : string;
  title : option string;
  message_count : nat
}.

(** The hook with its list of conversations. *)
Record State : Type := {
  hook : Hook;
  conversations : list Summary
}.

(** What an awaited API call gives. *)
Inductive Reply (A : Type) : Type :=
| Fulfilled (value : A)
| Rejected (message : string).
Arguments Fulfilled {A} value.
Arguments Rejected {A} message.

Definition withHook (h : Hook) (s : State) : State :=
  {| hook := h; conversations := conversations s |}.

(** [selectConversation] *)
Definition selectConversation (v : option string) (s : State) : State :=
  withHook (setCurrentConversationId v (hook s)) s.

(** The effect that follows a change of the selected id: the
    conversation is fetched, or cleared when nothing is selected. *)
Definition loadSelected (reply : Reply Conversation) (s : State) : State :=
  if truthy (currentConversationId (hook s)) then
    match reply with
    | Fulfilled conv => withHook (setCurrentConversation (Some conv) (hook s)) s
    | Rejected message =>
        withHook
          (setError (Some message)
             (perform
                (ConsoleError ("Failed to load conversation: " +:+ message))
                (hook s))) s
    end
  else withHook (setCurrentConversation None (hook s)) s.

(** What [api.createConversation] returns. *)
Record Created : Type := {
  new_id : string;
  new_created_at : string
}.

(** [createConversation]: the state it leaves, and whether it rethrows. *)
Definition createConversation (reply : Reply Created) (s : State)
  : State * option string :=
  let h1 := setIsLoading true (hook s) in
  match reply with
  | Fulfilled newConv =>
      ({| hook := setIsLoading false
                    (setCurrentConversationId (Some (new_id newConv)) h1);
          conversations :=
            {| id := new_id newConv; created_at := new_created_at newConv;
               title := None; message_count := 0 |} :: conversations s |},
       None)
  | Rejected message =>
      (withHook
         (setIsLoading false
            (setError (Some message)
               (perform
                  (ConsoleError ("Failed to create conversation: " +:+ message))
                  h1))) s,
       Some message)
  end.

(** [deleteConversation].  The handler awaits the back end and then
    works on the state [s] of that moment: the list is filtered by an
    updater, but the selection it compares the target with is the
    [currentConversationId] of the render in which the handler was
    called, [selectedAtCall]. *)
Definition deleteConversation (target : string)
    (selectedAtCall : option string) (reply : Reply unit)
    (s : State) : State :=
  match reply with
  | Fulfilled _ =>
      let kept := filter (λ c, id c ≠ target) (conversations s) in
      if bool_decide (selectedAtCall = Some target) then
        {| hook := setCurrentConversation None
                     (setCurrentConversationId None (hook s));
           conversations := kept |}
      else {| hook := hook s; conversations := kept |}
  | Rejected message =>
      withHook
        (setError (Some message)
           (perform
              (ConsoleError ("Failed to delete conversation: " +:+ message))
              (hook s))) s
  end.

(** The selected id, if there is one, is the id of a listed
    conversation. *)
Definition selection_listed (s : State) : Prop :=
  ∀ i, currentConversationId (hook s) = Some i →
       ∃ c, c ∈ conversations s ∧ id c = i.

End Conversations.

(** ** The sidebar (component [Sidebar]) *)

Module Sidebar.
Import Js.

(** One entry of the conversation list as it is drawn. *)
Record Item : Type := {
  item_key : string;
  item_active : bool;          (* class [active] *)
  item_title : string;
  item_messages : nat;         (* [{conv.message_count} messages] *)
  item_export : bool           (* the export button is there *)
}.

(** The body of [conversations.map((conv) => ...)]. *)
Definition renderItem (currentConversationId : option string)
    (conv : Conversations.Summary) : Item :=
  {| item_key := Conversations.id conv;
     item_active :=
       bool_decide (Some (Conversations.id conv) = currentConversationId);
     item_title := if truthy (Conversations.title conv)
                   then default "" (Conversations.title conv)
                   else "New Conversation";
     item_messages := Conversations.message_count conv;
     item_export := 0 <? Conversations.message_count conv |}.

(** The conversation list: the notice for an empty list ([None]) or the
    entries. *)
Definition conversationList (conversations : list Conversations.Summary)
    (currentConversationId : option string) : option (list Item) :=
  if Nat.eqb (length conversations) 0 then None
  else Some (renderItem currentConversationId <$> conversations).

(** The sidebar of a state of the hook. *)
Definition shown (s : Conversations.State) : list Item :=
  default []
    (conversationList (Conversations.conversations s)
       (UseConversation.currentConversationId (Conversations.hook s))).

End Sidebar.

(** ** The export menu (component [ExportMenu]) *)

Module ExportMenu.
Import Js.

(** The double quote. *)
Definition quote : ascii := ascii_of_nat 34.

(** The longest run of characters other than the double quote at the
    head of a text: what the greedy group of the pattern takes when it
    is not empty. *)
Fixpoint untilQuote (s : string) : string :=
  match s with
  | EmptyString => EmptyString
  | String c rest =>
      if Ascii.eqb c quote then EmptyString else String c (untilQuote rest)
  end.

(** [s] without the prefix [p], when it starts with it. *)
Fixpoint afterPrefix (p s : string) : option string :=
  match p, s with
  | EmptyString, _ => Some s
  | String a p', String b s' =>
      if Ascii.eqb a b then afterPrefix p' s' else None
  | String _ _, EmptyString => None
  end.

(** The group of the pattern of [handleExport] matched at the head of
    [s].  The pattern is [filename=], an optional double quote, a group
    of one or more characters other than the double quote, and an
    optional double quote; so the group is, after [filename=] and a
    double quote if there is one, a run of other characters that is not
    empty.  (Without the quote taken the run would start at the quote
    and be empty, so giving the quote back finds no other match.) *)
Definition matchHere (s : string) : option string :=
  match afterPrefix "filename=" s with
  | None => None
  | Some rest =>
      let run := match rest with
                 | String c rest' =>
                     if Ascii.eqb c quote then untilQuote rest'
                     else untilQuote rest
                 | EmptyString => EmptyString
                 end in
      if String.eqb run "" then None else Some run
  end.

(** The first group of the pattern executed on [s]: that of the match
    at the leftmost place that has one. *)
Fixpoint matchFilename (s : string) : option string :=
  match matchHere s with
  | Some name => Some name
  | None =>
      match s with
      | EmptyString => None
      | String _ rest => matchFilename rest
      end
  end.

(** What [fetch] gives: a response (with its status, its
    [Content-Disposition] header and whether reading its body fails) or
    a failure. *)
Record Response : Type := {
  ok : bool;
  contentDisposition : option string;
  blobFailure : option string
}.

Inductive Fetched : Type :=
| Arrived (response : Response)
| NetworkError (message : string).

Record State : Type := {
  exporting : bool;
  error : option string
}.

(** What the handler does outside the component: the file name of the
    download it starts, and whether it schedules the menu to close. *)
Record Effects : Type := {
  requested : string;
  downloaded : option string;
  close_scheduled : bool
}.

Definition exportUrl (conversationId format : string) : string :=
  "http://localhost:8001/api/conversations/" +:+ conversationId
    +:+ "/export?format=" +:+ format.

Definition defaultFilename (conversationTitle : option string)
    (format : string) : string :=
  (if truthy conversationTitle then default "" conversationTitle
   else "conversation") +:+ "." +:+ format.

(** The file name of the download. *)
Definition filenameOf (conversationTitle : option string) (format : string)
    (contentDisposition : option string) : string :=
  if truthy contentDisposition then
    match matchFilename (default "" contentDisposition) with
    | Some name => name
    | None => defaultFilename conversationTitle format
    end
  else defaultFilename conversationTitle format.

(** [handleExport] *)
Definition handleExport (conversationId : string)
    (conversationTitle : option string) (format : string) (reply : Fetched)
    (s : State) : State * Effects :=
  let failed (message : string) :=
    ({| exporting := false;
        error := Some ("Failed to export: " +:+ message) |},
     {| requested := exportUrl conversationId format;
        downloaded := None; close_scheduled := false |}) in
  match reply with
  | NetworkError message => failed message
  | Arrived response =>
      if negb (ok response) then failed "Export failed"
      else
        match blobFailure response with
        | Some message => failed message
        | None =>
            ({| exporting := false; error := None |},
             {| requested := exportUrl conversationId format;
                downloaded :=
                  Some (filenameOf conversationTitle format
                          (contentDisposition response));
                close_scheduled := true |})
        end
  end.

(** A text with no double quote in it. *)
Fixpoint quoteless (s : string) : Prop :=
  match s with
  | EmptyString => True
  | String c rest => c ≠ quote ∧ quoteless rest
  end.

End ExportMenu.

(** ** The events that reach beyond the message *)

Module HookEvents.
Import Wire.

(** The events whose [case] ends the loading state of the hook, and
    those whose [case] reloads the list of conversations. *)
Definition ends_loading (ev : Event) : Prop :=
  kind ev = Complete ∨ kind ev = Error.

Definition reloads_list (ev : Event) : Prop :=
  kind ev = TitleComplete ∨ kind ev = Complete.

#[global] Instance ends_loading_dec (ev : Event) : Decision (ends_loading ev).
Proof. unfold ends_loading. apply _. Defined.

#[global] Instance reloads_list_dec (ev : Event) : Decision (reloads_list ev).
Proof. unfold reloads_list. apply _. Defined.

End HookEvents.

(** ** Messages as shared objects *)

(** The stream callbacks work on objects: a conversation holds an array
    of message objects, a message object holds its [loading] object, and
    an assignment to a field changes the object for every holder.  Here
    the objects live in a store and are named by their addresses.  The
    arrays and the conversation objects are kept by value: both
    callbacks copy the array ([[...prev.messages]]) and build a new
    conversation object ([{ ...prev, messages }]) before they write. *)

Module SharedStore.
Import Js Wire UseConversation.

(** A message object: its fields, and the address of its [loading]
    object when it has one. *)
Record MessageObject : Type := {
  o_role : string;
  o_content : option string;
  o_stage1 : Payload;
  o_stage2 : Payload;
  o_stage3 : Payload;
  o_metadata : Payload;
  o_loading : option nat
}.

Record Store : Type := {
  messageObjects : list MessageObject;
  loadingObjects : list (gmap string bool)
}.

(** A conversation object; its messages are addresses. *)
Record ConversationRef : Type := {
  c_id : option string;
  c_title : option string;
  c_created_at : option string;
  c_messages : list nat
}.

(** What a reader of the object sees. *)
Definition toMessage (o : MessageObject) (flags : option (gmap string bool))
  : Message :=
  {| role := o_role o; content := o_content o;
     stage1 := o_stage1 o; stage2 := o_stage2 o; stage3 := o_stage3 o;
     msg_metadata := o_metadata o; loading := flags |}.

Definition readMessage (st : Store) (a : nat) : option Message :=
  o ← messageObjects st !! a;
  match o_loading o with
  | None => Some (toMessage o None)
  | Some l => flags ← loadingObjects st !! l; Some (toMessage o (Some flags))
  end.

Definition readConversation (st : Store) (c : ConversationRef)
  : option Conversation :=
  ms ← mapM (readMessage st) (c_messages c);
  Some {| id := c_id c; title := c_title c; created_at := c_created_at c;
          messages := ms |}.

Definition withStage1 (v : Payload) (o : MessageObject) : MessageObject :=
  {| o_role := o_role o; o_content := o_content o;
     o_stage1 := v; o_stage2 := o_stage2 o; o_stage3 := o_stage3 o;
     o_metadata := o_metadata o; o_loading := o_loading o |}.

Definition withStage2 (v : Payload) (o : MessageObject) : MessageObject :=
  {| o_role := o_role o; o_content := o_content o;
     o_stage1 := o_stage1 o; o_stage2 := v; o_stage3 := o_stage3 o;
     o_metadata := o_metadata o; o_loading := o_loading o |}.

Definition withStage3 (v : Payload) (o : MessageObject) : MessageObject :=
  {| o_role := o_role o; o_content := o_content o;
     o_stage1 := o_stage1 o; o_stage2 := o_stage2 o; o_stage3 := v;
     o_metadata := o_metadata o; o_loading := o_loading o |}.

Definition withMetadata (v : Payload) (o : MessageObject) : MessageObject :=
  {| o_role := o_role o; o_content := o_content o;
     o_stage1 := o_stage1 o; o_stage2 := o_stage2 o; o_stage3 := o_stage3 o;
     o_metadata := v; o_loading := o_loading o |}.

Definition withLoading (l : option nat) (o : MessageObject) : MessageObject :=
  {| o_role := o_role o; o_content := o_content o;
     o_stage1 := o_stage1 o; o_stage2 := o_stage2 o; o_stage3 := o_stage3 o;
     o_metadata := o_metadata o; o_loading := l |}.

(** A run of assignments, which stops at the first that throws. *)
Definition Update : Type := Store → Outcome Store.

Definition andThen (u v : Update) : Update :=
  λ st, match u st with
        | Returns st' => v st'
        | Throws e => Throws e
        end.

(** [msg.loading.f = b] for the message object at [a]. *)
Definition assignFlag (f : string) (b : bool) (a : nat) : Update :=
  λ st,
    match messageObjects st !! a with
    | None => Throws "TypeError: lastMsg is undefined"
    | Some o =>
        match o_loading o with
        | None => Throws "TypeError: lastMsg.loading is undefined"
        | Some l =>
            match loadingObjects st !! l with
            | None => Throws "TypeError: lastMsg.loading is undefined"
            | Some flags =>
                Returns {| messageObjects := messageObjects st;
                           loadingObjects :=
                             <[l := <[f := b]> flags]> (loadingObjects st) |}
            end
        end
    end.

(** [msg.field = v] for the message object at [a]. *)
Definition assignField (set : MessageObject → MessageObject) (a : nat)
  : Update :=
  λ st,
    match messageObjects st !! a with
    | None => Throws "TypeError: lastMsg is undefined"
    | Some o =>
        Returns {| messageObjects := <[a := set o]> (messageObjects st);
                   loadingObjects := loadingObjects st |}
    end.

(** The assignments of the [switch (eventType)], which are the same in
    both callbacks, on the message object at [a]. *)
Definition assignments (ev : Event) (a : nat) : Update :=
  match kind ev with
  | ResolvingPersonas => assignFlag "resolving" true a
  | Stage1Start =>
      andThen (assignFlag "resolving" false a) (assignFlag "stage1" true a)
  | Stage1Complete =>
      andThen (assignField (withStage1 (data ev)) a)
              (assignFlag "stage1" false a)
  | Stage2Start => assignFlag "stage2" true a
  | Stage2Complete =>
      andThen (assignField (withStage2 (data ev)) a)
        (andThen (assignField (withMetadata (metadata ev)) a)
                 (assignFlag "stage2" false a))
  | Stage2_5Start => assignFlag "stage1" true a
  | Stage3Start => assignFlag "stage3" true a
  | Stage3Complete =>
      andThen (assignField (withStage3 (data ev)) a)
              (assignFlag "stage3" false a)
  | TitleComplete => Returns
  | Complete => Returns
  | Error => Returns
  end.

(** [{ ...lastMsg, loading: { ...lastMsg.loading } }]: a new message
    object with a new [loading] object; its address and the store that
    holds it. *)
Definition cloneMessage (a : nat) (st : Store) : Outcome (nat * Store) :=
  match messageObjects st !! a with
  | None => Throws "TypeError: lastMsg is undefined"
  | Some o =>
      let flags := default ∅ (o_loading o ≫= (loadingObjects st !!.)) in
      Returns (length (messageObjects st),
               {| messageObjects :=
                    messageObjects st
                      ++ [withLoading (Some (length (loadingObjects st))) o];
                  loadingObjects := loadingObjects st ++ [flags] |})
  end.

(** The updater of the stream callback of [useConversation]: the
    assignments go to a clone of the last message, which takes its place
    in the copied array. *)
Definition onEvent (ev : Event) (prev : option ConversationRef) (st : Store)
  : Outcome (option ConversationRef * Store) :=
  match prev with
  | None => Returns (None, st)
  | Some c =>
      let messages := c_messages c in
      match messages !! (length messages - 1) with
      | None => Throws "TypeError: lastMsg is undefined"
      | Some lastMsg =>
          match cloneMessage lastMsg st with
          | Throws e => Throws e
          | Returns (updatedLastMsg, st1) =>
              match assignments ev updatedLastMsg st1 with
              | Throws e => Throws e
              | Returns st2 =>
                  Returns
                    (Some {| c_id := c_id c; c_title := c_title c;
                             c_created_at := c_created_at c;
                             c_messages :=
                               <[length messages - 1 := updatedLastMsg]>
                                 messages |},
                     st2)
              end
          end
      end
  end.

(** The updaters of the stream callback of the earlier [App]
    ([handleSendMessage]): the assignments go to the last message
    itself; the three kinds that end or retitle the exchange update
    nothing. *)
Definition appOnEvent (ev : Event) (prev : ConversationRef) (st : Store)
  : Outcome (ConversationRef * Store) :=
  match kind ev with
  | TitleComplete | Complete | Error => Returns (prev, st)
  | _ =>
      let messages := c_messages prev in
      match messages !! (length messages - 1) with
      | None => Throws "TypeError: lastMsg is undefined"
      | Some lastMsg =>
          match assignments ev lastMsg st with
          | Throws e => Throws e
          | Returns st' =>
              Returns ({| c_id := c_id prev; c_title := c_title prev;
                          c_created_at := c_created_at prev;
                          c_messages := messages |}, st')
          end
      end
  end.

(** No two messages of the conversation are one object, and no two
    share their [loading] object. *)
Definition separate (st : Store) (c : ConversationRef) : Prop :=
  NoDup (c_messages c) ∧
  NoDup (omap (λ a, messageObjects st !! a ≫= o_loading) (c_messages c)).

(** The store is [O] and [F] but for the message object at [a], which
    is [o], and its [loading] object at [l], which is [flags]. *)
Definition differs_at (a l : nat) (O : list MessageObject)
    (F : list (gmap string bool)) (o : MessageObject)
    (flags : gmap string bool) (st : Store) : Prop :=
  messageObjects st = <[a := o]> O ∧ loadingObjects st = <[l := flags]> F ∧
  o_loading o = Some l ∧ a < length O ∧ l < length F.

End SharedStore.

(** ** Sample data *)

Module Samples.
Import Js Wire.

(** A seat whose call timed out. *)
Definition failed_seat : ModelResult :=
  {| model := "openai/gpt-4o"; response := None; thinking := None;
     error := Some "timeout"; is_rebuttal := false;
     is_reasoning_model := false; persona := None |}.

(** An answer revised in the rebuttal round. *)
Definition revised_answer : ModelResult :=
  {| model := "google/gemini-1.5-pro"; response := Some "42";
     thinking := None; error := None; is_rebuttal := true;
     is_reasoning_model := false; persona := None |}.

(** A settings dialog with two models selected and a chairman. *)
Definition two_selected : Settings.State :=
  {| Settings.councilModels := ["openai/gpt-4o"; "google/gemini-1.5-pro"];
     Settings.chairmanModel := Some "google/gemini-1.5-pro";
     Settings.modelPersonas := []; Settings.saving := false;
     Settings.error := None; Settings.successMessage := "" |}.

(** The same dialog with no chairman chosen. *)
Definition no_chairman : Settings.State :=
  {| Settings.councilModels := ["openai/gpt-4o"; "google/gemini-1.5-pro"];
     Settings.chairmanModel := Some "";
     Settings.modelPersonas := []; Settings.saving := false;
     Settings.error := None; Settings.successMessage := "" |}.

(** A dialog whose council list, as loaded, names one model twice. *)
Definition listed_twice : Settings.State :=
  {| Settings.councilModels := ["openai/gpt-4o"; "openai/gpt-4o"];
     Settings.chairmanModel := Some "google/gemini-1.5-pro";
     Settings.modelPersonas := []; Settings.saving := false;
     Settings.error := None; Settings.successMessage := "" |}.

Definition quiet_world : Settings.World :=
  {| Settings.backend_config :=
       {| Settings.cfg_council := ["openai/gpt-4o"];
          Settings.cfg_chairman := "openai/gpt-4o" |};
     Settings.localStorage := ∅;
     Settings.requests := [];
     Settings.close_scheduled := false |}.

(** A conversation with one finished exchange. *)
Definition earlier_exchange : list UseConversation.Message :=
  [ UseConversation.userMessage "What is 6 times 7?";
    {| UseConversation.role := "assistant";
       UseConversation.content := None;
       UseConversation.stage1 := PResults [revised_answer];
       UseConversation.stage2 := PRaw "[]";
       UseConversation.stage3 := PRaw "42";
       UseConversation.msg_metadata := PNull;
       UseConversation.loading := None |} ].

Definition open_conversation : UseConversation.Conversation :=
  {| UseConversation.id := Some "c1";
     UseConversation.title := Some "Arithmetic";
     UseConversation.created_at := None;
     UseConversation.messages := earlier_exchange |}.

(** The hook with that conversation selected and loaded. *)
Definition ready_hook : UseConversation.Hook :=
  {| UseConversation.currentConversationId := Some "c1";
     UseConversation.currentConversation := Some open_conversation;
     UseConversation.isLoading := false;
     UseConversation.error := None;
     UseConversation.reloads := 0;
     UseConversation.console := [] |}.




(** The same conversation while an exchange is streaming. *)
Definition streaming_conversation : UseConversation.Conversation :=
  {| UseConversation.id := Some "c1";
     UseConversation.title := Some "Arithmetic";
     UseConversation.created_at := None;
     UseConversation.messages :=
       earlier_exchange ++ [UseConversation.userMessage "And 6 times 8?";
                            UseConversation.assistantMessage] |}.

(** The first answer of the seat that later revises it. *)
Definition first_answer : ModelResult :=
  {| model := "google/gemini-1.5-pro"; response := Some "41";
     thinking := None; error := None; is_rebuttal := false;
     is_reasoning_model := false; persona := None |}.

(** The assistant message once stage 2 is complete. *)
Definition reviewed_message : UseConversation.Message :=
  {| UseConversation.role := "assistant";
     UseConversation.content := None;
     UseConversation.stage1 := PResults [failed_seat; first_answer];
     UseConversation.stage2 := PRaw "rankings";
     UseConversation.stage3 := PNull;
     UseConversation.msg_metadata := PRaw "aggregate";
     UseConversation.loading :=
       Some (<["resolving" := false]>
            (<["stage1" := false]>
            (<["stage2" := false]>
            (<["stage3" := false]> ∅)))) |}.

Definition reviewed_conversation : UseConversation.Conversation :=
  {| UseConversation.id := Some "c1";
     UseConversation.title := Some "Arithmetic";
     UseConversation.created_at := None;
     UseConversation.messages :=
       earlier_exchange ++ [UseConversation.userMessage "And 6 times 8?";
                            reviewed_message] |}.

Definition reviewed_hook : UseConversation.Hook :=
  {| UseConversation.currentConversationId := Some "c1";
     UseConversation.currentConversation := Some reviewed_conversation;
     UseConversation.isLoading := true;
     UseConversation.error := None;
     UseConversation.reloads := 0;
     UseConversation.console := [] |}.

Definition stage1_answers : Event :=
  {| kind := Stage1Complete; data := PResults [failed_seat; first_answer];
     metadata := PNull; message := "" |}.

Definition stage2_rankings : Event :=
  {| kind := Stage2Complete; data := PRaw "rankings";
     metadata := PRaw "aggregate"; message := "" |}.

Definition revised_answers : Event :=
  {| kind := Stage1Complete; data := PResults [failed_seat; revised_answer];
     metadata := PNull; message := "" |}.

(** A council of three with personas; one seat fails in stage 1; the
    title becomes ready while stage 3 runs. *)
Definition council_of_three : Orchestrator.Exchange :=
  {| Orchestrator.council := 3;
     Orchestrator.personas := true;
     Orchestrator.stage1_seats := [true; false; true];
     Orchestrator.stage2_seats := [true; true];
     Orchestrator.chairman_ok := true;
     Orchestrator.cancel_after := None;
     Orchestrator.title_after := Some Orchestrator.Stage3 |}.

(** A consumer that reads two events late and goes away before the end. *)
Definition slow_consumer : list Emitter.Action :=
  [ Emitter.Emit ResolvingPersonas; Emitter.Emit Stage1Start; Emitter.Take;
    Emitter.Emit Stage1Complete; Emitter.Take; Emitter.Take;
    Emitter.Emit Stage2Start; Emitter.Emit Stage2Complete;
    Emitter.Emit Stage2_5Start; Emitter.Take; Emitter.Take;
    Emitter.Emit Stage3Start; Emitter.Take; Emitter.Take;
    Emitter.Emit TitleComplete; Emitter.Emit Stage3Complete; Emitter.Take;
    Emitter.Disconnect; Emitter.Emit Complete; Emitter.Take ].

(** A source of numbers for the draw. *)
Definition spin (n : nat) : nat := 7 * n + 5.

Definition council_models : list string :=
  ["openai/gpt-4o"; "anthropic/claude-3-5-sonnet"; "google/gemini-1.5-pro"].

Definition A : Anonymizer.Label := Anonymizer.Lab 0.
Definition B : Anonymizer.Label := Anonymizer.Lab 1.
Definition C : Anonymizer.Label := Anonymizer.Lab 2.

(** The reviews [[A,B,C],[B,A,C],[A,B,C]]. *)
Definition three_reviews : list RankingAggregator.PeerReview :=
  [ RankingAggregator.ranks [A; B; C];
    RankingAggregator.ranks [B; A; C];
    RankingAggregator.ranks [A; B; C] ].

(** A council of two in which each member ranks only its peer. *)
Definition peer_only_reviews : list RankingAggregator.PeerReview :=
  [ RankingAggregator.ranks [B]; RankingAggregator.ranks [A] ].

(** Four characters to the token, rounded up. *)
Definition quarter_tokens (text : string) : nat := (String.length text + 3) / 4.

Definition sample_prices : gmap string CostEstimator.Price :=
  <["openai/gpt-4o" := {| CostEstimator.input_price := 5 # 1000000;
                          CostEstimator.output_price := 15 # 1000000 |}]>
  (<["google/gemini-1.5-pro" := {| CostEstimator.input_price := 7 # 2000000;
                                   CostEstimator.output_price := 21 # 2000000 |}]>
   ∅).

Definition fresh_world : CostEstimator.World :=
  {| CostEstimator.price_table := sample_prices;
     CostEstimator.gateway_calls := [] |}.

(** The same prices after an exchange has called the models. *)
Definition busy_world : CostEstimator.World :=
  {| CostEstimator.price_table := sample_prices;
     CostEstimator.gateway_calls :=
       [ {| CostEstimator.called_model := "openai/gpt-4o";
            CostEstimator.prompt := "What is 6 times 7?" |} ] |}.

End Samples.

(** ** More sample data *)

Module MoreSamples.
Import Js Wire Samples.

(** The dialog with a preset name typed in. *)
Definition naming_preset : Presets.State :=
  {| Presets.selection := two_selected;
     Presets.presets := Presets.defaultPresets;
     Presets.newPresetName := "Pair";
     Presets.storedPresets := Some Presets.defaultPresets |}.

(** ASCII letters to lower case, other code units as they are. *)
Definition lowerAscii (c : ascii) : ascii :=
  let n := nat_of_ascii c in
  if (65 <=? n) && (n <=? 90) then ascii_of_nat (n + 32) else c.

Fixpoint lowerCase (s : string) : string :=
  match s with
  | EmptyString => EmptyString
  | String c rest => String (lowerAscii c) (lowerCase rest)
  end.

Definition gpt4o : ModelLists.Model :=
  {| ModelLists.id := "openai/gpt-4o"; ModelLists.name := "GPT-4o";
     ModelLists.provider := "OpenAI"; ModelLists.description := "" |}.

Definition sonnet : ModelLists.Model :=
  {| ModelLists.id := "anthropic/claude-3-5-sonnet";
     ModelLists.name := "Claude 3.5 Sonnet";
     ModelLists.provider := "Anthropic"; ModelLists.description := "" |}.

Definition gemini : ModelLists.Model :=
  {| ModelLists.id := "google/gemini-1.5-pro";
     ModelLists.name := "Gemini 1.5 Pro";
     ModelLists.provider := "Google"; ModelLists.description := "" |}.

(** The back end's own default configuration. *)
Definition factory_config : Settings.Config :=
  {| Settings.cfg_council := ["openai/gpt-4o-mini"];
     Settings.cfg_chairman := "openai/gpt-4o-mini" |}.

Definition small_note : ChatForm.File :=
  {| ChatForm.file_name := "note.txt"; ChatForm.file_type := "text/plain";
     ChatForm.size := 12%N; ChatForm.text := "six by seven" |}.

Definition big_dump : ChatForm.File :=
  {| ChatForm.file_name := "dump.log"; ChatForm.file_type := "text/plain";
     ChatForm.size := 5242881%N; ChatForm.text := "..." |}.

(** The form with a question typed in. *)
Definition typed_form : ChatForm.State :=
  {| ChatForm.input := "And 6 times 8?"; ChatForm.attachments := [];
     ChatForm.estimate := None; ChatForm.alerts := [] |}.

Definition sidebar_entries : list Conversations.Summary :=
  [ {| Conversations.id := "c1"; Conversations.created_at := "2025-01-02";
       Conversations.title := Some "Arithmetic";
       Conversations.message_count := 2 |};
    {| Conversations.id := "c0"; Conversations.created_at := "2025-01-01";
       Conversations.title := None; Conversations.message_count := 0 |} ].

Definition ready_state : Conversations.State :=
  {| Conversations.hook := ready_hook;
     Conversations.conversations := sidebar_entries |}.

Definition created_c2 : Conversations.Created :=
  {| Conversations.new_id := "c2";
     Conversations.new_created_at := "2025-01-03" |}.

(** The store while an exchange is streaming: the question, and the
    placeholder with its [loading] object. *)
Definition streaming_store : SharedStore.Store :=
  {| SharedStore.messageObjects :=
       [ {| SharedStore.o_role := "user";
            SharedStore.o_content := Some "And 6 times 8?";
            SharedStore.o_stage1 := PNull; SharedStore.o_stage2 := PNull;
            SharedStore.o_stage3 := PNull; SharedStore.o_metadata := PNull;
            SharedStore.o_loading := None |};
         {| SharedStore.o_role := "assistant";
            SharedStore.o_content := None;
            SharedStore.o_stage1 := PNull; SharedStore.o_stage2 := PNull;
            SharedStore.o_stage3 := PNull; SharedStore.o_metadata := PNull;
            SharedStore.o_loading := Some 0 |} ];
     SharedStore.loadingObjects :=
       [ <["resolving" := false]>
         (<["stage1" := false]>
         (<["stage2" := false]>
         (<["stage3" := false]> ∅))) ] |}.

Definition streaming_ref : SharedStore.ConversationRef :=
  {| SharedStore.c_id := Some "c1";
     SharedStore.c_title := Some "Arithmetic";
     SharedStore.c_created_at := None;
     SharedStore.c_messages := [0; 1] |}.

(** What a reader of [streaming_ref] sees in [streaming_store]. *)
Definition streaming_view : UseConversation.Conversation :=
  {| UseConversation.id := Some "c1";
     UseConversation.title := Some "Arithmetic";
     UseConversation.created_at := None;
     UseConversation.messages :=
       [UseConversation.userMessage "And 6 times 8?";
        UseConversation.assistantMessage] |}.


End MoreSamples.

(** * Properties *)

(** ** The Stage 1 view *)

Module Stage1Facts.
Import Js Wire Stage1View Samples.

Lemma truthy_Some (v : option string) :
  truthy v = true → ∃ s, v = Some s ∧ s ≠ "".
Proof.
  destruct v as [s|]; simpl; [|discriminate].
  intros H. exists s. split; [reflexivity|].
  intros ->. discriminate.
Qed.

(** With a list of results and a tab in range, the view renders. *)
Lemma Stage1_renders (responses : list ModelResult) (activeTab : nat) r :
  responses !! activeTab = Some r →
  Stage1 (Some responses) activeTab =
    Returns (Some {| tabs := imap (renderTab activeTab) responses;
                     tab_content := renderContent r |}).
Proof.
  intros Hr. unfold Stage1.
  destruct responses as [|r0 rs]; [discriminate|].
  simpl Nat.eqb. cbv iota. rewrite Hr. reflexivity.
Qed.

(** C3: every Stage-1 result, failed or not, is shown as a tab of its
    own, so there are as many tabs as results; a result whose error is
    set carries the warning marker on its tab (with the error as
    tooltip), and when it is the active one the view shows the error
    badge and the failure message instead of the response text. *)
Theorem stage1_shows_every_result
    (responses : list ModelResult) (activeTab : nat) :
  activeTab < length responses →
  ∃ v, Stage1 (Some responses) activeTab = Returns (Some v) ∧
    length (tabs v) = length responses ∧
    (∀ i r, responses !! i = Some r →
       ∃ t, tabs v !! i = Some t ∧ tab_label t = tabLabel (model r) ∧
            (truthy (error r) = true →
               tab_warning t = true ∧ tab_error t = true ∧
               error r = Some (tab_title t))) ∧
    (∀ r, responses !! activeTab = Some r → truthy (error r) = true →
       model_name (tab_content v) = model r ∧
       error_badge (tab_content v) = true ∧
       ∃ failure, error r = Some failure ∧
                  body (tab_content v) = ErrorMessage failure).
Proof.
  intros Hlt.
  destruct (lookup_lt_is_Some_2 responses activeTab Hlt) as [ra Hra].
  eexists. split; [apply (Stage1_renders _ _ _ Hra)|]. simpl.
  split; [apply length_imap|]. split.
  - intros i r Hi. exists (renderTab activeTab i r).
    rewrite list_lookup_imap, Hi. split; [reflexivity|].
    split; [reflexivity|]. intros Ht. simpl. rewrite Ht.
    destruct (truthy_Some _ Ht) as (s & -> & _). auto.
  - intros r Hr Ht. rewrite Hra in Hr. injection Hr as ->.
    rewrite Ht. destruct (truthy_Some _ Ht) as (s & Hs & _).
    repeat split; try reflexivity. exists s. rewrite Hs. auto.
Qed.

Lemma stage1_shows_every_result_witness :
  ∃ v, Stage1 (Some [revised_answer; failed_seat]) 1 = Returns (Some v) ∧
    length (tabs v) = length [revised_answer; failed_seat] ∧
    (∀ i r, [revised_answer; failed_seat] !! i = Some r →
       ∃ t, tabs v !! i = Some t ∧ tab_label t = tabLabel (model r) ∧
            (truthy (error r) = true →
               tab_warning t = true ∧ tab_error t = true ∧
               error r = Some (tab_title t))) ∧
    (∀ r, [revised_answer; failed_seat] !! 1 = Some r →
       truthy (error r) = true →
       model_name (tab_content v) = model r ∧
       error_badge (tab_content v) = true ∧
       ∃ failure, error r = Some failure ∧
                  body (tab_content v) = ErrorMessage failure).
Proof.
  apply (stage1_shows_every_result [revised_answer; failed_seat] 1).
  simpl. lia.
Defined.

Example failed_seat_tab :
  shown_tabs (Stage1 (Some [revised_answer; failed_seat]) 0) =
    [ {| tab_active := true; tab_error := false; tab_title := "";
         tab_warning := false; tab_label := "gemini-1.5-pro" |};
      {| tab_active := false; tab_error := true; tab_title := "timeout";
         tab_warning := true; tab_label := "gpt-4o" |} ].
Proof. reflexivity. Qed.

End Stage1Facts.

(** ** The settings dialog *)

Module SettingsFacts.
Import Js Settings Samples.

Lemma includes_elem_of (l : list string) (x : string) :
  includes l x = true ↔ x ∈ l.
Proof.
  unfold includes. rewrite existsb_exists. split.
  - intros (y & Hy & Heq). apply String.eqb_eq in Heq. subst.
    by apply list_elem_of_In.
  - intros Hx. exists x. split; [by apply list_elem_of_In|].
    apply String.eqb_refl.
Qed.

Lemma includes_false (l : list string) (x : string) :
  includes l x = false ↔ x ∉ l.
Proof.
  rewrite <- includes_elem_of. destruct (includes l x); split; try done.
Qed.

(** A rejected save changes the error message and nothing else. *)
Lemma handleSave_invalid (onSaveOverride : bool) (net : Settled)
    (s : State) (w : World) :
  councilModels s = [] ∨ truthy (chairmanModel s) = false →
  ∃ msg, (msg = "Please select at least one council member" ∨
          msg = "Please select a chairman model") ∧
         handleSave onSaveOverride net s w = (setError (Some msg) s, w).
Proof.
  intros Hbad. unfold handleSave.
  destruct (councilModels s) as [|m ms] eqn:Hc.
  - simpl. eauto.
  - destruct Hbad as [|Hch]; [discriminate|].
    simpl. rewrite Hch. simpl. eauto.
Qed.

(** C2: a save with an empty council list, or with no chairman chosen,
    sets one of the two error messages and returns before any request
    is made: the rest of the component state and the world (requests
    sent, configuration held by the back end, local storage) are as they
    were; a request leaves the browser only when the council is not
    empty and a chairman is chosen. *)
Theorem save_rejected_before_network (onSaveOverride : bool) (net : Settled)
    (s : State) (w : World) :
  (councilModels s = [] ∨ truthy (chairmanModel s) = false →
     ∃ msg, (msg = "Please select at least one council member" ∨
             msg = "Please select a chairman model") ∧
            handleSave onSaveOverride net s w = (setError (Some msg) s, w)) ∧
  (requests (snd (handleSave onSaveOverride net s w)) ≠ requests w ∨
   backend_config (snd (handleSave onSaveOverride net s w))
     ≠ backend_config w →
     councilModels s ≠ [] ∧ truthy (chairmanModel s) = true).
Proof.
  split; [apply handleSave_invalid|].
  intros Hsent.
  assert (¬ (councilModels s = [] ∨ truthy (chairmanModel s) = false))
    as Hvalid.
  { intros Hbad.
    destruct (handleSave_invalid onSaveOverride net s w Hbad)
      as (msg & _ & Hs).
    rewrite Hs in Hsent. simpl in Hsent. by destruct Hsent. }
  split.
  - intros Hc. apply Hvalid. by left.
  - destruct (truthy (chairmanModel s)); [done|].
    destruct Hvalid. by right.
Qed.

(** A valid save sends exactly one request, with the selection. *)
Lemma handleSave_valid_sends (net : Settled) (s : State) (w : World) :
  councilModels s ≠ [] → truthy (chairmanModel s) = true →
  requests (snd (handleSave false net s w)) =
    requests w ++ [UpdateConfig {| cfg_council := councilModels s;
                                  cfg_chairman := default "" (chairmanModel s) |}].
Proof.
  intros Hc Hch. unfold handleSave.
  destruct (councilModels s) as [|m ms]; [done|].
  simpl. rewrite Hch. simpl. by destruct net.
Qed.

Example save_without_chairman :
  handleSave false Resolved no_chairman quiet_world =
    (setError (Some "Please select a chairman model") no_chairman, quiet_world).
Proof. reflexivity. Qed.

Example save_reaches_backend :
  backend_config (snd (handleSave false Resolved two_selected quiet_world)) =
    {| cfg_council := ["openai/gpt-4o"; "google/gemini-1.5-pro"];
       cfg_chairman := "google/gemini-1.5-pro" |}.
Proof. reflexivity. Qed.

(** Toggling a model that is not selected appends it. *)
Lemma toggle_unselected (modelId : string) (s : State) :
  modelId ∉ councilModels s →
  councilModels (handleToggleModel modelId s) = councilModels s ++ [modelId].
Proof.
  intros Hni. unfold handleToggleModel.
  apply includes_false in Hni. by rewrite Hni.
Qed.

(** Toggling the only entry of the list is refused. *)
Lemma toggle_last_refused (modelId : string) (s : State) :
  councilModels s = [modelId] → handleToggleModel modelId s = s.
Proof.
  intros Hone. unfold handleToggleModel. rewrite Hone. simpl.
  by rewrite String.eqb_refl.
Qed.

(** Toggling a selected model of a longer list removes it. *)
Lemma toggle_selected (modelId : string) (s : State) :
  modelId ∈ councilModels s → 1 < length (councilModels s) →
  councilModels (handleToggleModel modelId s) =
    filter (λ m, m ≠ modelId) (councilModels s).
Proof.
  intros Hin Hlen. unfold handleToggleModel.
  apply includes_elem_of in Hin. rewrite Hin.
  apply Nat.ltb_lt in Hlen. by rewrite Hlen.
Qed.

(** A list without repetition stays so under toggling. *)
Lemma toggle_NoDup (modelId : string) (s : State) :
  NoDup (councilModels s) → NoDup (councilModels (handleToggleModel modelId s)).
Proof.
  intros Hnd. unfold handleToggleModel.
  destruct (includes (councilModels s) modelId) eqn:Hinc.
  - destruct (1 <? length (councilModels s)); [|done].
    simpl. by apply NoDup_filter.
  - simpl. apply NoDup_app. split; [done|]. split; [|apply NoDup_singleton].
    intros x Hx Hx'. apply list_elem_of_singleton in Hx'. subst.
    by apply includes_false in Hinc.
Qed.

(** A non-empty list without repetition stays non-empty under toggling:
    with two distinct entries or more, removing one leaves another. *)
Lemma toggle_nonempty (modelId : string) (s : State) :
  NoDup (councilModels s) → councilModels s ≠ [] →
  councilModels (handleToggleModel modelId s) ≠ [].
Proof.
  intros Hnd Hne. unfold handleToggleModel.
  destruct (includes (councilModels s) modelId) eqn:Hinc.
  - destruct (1 <? length (councilModels s)) eqn:Hlen; [|done].
    simpl. destruct (councilModels s) as [|a [|b l]]; [done|done|].
    apply NoDup_cons in Hnd as [Hab _].
    destruct (decide (a = modelId)) as [->|Ha].
    + assert (b ≠ modelId) as Hb by (intros ->; apply Hab; left).
      rewrite filter_cons_False by (intros H; by apply H).
      by rewrite filter_cons_True.
    + by rewrite filter_cons_True.
  - simpl. intros Happ. by apply app_eq_nil in Happ as [_ ?].
Qed.

Lemma toggles_nonempty (clicks : list string) (s : State) :
  NoDup (councilModels s) → councilModels s ≠ [] →
  councilModels (toggles clicks s) ≠ [].
Proof.
  revert s. induction clicks as [|m clicks IH]; intros s Hnd Hne; [done|].
  simpl. apply IH; [by apply toggle_NoDup|by apply toggle_nonempty].
Qed.

(** C10: on a council list that names one model twice, a single toggle
    of that model is not refused, although no other model is selected,
    and it empties the selection. *)
Theorem toggle_empties_repeated_selection :
  councilModels listed_twice ≠ [] ∧
  councilModels (toggles ["openai/gpt-4o"] listed_twice) = [].
Proof. split; [done|reflexivity]. Qed.

End SettingsFacts.

(** ** The conversation hook *)

Module UseConversationFacts.
Import Js Wire UseConversation Samples.

Lemma flag_clone (f : string) (m : Message) : flag f (clone m) = flag f m.
Proof. unfold flag, clone. simpl. by destruct (loading m). Qed.

Lemma read_clone (f : Field) (m : Message) : read f (clone m) = read f m.
Proof. destruct f; simpl; try reflexivity. by rewrite flag_clone. Qed.

Lemma flag_setFlag (f g : string) (b : bool) (m : Message) :
  flag f (setFlag g b m) = if decide (g = f) then Some b else flag f m.
Proof.
  unfold flag, setFlag. simpl. rewrite lookup_insert.
  case_decide; [done|]. by destruct (loading m).
Qed.

Lemma read_setFlag (f : Field) (g : string) (b : bool) (m : Message) :
  f ≠ FLoading g → read f (setFlag g b m) = read f m.
Proof.
  intros Hne. destruct f; simpl; try reflexivity.
  rewrite flag_setFlag. case_decide; [congruence|done].
Qed.

(** What an event does not assign to, it leaves as it was. *)
Lemma updateLastMsg_frame (ev : Event) (m : Message) (f : Field) :
  f ∉ assigned (kind ev) → read f (updateLastMsg ev m) = read f m.
Proof.
  unfold updateLastMsg. destruct (kind ev); simpl; intros Hf;
    repeat (rewrite read_setFlag by set_solver);
    try reflexivity;
    destruct f; try reflexivity; set_solver.
Qed.

Lemma last_index {A} (earlier : list A) (x : A) :
  length (earlier ++ [x]) - 1 = length earlier.
Proof. rewrite length_app. simpl. lia. Qed.

(** The updater rewrites the last message of the list and keeps the
    list before it. *)
Lemma onEvent_last (ev : Event) (c : Conversation)
    (earlier : list Message) (lastMsg : Message) :
  messages c = earlier ++ [lastMsg] →
  onEvent ev (Some c) =
    Returns (Some (withMessages (Some c)
                     (earlier ++ [updateLastMsg ev (clone lastMsg)]))).
Proof.
  intros Hm. unfold onEvent. rewrite Hm, last_index.
  rewrite list_lookup_middle by reflexivity.
  rewrite insert_app_r_alt by lia. rewrite Nat.sub_diag. reflexivity.
Qed.

(** C7: an event of any kind rewrites only the last message of the
    list: the messages before it, and the other fields of the
    conversation, are as they were, and in the last message every field
    that the event's case does not assign to reads as before. *)
Theorem event_updates_last_message_only (ev : Event) (c : Conversation)
    (earlier : list Message) (lastMsg : Message) :
  messages c = earlier ++ [lastMsg] →
  ∃ updated,
    onEvent ev (Some c) =
      Returns (Some {| id := id c; title := title c;
                       created_at := created_at c;
                       messages := earlier ++ [updated] |}) ∧
    ∀ f, f ∉ assigned (kind ev) → read f updated = read f lastMsg.
Proof.
  intros Hm. exists (updateLastMsg ev (clone lastMsg)).
  split; [by apply onEvent_last|].
  intros f Hf. rewrite updateLastMsg_frame by done. apply read_clone.
Qed.

Lemma event_updates_last_message_only_witness :
  ∃ updated,
    onEvent stage2_rankings (Some streaming_conversation) =
      Returns (Some {| id := id streaming_conversation;
                       title := title streaming_conversation;
                       created_at := created_at streaming_conversation;
                       messages :=
                         (earlier_exchange ++ [userMessage "And 6 times 8?"])
                           ++ [updated] |}) ∧
    ∀ f, f ∉ assigned (kind stage2_rankings) →
         read f updated = read f assistantMessage.
Proof.
  apply (event_updates_last_message_only stage2_rankings
           streaming_conversation
           (earlier_exchange ++ [userMessage "And 6 times 8?"])
           assistantMessage).
  reflexivity.
Defined.

(** The case of [stage2_complete]: the slots of stages 1 and 3 and the
    other loading flags are left alone. *)
Example stage2_complete_frame (ev : Event) (c : Conversation)
    (earlier : list Message) (lastMsg : Message) :
  kind ev = Stage2Complete → messages c = earlier ++ [lastMsg] →
  ∃ updated,
    lastMsgOf (match onEvent ev (Some c) with
               | Returns c' => c' | Throws _ => None end) = Some updated ∧
    stage1 updated = stage1 lastMsg ∧ stage3 updated = stage3 lastMsg ∧
    stage2 updated = data ev ∧ msg_metadata updated = metadata ev ∧
    flag "stage2" updated = Some false ∧
    flag "stage1" updated = flag "stage1" lastMsg ∧
    flag "stage3" updated = flag "stage3" lastMsg ∧
    flag "resolving" updated = flag "resolving" lastMsg.
Proof.
  intros Hk Hm. rewrite (onEvent_last _ _ _ _ Hm).
  eexists. split; [apply last_snoc|].
  unfold updateLastMsg. rewrite Hk.
  rewrite !flag_setFlag. simpl.
  repeat split; try reflexivity; unfold flag; simpl; by destruct (loading lastMsg).
Qed.

(** With no message at all, there is no last message to clone. *)
Example onEvent_empty (ev : Event) (c : Conversation) :
  messages c = [] → ∃ e, onEvent ev (Some c) = Throws e.
Proof. intros Hm. unfold onEvent. rewrite Hm. simpl. eauto. Qed.

Lemma perform_conversation (e : Effect) (h : Hook) :
  currentConversation (perform e h) = currentConversation h.
Proof. by destruct e. Qed.

Lemma effects_conversation (es : list Effect) (h : Hook) :
  currentConversation (foldl (λ st e, perform e st) h es)
    = currentConversation h.
Proof.
  revert h. induction es as [|e es IH]; intros h; [done|].
  simpl. by rewrite IH, perform_conversation.
Qed.

Lemma withMessages_twice (prev : option Conversation) (ms ms' : list Message) :
  withMessages (Some (withMessages prev ms)) ms' = withMessages prev ms'.
Proof. by destruct prev. Qed.

(** One event, seen from the hook. *)
Lemma deliver_last (ev : Event) (h : Hook) (c : Conversation)
    (earlier : list Message) (m : Message) :
  currentConversation h = Some c → messages c = earlier ++ [m] →
  ∃ h', deliver ev h = Returns h' ∧
        currentConversation h' =
          Some (withMessages (Some c)
                  (earlier ++ [updateLastMsg ev (clone m)])).
Proof.
  intros Hc Hm. unfold deliver. rewrite Hc, (onEvent_last _ _ _ _ Hm).
  eexists. split; [reflexivity|]. by rewrite effects_conversation.
Qed.

(** A run of events never changes the length of the list: it fills in
    the last message. *)
Lemma deliverAll_last (evs : list Event) (h : Hook) (c : Conversation)
    (earlier : list Message) (m : Message) :
  currentConversation h = Some c → messages c = earlier ++ [m] →
  ∃ h', deliverAll evs h = Returns h' ∧
        currentConversation h' =
          Some (withMessages (Some c) (earlier ++ [fillIn evs m])).
Proof.
  revert h c m. induction evs as [|ev evs IH]; intros h c m Hc Hm.
  - exists h. split; [done|]. rewrite Hc. unfold fillIn. simpl.
    rewrite <- Hm. by destruct c.
  - simpl. destruct (deliver_last ev h c earlier m Hc Hm) as (h1 & -> & Hc1).
    destruct (IH h1 _ (updateLastMsg ev (clone m)) Hc1) as (h' & -> & Hc');
      [done|].
    exists h'. split; [done|]. by rewrite Hc'.
Qed.


Lemma messagesOf_with (prev : option Conversation) (ms : list Message) :
  messagesOf (Some (withMessages prev ms)) = ms.
Proof. by destruct prev. Qed.


Lemma awaited_arrivals (evs : list Event) (h : Hook) :
  awaited (Arrives <$> evs) h = deliverAll evs h.
Proof.
  revert h. induction evs as [|ev evs IH]; intros h; simpl; [done|].
  destruct (deliver ev h); [apply IH|done].
Qed.





(** Once the stage-1 loading flag is on, only [stage1_complete] turns
    it off, and only [stage1_complete] writes the stage-1 slot. *)
Lemma stage1_flag_stays (e : Event) (m : Message) :
  kind e ≠ Stage1Complete → flag "stage1" m = Some true →
  flag "stage1" (updateLastMsg e (clone m)) = Some true ∧
  stage1 (updateLastMsg e (clone m)) = stage1 m.
Proof.
  intros Hk Hf. rewrite <- flag_clone in Hf.
  unfold updateLastMsg. destruct (kind e); try done;
    rewrite ?flag_setFlag; repeat case_decide; try done.
Qed.

Lemma fillIn_stage1_flag_stays (between : list Event) (m : Message) :
  Forall (λ e, kind e ≠ Stage1Complete) between →
  flag "stage1" m = Some true →
  flag "stage1" (fillIn between m) = Some true ∧
  stage1 (fillIn between m) = stage1 m.
Proof.
  intros Hall. revert m. induction Hall as [|e between He _ IH]; intros m Hf.
  - done.
  - destruct (stage1_flag_stays e m He Hf) as [Hf' Hs'].
    destruct (IH _ Hf') as [Hf'' Hs'']. unfold fillIn in *. simpl.
    by rewrite Hf'', Hs''.
Qed.

Lemma fillIn_snoc (evs : list Event) (ev : Event) (m : Message) :
  fillIn (evs ++ [ev]) m = updateLastMsg ev (clone (fillIn evs m)).
Proof. unfold fillIn. by rewrite foldl_app. Qed.

Lemma lastMsgOf_with (prev : option Conversation)
    (earlier : list Message) (m : Message) :
  lastMsgOf (Some (withMessages prev (earlier ++ [m]))) = Some m.
Proof. unfold lastMsgOf. rewrite messagesOf_with. apply last_snoc. Qed.

(** C8: a response with [is_rebuttal] set is shown with the notice that
    the answer was updated after peer review; and in the hook, after
    [stage2_5_start] the stage-1 loading flag of the last message is on
    while the stage-1 answers shown so far stay in their slot, until the
    next [stage1_complete] event puts its results in that slot in their
    place and turns the flag off. *)
Theorem rebuttal_marked_and_supersedes
    (responses : list ModelResult) (activeTab : nat) (r : ModelResult)
    (h : Hook) (c : Conversation) (earlier : list Message)
    (lastMsg : Message) (between : list Event) (ev : Event) :
  responses !! activeTab = Some r → is_rebuttal r = true →
  currentConversation h = Some c → messages c = earlier ++ [lastMsg] →
  Forall (λ e, kind e ≠ Stage1Complete) between →
  kind ev = Stage1Complete →
  (∃ v, Stage1View.Stage1 (Some responses) activeTab = Returns (Some v) ∧
        Stage1View.rebuttal_badge (Stage1View.tab_content v)
          = Some "This answer was updated after peer review.") ∧
  (∃ h1 m1, deliverAll (bare Stage2_5Start :: between) h = Returns h1 ∧
        lastMsgOf (currentConversation h1) = Some m1 ∧
        flag "stage1" m1 = Some true ∧ stage1 m1 = stage1 lastMsg) ∧
  (∃ h2 m2, deliverAll (bare Stage2_5Start :: between ++ [ev]) h = Returns h2 ∧
        lastMsgOf (currentConversation h2) = Some m2 ∧
        stage1 m2 = data ev ∧ flag "stage1" m2 = Some false).
Proof.
  intros Hr Hreb Hc Hm Hbetween Hk.
  set (m0 := updateLastMsg (bare Stage2_5Start) (clone lastMsg)).
  assert (flag "stage1" m0 = Some true ∧ stage1 m0 = stage1 lastMsg)
    as [Hf0 Hs0].
  { subst m0. unfold updateLastMsg. simpl. by rewrite flag_setFlag. }
  destruct (fillIn_stage1_flag_stays between m0 Hbetween Hf0) as [Hf1 Hs1].
  split; [|split].
  - rewrite (Stage1Facts.Stage1_renders _ _ _ Hr). eexists.
    split; [reflexivity|]. simpl. by rewrite Hreb.
  - destruct (deliverAll_last (bare Stage2_5Start :: between) h c earlier
                lastMsg Hc Hm) as (h1 & Hrun & Hc1).
    exists h1, (fillIn between m0). split; [done|].
    rewrite Hc1. split; [apply lastMsgOf_with|]. by rewrite Hs1.
  - destruct (deliverAll_last (bare Stage2_5Start :: between ++ [ev]) h c
                earlier lastMsg Hc Hm) as (h2 & Hrun & Hc2).
    exists h2, (updateLastMsg ev (clone (fillIn between m0))).
    split; [done|]. rewrite Hc2. split.
    + rewrite <- fillIn_snoc. apply lastMsgOf_with.
    + unfold updateLastMsg. rewrite Hk. by rewrite flag_setFlag.
Qed.

Lemma rebuttal_marked_and_supersedes_witness :
  (∃ v, Stage1View.Stage1 (Some [failed_seat; revised_answer]) 1
          = Returns (Some v) ∧
        Stage1View.rebuttal_badge (Stage1View.tab_content v)
          = Some "This answer was updated after peer review.") ∧
  (∃ h1 m1, deliverAll (bare Stage2_5Start :: [bare TitleComplete])
              reviewed_hook = Returns h1 ∧
        lastMsgOf (currentConversation h1) = Some m1 ∧
        flag "stage1" m1 = Some true ∧ stage1 m1 = stage1 reviewed_message) ∧
  (∃ h2 m2, deliverAll (bare Stage2_5Start :: [bare TitleComplete]
                          ++ [revised_answers]) reviewed_hook = Returns h2 ∧
        lastMsgOf (currentConversation h2) = Some m2 ∧
        stage1 m2 = data revised_answers ∧ flag "stage1" m2 = Some false).
Proof.
  apply (rebuttal_marked_and_supersedes [failed_seat; revised_answer] 1
           revised_answer reviewed_hook reviewed_conversation
           (earlier_exchange ++ [userMessage "And 6 times 8?"])
           reviewed_message [bare TitleComplete] revised_answers).
  - reflexivity.
  - reflexivity.
  - reflexivity.
  - reflexivity.
  - repeat constructor. discriminate.
  - reflexivity.
Defined.

(** Without a selected conversation [sendMessage] does nothing. *)
Example sendMessage_unselected (text : string) (steps : list Step)
    (fin : StreamEnd) (h : Hook) :
  truthy (currentConversationId h) = false →
  sendMessage text steps fin h = Returns h.
Proof. intros Hid. unfold sendMessage. by rewrite Hid. Qed.

End UseConversationFacts.

(** ** The orchestrator and the emitter *)

Module OrchestratorFacts.
Import Js Wire Orchestrator Samples.

Lemma stage_events_app (l k : list EventKind) :
  stage_events (l ++ k) = stage_events l ++ stage_events k.
Proof. apply filter_app. Qed.

Lemma stage_events_sublist (l k : list EventKind) :
  l `sublist_of` k → stage_events l `sublist_of` stage_events k.
Proof.
  unfold stage_events. induction 1 as [|x l k _ IH|x l k _ IH]; [done| |].
  - rewrite !filter_cons. case_decide; [by apply sublist_skip|done].
  - rewrite filter_cons. case_decide; [by apply sublist_cons|done].
Qed.

(** A failed exchange stays failed. *)
Lemma run_Failed (fuel : nat) (x : Exchange) :
  run fuel x Failed = ([], Failed).
Proof. induction fuel as [|fuel IH]; [done|]. simpl. by rewrite IH. Qed.

(** Case analysis on one transition, given as an equation [H] on
    [step x st]. *)
Ltac step_cases st H :=
  unfold step, transition in H;
  destruct st; simpl in H;
  repeat (case_decide || case_match);
  simplify_eq; try done; simpl in *.

(** Induction over the transitions of an exchange that completes: a
    property of a state and of the events produced from it on holds when
    it holds at completion and every transition that does not fail
    carries it backwards. *)
Lemma run_completed_ind (x : Exchange)
    (P : State → list EventKind → Prop) :
  P Completed [] →
  (∀ st st' evs rest,
     step x st = (evs, st') → st' ≠ Failed →
     P st' rest → P st (evs ++ rest)) →
  ∀ fuel st evs, run fuel x st = (evs, Completed) → P st evs.
Proof.
  intros Hdone Hstep. induction fuel as [|fuel IH]; intros st evs Hrun.
  - simpl in Hrun. by simplify_eq.
  - simpl in Hrun.
    destruct (step x st) as [evs1 st1] eqn:Hst.
    destruct (run fuel x st1) as [rest final] eqn:Hrest. simplify_eq.
    destruct (decide (st1 = Failed)) as [->|Hok].
    { rewrite run_Failed in Hrest. simplify_eq. }
    apply (Hstep st st1); [done|done|]. by apply IH.
Qed.

(** One transition that does not fail emits, in order, events that lie
    ahead of the state it leaves, and what lies ahead of the state it
    reaches comes after them. *)
Lemma step_ahead (x : Exchange) (st st' : State) (evs : list EventKind) :
  step x st = (evs, st') → st' ≠ Failed →
  stage_events evs ++ ahead st' `sublist_of` ahead st.
Proof.
  intros Hstep Hok. step_cases st Hstep;
    repeat first [ apply sublist_nil | apply sublist_skip
                 | apply sublist_cons ].
Qed.

(** The events of an exchange that completes, from any state on, lie
    ahead of that state, in the canonical order. *)
Lemma run_ahead (fuel : nat) (x : Exchange) (st : State)
    (evs : list EventKind) :
  run fuel x st = (evs, Completed) →
  stage_events evs `sublist_of` ahead st.
Proof.
  revert fuel st evs.
  apply (run_completed_ind x
           (λ st evs, stage_events evs `sublist_of` ahead st)); [done|].
  intros st st' evs rest Hstep Hok IH. rewrite stage_events_app.
  transitivity (stage_events evs ++ ahead st').
  - by apply sublist_app.
  - by apply (step_ahead x).
Qed.

(** No error event is emitted on the way to completion. *)
Lemma run_no_error (fuel : nat) (x : Exchange) (st : State)
    (evs : list EventKind) :
  run fuel x st = (evs, Completed) → Error ∉ evs.
Proof.
  revert fuel st evs.
  apply (run_completed_ind x (λ _ evs, Error ∉ evs));
    [apply not_elem_of_nil|].
  intros st st' evs rest Hstep Hok IH.
  apply not_elem_of_app. split; [|done].
  clear IH. step_cases st Hstep;
    rewrite ?not_elem_of_cons; repeat split; try done;
    apply not_elem_of_nil.
Qed.

(** Once the consumer is gone, it sees nothing more. *)
Lemma drive_disconnected (acts : list Emitter.Action) (s : Emitter.State) :
  Emitter.connected s = false →
  Emitter.delivered (Emitter.drive acts s) = Emitter.delivered s.
Proof.
  revert s. induction acts as [|a acts IH]; intros s Hs; [done|].
  simpl. rewrite IH.
  - destruct a; simpl; by rewrite ?Hs.
  - destruct a; simpl; by rewrite ?Hs.
Qed.

(** The emitter neither reorders nor invents: what the consumer has
    seen is an initial part of what it had seen, then what was buffered,
    then what was emitted. *)
Lemma drive_prefix (acts : list Emitter.Action) (s : Emitter.State) :
  Emitter.delivered (Emitter.drive acts s) `prefix_of`
    Emitter.delivered s ++ Emitter.buffer s ++ Emitter.emitted acts.
Proof.
  revert s. induction acts as [|a acts IH]; intros s.
  - simpl. by apply prefix_app_r.
  - change (Emitter.drive (a :: acts) s)
      with (Emitter.drive acts (Emitter.act a s)).
    destruct (Emitter.connected s) eqn:Hs.
    + destruct a as [k| |]; unfold Emitter.act; rewrite ?Hs.
      * etransitivity; [apply IH|]. simpl. by rewrite <- (assoc_L (++)).
      * destruct (Emitter.buffer s) as [|k rest] eqn:Hb.
        -- etransitivity; [apply IH|]. by rewrite Hb.
        -- etransitivity; [apply IH|]. simpl.
           by rewrite <- (assoc_L (++)).
      * rewrite drive_disconnected by done. simpl. by apply prefix_app_r.
    + assert (Emitter.act a s = s) as ->.
      { destruct a; unfold Emitter.act; rewrite ?Hs; try done.
        destruct s; simpl in *; by subst. }
      rewrite drive_disconnected by done. by apply prefix_app_r.
Qed.

Lemma observed_sublist (acts : list Emitter.Action) :
  Emitter.observed acts `sublist_of` Emitter.emitted acts.
Proof.
  destruct (drive_prefix acts Emitter.start) as [k Hk]. simpl in Hk.
  unfold Emitter.observed. rewrite Hk. by apply sublist_inserts_r.
Qed.

Lemma canonical_sorted : StronglySorted earlier_in_order canonical.
Proof.
  unfold canonical, earlier_in_order.
  repeat (constructor; [|repeat constructor; simpl; lia]). constructor.
Qed.

Lemma sublist_sorted {A} (R : relation A) (l k : list A) :
  l `sublist_of` k → StronglySorted R k → StronglySorted R l.
Proof.
  induction 1 as [|x l k Hsub IH|x l k Hsub IH]; intros Hk; [done| |].
  - apply StronglySorted_inv in Hk as [Hk Hx]. constructor; [by apply IH|].
    apply Forall_forall. intros y Hy.
    eapply Forall_forall; [exact Hx|]. by eapply elem_of_sublist.
  - apply StronglySorted_inv in Hk as [Hk _]. by apply IH.
Qed.

(** In a trace whose stage events follow the canonical order, no event
    of a later stage comes before the completion of an earlier one. *)
Lemma in_order_not_overtaken (tr : list EventKind) :
  stage_events tr `sublist_of` canonical → ¬ overtaken tr.
Proof.
  intros Hsub (pre & e & mid & c & post & a & b & -> & Hc & Ha & Hb & Hlt).
  assert ([e; c] `sublist_of` pre ++ e :: mid ++ c :: post) as Hec.
  { apply sublist_inserts_l, sublist_skip, sublist_inserts_l, sublist_skip,
      sublist_nil_l. }
  apply stage_events_sublist in Hec.
  assert (stage_events [e; c] = [e; c]) as Heq
    by (destruct e, c; try discriminate; reflexivity).
  rewrite Heq in Hec.
  pose proof (sublist_sorted _ _ _ (transitivity Hec Hsub) canonical_sorted)
    as Hsorted.
  apply StronglySorted_inv in Hsorted as [_ Hrank].
  apply Forall_cons in Hrank as [Hrank _]. unfold earlier_in_order in Hrank.
  destruct e, c; simpl in *; simplify_eq; lia.
Qed.

(** One transition that does not fail extends every course of the
    state it reaches to a course of the state it leaves. *)
Lemma step_courses (x : Exchange) (st st' : State) (evs t : list EventKind) :
  step x st = (evs, st') → st' ≠ Failed → t ∈ courses st' →
  stage_events evs ++ t ∈ courses st.
Proof.
  intros Hstep Hok Ht. step_cases st Hstep;
    repeat (apply elem_of_cons in Ht as [->|Ht]);
    try (by apply elem_of_nil in Ht);
    simpl; repeat constructor.
Qed.

(** The stage events of an exchange that completes are one of the
    courses of the state it started from. *)
Lemma run_courses (fuel : nat) (x : Exchange) (st : State)
    (evs : list EventKind) :
  run fuel x st = (evs, Completed) → stage_events evs ∈ courses st.
Proof.
  revert fuel st evs.
  apply (run_completed_ind x (λ st evs, stage_events evs ∈ courses st)).
  - simpl. constructor.
  - intros st st' evs rest Hstep Hok IH. rewrite stage_events_app.
    by apply (step_courses x st st').
Qed.

Lemma precededb_sound (c e : EventKind) (tr : list EventKind) (seen : bool) :
  precededb c e seen tr = true →
  ∀ pre post, tr = pre ++ e :: post → seen = true ∨ c ∈ pre.
Proof.
  revert seen. induction tr as [|k rest IH]; intros seen Hb pre post Htr.
  - by destruct pre.
  - simpl in Hb. apply andb_prop in Hb as [Hhere Hrest].
    destruct pre as [|k' pre]; simplify_eq/=.
    + left. by rewrite decide_True in Hhere.
    + destruct (IH _ Hrest pre post eq_refl) as [Hseen|Hin].
      * apply orb_prop in Hseen as [->|Hk]; [by left|].
        apply bool_decide_eq_true in Hk as ->. right. constructor.
      * right. by constructor.
Qed.

Lemma precededb_preceded (c e : EventKind) (tr : list EventKind) :
  precededb c e false tr = true → preceded tr c e.
Proof.
  intros Hb pre post Htr.
  by destruct (precededb_sound c e tr false Hb pre post Htr).
Qed.

Lemma preceded_prefix (tr t : list EventKind) (c e : EventKind) :
  tr `prefix_of` t → preceded t c e → preceded tr c e.
Proof.
  intros [k ->] Ht pre post ->. apply (Ht pre (post ++ k)).
  by rewrite <- (assoc_L (++)).
Qed.

Lemma preceded_stage_events (tr : list EventKind) (c e : EventKind) :
  e ≠ TitleComplete → preceded (stage_events tr) c e → preceded tr c e.
Proof.
  intros He Hpre pre post ->.
  assert (c ∈ stage_events pre) as Hin.
  { apply (Hpre (stage_events pre) (stage_events post)).
    rewrite stage_events_app. unfold stage_events at 2.
    by rewrite filter_cons_True. }
  by apply list_elem_of_filter in Hin as [_ ?].
Qed.

(** Every course of a whole exchange keeps the barriers. *)
Lemma courses_barriers (t : list EventKind) :
  t ∈ courses Idle → barriers_kept t.
Proof.
  intros Ht. simpl in Ht.
  repeat (apply elem_of_cons in Ht as [->|Ht]);
    try (by apply elem_of_nil in Ht);
    (split; [|split; [|split]]);
    try (by apply precededb_preceded);
    try (by intros _; apply precededb_preceded);
    intros Hin;
    repeat (apply elem_of_cons in Hin as [Hin|Hin]; [discriminate|]);
    by apply elem_of_nil in Hin.
Qed.

(** What a consumer has seen of a course keeps the barriers. *)
Lemma observed_barriers (seen t : list EventKind) :
  stage_events seen `prefix_of` t → barriers_kept t → barriers_kept seen.
Proof.
  intros Hpre (H1 & H2 & H3 & H4).
  repeat split.
  - apply preceded_stage_events; [done|]. by eapply preceded_prefix.
  - apply preceded_stage_events; [done|]. by eapply preceded_prefix.
  - apply preceded_stage_events; [done|]. by eapply preceded_prefix.
  - intros Hin. apply preceded_stage_events; [done|].
    eapply preceded_prefix; [done|]. apply H4.
    destruct Hpre as [k ->]. apply elem_of_app. left.
    apply list_elem_of_filter. done.
Qed.

Lemma observed_prefix (acts : list Emitter.Action) :
  Emitter.observed acts `prefix_of` Emitter.emitted acts.
Proof. apply (drive_prefix acts Emitter.start). Qed.

Lemma stage_events_prefix (l k : list EventKind) :
  l `prefix_of` k → stage_events l `prefix_of` stage_events k.
Proof.
  intros [m ->]. rewrite stage_events_app. by apply prefix_app_r.
Qed.

(** When the events reach the hook in the canonical order and the
    rebuttal round is announced, the stage-1 loading flag of the last
    message is still on after the last event: [stage1_complete] comes
    before [stage2_5_start] in that order, and nothing later clears the
    flag. *)
Lemma canonical_order_keeps_stage1_loading
    (evs : list Event) (h : UseConversation.Hook)
    (c : UseConversation.Conversation)
    (earlier : list UseConversation.Message)
    (lastMsg : UseConversation.Message) :
  UseConversation.currentConversation h = Some c →
  UseConversation.messages c = earlier ++ [lastMsg] →
  kind <$> evs `sublist_of` canonical →
  Stage2_5Start ∈ kind <$> evs →
  ∃ h' m', UseConversation.deliverAll evs h = Returns h' ∧
           UseConversation.lastMsgOf (UseConversation.currentConversation h')
             = Some m' ∧
           UseConversation.flag "stage1" m' = Some true.
Proof.
  intros Hc Hm Hsub Hin.
  apply list_elem_of_fmap in Hin as (e & He & Hin).
  apply list_elem_of_split in Hin as (pre & post & ->).
  pose proof (sublist_sorted _ _ _ Hsub canonical_sorted) as Hsorted.
  rewrite fmap_app, fmap_cons in Hsorted.
  apply StronglySorted_app_1_r, StronglySorted_cons in Hsorted as [Hpost _].
  assert (Forall (λ e', kind e' ≠ Stage1Complete) post) as Hlater.
  { apply Forall_forall. intros e' He' Hk.
    rewrite Forall_forall in Hpost.
    specialize (Hpost (kind e')). rewrite <- He, Hk in Hpost.
    unfold earlier_in_order in Hpost. simpl in Hpost.
    assert (5 < 2); [|lia].
    apply Hpost. rewrite <- Hk. apply list_elem_of_fmap. eauto. }
  destruct (UseConversationFacts.deliverAll_last (pre ++ e :: post) h c
              earlier lastMsg Hc Hm) as (h' & Hrun & Hc').
  exists h', (UseConversation.fillIn (pre ++ e :: post) lastMsg).
  split; [done|]. rewrite Hc'.
  split; [apply UseConversationFacts.lastMsgOf_with|].
  unfold UseConversation.fillIn. rewrite foldl_app. simpl.
  apply UseConversationFacts.fillIn_stage1_flag_stays; [done|].
  unfold UseConversation.updateLastMsg. rewrite <- He.
  by rewrite UseConversationFacts.flag_setFlag.
Qed.

(** C1: in every exchange that completes, the stage events that reach
    the consumer, however late it reads and whenever it leaves, form a
    subsequence of the canonical list, so that no two of them are seen
    out of that order; no event of a later stage is seen before the
    completion event of an earlier one, and an event of the next stage is
    seen only after the completion event of the stage before it; and no
    error event is seen.  In the hook, the case of [stage2_5_start] turns
    the stage-1 loading flag on, and once on it stays on under every
    event but [stage1_complete]. *)
Theorem delivered_events_follow_canonical_order
    (x : Exchange) (acts : list Emitter.Action) :
  outcome x = Completed →
  Emitter.emitted acts = produced x →
  stage_events (Emitter.observed acts) `sublist_of` canonical ∧
  StronglySorted earlier_in_order (stage_events (Emitter.observed acts)) ∧
  (¬ overtaken (Emitter.observed acts)) ∧
  barriers_kept (Emitter.observed acts) ∧
  (Error ∉ Emitter.observed acts) ∧
  (∀ m, UseConversation.flag "stage1"
          (UseConversation.updateLastMsg (bare Stage2_5Start)
             (UseConversation.clone m)) = Some true) ∧
  (∀ e m, kind e ≠ Stage1Complete →
          UseConversation.flag "stage1" m = Some true →
          UseConversation.flag "stage1"
            (UseConversation.updateLastMsg e (UseConversation.clone m))
            = Some true).
Proof.
  intros Hdone Hemitted.
  unfold outcome, produced, startExchange in *.
  destruct (run 7 x Idle) as [evs final] eqn:Hrun. simpl in *. subst final.
  assert (stage_events (Emitter.observed acts) `sublist_of` canonical)
    as Hsub.
  { transitivity (stage_events evs); [|by apply (run_ahead 7 x Idle)].
    apply stage_events_sublist. rewrite <- Hemitted.
    apply observed_sublist. }
  split; [done|]. split; [by eapply sublist_sorted, canonical_sorted|].
  split; [by apply in_order_not_overtaken|]. split; [|split; [|split]].
  - apply (observed_barriers _ (stage_events evs)).
    + apply stage_events_prefix. rewrite <- Hemitted. apply observed_prefix.
    + apply courses_barriers. by apply (run_courses 7 x).
  - intros Hin. apply (run_no_error 7 x Idle evs Hrun).
    rewrite <- Hemitted. eapply elem_of_sublist; [done|].
    apply observed_sublist.
  - intros m. unfold UseConversation.updateLastMsg. simpl.
    by rewrite UseConversationFacts.flag_setFlag.
  - intros e m He Hm.
    by apply UseConversationFacts.stage1_flag_stays.
Qed.

Lemma delivered_events_follow_canonical_order_witness :
  stage_events (Emitter.observed slow_consumer) `sublist_of` canonical ∧
  StronglySorted earlier_in_order
    (stage_events (Emitter.observed slow_consumer)) ∧
  (¬ overtaken (Emitter.observed slow_consumer)) ∧
  barriers_kept (Emitter.observed slow_consumer) ∧
  (Error ∉ Emitter.observed slow_consumer) ∧
  (∀ m, UseConversation.flag "stage1"
          (UseConversation.updateLastMsg (bare Stage2_5Start)
             (UseConversation.clone m)) = Some true) ∧
  (∀ e m, kind e ≠ Stage1Complete →
          UseConversation.flag "stage1" m = Some true →
          UseConversation.flag "stage1"
            (UseConversation.updateLastMsg e (UseConversation.clone m))
            = Some true).
Proof.
  apply (delivered_events_follow_canonical_order council_of_three
           slow_consumer); reflexivity.
Defined.

Example council_of_three_events :
  produced council_of_three =
    [ResolvingPersonas; Stage1Start; Stage1Complete; Stage2Start;
     Stage2Complete; Stage2_5Start; Stage3Start; TitleComplete;
     Stage3Complete; Complete] ∧
  Emitter.observed slow_consumer =
    [ResolvingPersonas; Stage1Start; Stage1Complete; Stage2Start;
     Stage2Complete; Stage2_5Start; Stage3Start; TitleComplete].
Proof. split; reflexivity. Qed.

End OrchestratorFacts.

(** ** The anonymizer *)

Module AnonymizerFacts.
Import Js Anonymizer Samples.

(** The draw takes every model once. *)
Lemma draw_Permutation (rnd : nat → nat) (n : nat) (left : list string) :
  n = length left → draw n rnd left ≡ₚ left.
Proof.
  revert left. induction n as [|n IH]; intros left Hn.
  - symmetry in Hn. apply length_zero_iff_nil in Hn. by subst.
  - simpl.
    assert (rnd n `mod` length left < length left) as Hlt
      by (apply Nat.mod_upper_bound; lia).
    destruct (lookup_lt_is_Some_2 _ _ Hlt) as [x Hx]. rewrite Hx.
    etransitivity; [|symmetry; apply (delete_Permutation left _ x Hx)].
    constructor. apply IH. rewrite length_delete by eauto. lia.
Qed.

Lemma assign_Permutation (rnd : nat → nat) (models : list string) :
  assign rnd models ≡ₚ models.
Proof. by apply draw_Permutation. Qed.

(** Hiding a model of the mapping and revealing the label gives the
    model back. *)
Lemma reveal_hide (m : Mapping) (model : string) :
  model ∈ m →
  ∃ l, hide m model = Some l ∧ reveal m l = Returns model.
Proof.
  intros Hin. unfold hide, reveal.
  destruct (list_find_elem_of (λ x, x = model) m model Hin eq_refl)
    as [[i y] Hfind].
  rewrite Hfind. simpl. exists (Lab i). split; [done|].
  apply list_find_Some in Hfind as (Hi & -> & _). simpl. by rewrite Hi.
Qed.

(** In a mapping without repetition, revealing a label and hiding the
    model gives the label back. *)
Lemma hide_reveal (m : Mapping) (l : Label) (model : string) :
  NoDup m → reveal m l = Returns model → hide m model = Some l.
Proof.
  intros Hnd. unfold reveal, hide. destruct l as [i]. simpl.
  destruct (m !! i) as [y|] eqn:Hi; [|done]. intros [= ->].
  destruct (list_find_elem_of (λ x, x = model) m model) as [[j y] Hfind];
    [by eapply list_elem_of_lookup_2|done|].
  rewrite Hfind. simpl.
  apply list_find_Some in Hfind as (Hj & -> & _).
  by rewrite (NoDup_lookup m i j model Hnd Hi Hj).
Qed.

Lemma reveal_unknown (m : Mapping) (l : Label) :
  (∃ e, reveal m l = Throws e) ↔ length m ≤ index_of l.
Proof.
  unfold reveal. rewrite <- lookup_ge_None.
  destruct (m !! index_of l); split; try done; eauto.
  intros [e He]. done.
Qed.

(** An assigned mapping outlives every later call. *)
Lemma calls_Assigned (cs : list Call) (m : Mapping) :
  calls cs (Assigned m) = Assigned m.
Proof. induction cs as [|c cs IH]; [done|]. simpl. by destruct c. Qed.

(** C5: the mapping assigned for an exchange stays the same under every
    later call (it is immutable, and [reveal] and [hide] only read it);
    it names every model of the exchange; for every model [m] of the
    exchange [reveal (hide m)] is [m]; and when the models are distinct
    the mapping is a bijection between the labels in use and the models:
    hiding what a label reveals gives the label back. *)
Theorem mapping_is_bijection (rnd : nat → nat) (models : list string)
    (later : list Call) :
  ∃ mapping,
    calls (CallAssign rnd models :: later) Unassigned = Assigned mapping ∧
    mapping ≡ₚ models ∧
    (∀ m, m ∈ models →
          ∃ l, hide mapping m = Some l ∧ reveal mapping l = Returns m) ∧
    (∀ l, (∃ e, reveal mapping l = Throws e) ↔ length models ≤ index_of l) ∧
    (NoDup models →
     ∀ l m, reveal mapping l = Returns m →
            m ∈ models ∧ hide mapping m = Some l).
Proof.
  exists (assign rnd models).
  pose proof (assign_Permutation rnd models) as Hperm.
  split; [apply calls_Assigned|]. split; [done|]. split; [|split].
  - intros m Hm. apply reveal_hide. by rewrite Hperm.
  - intros l. rewrite reveal_unknown. by rewrite Hperm.
  - intros Hnd l m Hrev. split.
    + rewrite <- Hperm. unfold reveal in Hrev.
      destruct (assign rnd models !! index_of l) as [y|] eqn:Hl; [|done].
      injection Hrev as ->. by eapply list_elem_of_lookup_2.
    + apply hide_reveal; [|done]. by rewrite Hperm.
Qed.

(** A model that was not handed to [assign], such as a seat that failed
    in stage 1, has no label. *)
Lemma hide_unassigned (rnd : nat → nat) (models : list string)
    (model : string) :
  model ∉ models → hide (assign rnd models) model = None.
Proof.
  intros Hni. unfold hide.
  destruct (list_find (λ x, x = model) (assign rnd models))
    as [[i y]|] eqn:Hfind; [|done].
  apply list_find_Some in Hfind as (Hi & -> & _).
  destruct Hni. rewrite <- (assign_Permutation rnd models).
  by eapply list_elem_of_lookup_2.
Qed.

Example mapping_of_three :
  assign spin council_models =
    ["anthropic/claude-3-5-sonnet"; "openai/gpt-4o"; "google/gemini-1.5-pro"] ∧
  hide (assign spin council_models) "openai/gpt-4o" = Some (Lab 1) ∧
  reveal (assign spin council_models) (Lab 1) = Returns "openai/gpt-4o" ∧
  reveal (assign spin council_models) (Lab 3) = Throws "unknown label".
Proof. repeat split. Qed.

End AnonymizerFacts.

(** ** The ranking aggregator *)

Module RankingAggregatorFacts.
Import Anonymizer RankingAggregator Samples.

(** A review that does not rank an answer gives it no position. *)
Lemma position_unranked (a : Label) (r : PeerReview) :
  a ∉ ranking r → position a r = None.
Proof.
  intros Hni. unfold position.
  destruct (list_find (λ l, l = a) (ranking r)) as [[i l]|] eqn:Hfind; [|done].
  apply list_find_Some in Hfind as (Hi & -> & _).
  destruct Hni. by eapply list_elem_of_lookup_2.
Qed.

Lemma position_ranked (a : Label) (r : PeerReview) (p : nat) :
  position a r = Some p → 1 ≤ p ≤ length (ranking r) ∧ ranking r !! (p - 1) = Some a.
Proof.
  unfold position.
  destruct (list_find (λ l, l = a) (ranking r)) as [[i l]|] eqn:Hfind; [|done].
  intros [= <-]. apply list_find_Some in Hfind as (Hi & -> & _). simpl.
  rewrite Nat.sub_0_r. split; [|done].
  apply lookup_lt_Some in Hi. lia.
Qed.

Lemma pos_of_nat_Z (n : nat) : 0 < n → Z.pos (Pos.of_nat n) = Z.of_nat n.
Proof. intros Hn. rewrite <- (Nat2Pos.id n) at 2 by lia. by rewrite positive_nat_Z. Qed.

(** An entry of the aggregate holds the mean of the positions that the
    reviews gave to its answer. *)
Lemma score_mean (reviews : list PeerReview) (a : Label) (e : Entry) :
  score reviews a = Some e →
  answer e = a ∧
  votes e = length (positions a reviews) ∧ 0 < votes e ∧
  abstentions e = length reviews - votes e ∧
  (mean_rank e == inject_Z (Z.of_nat (total (positions a reviews)))
                  / inject_Z (Z.of_nat (votes e)))%Q.
Proof.
  unfold score. destruct (positions a reviews) as [|p ps] eqn:Hps; [done|].
  intros [= <-]. simpl. repeat split; try lia.
  rewrite Qmake_Qdiv. rewrite pos_of_nat_Z by lia. reflexivity.
Qed.

Lemma not_worse_total (e1 e2 : Entry) :
  not_worse e1 e2 = false → not_worse e2 e1 = true.
Proof.
  unfold not_worse. rewrite <- (Qcompare_antisym (mean_rank e1) (mean_rank e2)).
  destruct (mean_rank e1 ?= mean_rank e2)%Q; simpl; try done.
  intros H. apply Nat.leb_gt in H. apply Nat.leb_le. lia.
Qed.

Lemma not_worse_le (e1 e2 : Entry) :
  not_worse e1 e2 = true → (mean_rank e1 <= mean_rank e2)%Q.
Proof.
  unfold not_worse. intros H. apply Qle_alt.
  by destruct (mean_rank e1 ?= mean_rank e2)%Q.
Qed.

Lemma place_HdRel (x e : Entry) (l : list Entry) :
  not_worse x e = true → HdRel (λ a b, not_worse a b = true) x l →
  HdRel (λ a b, not_worse a b = true) x (place e l).
Proof.
  intros Hxe Hl. destruct l as [|y l]; simpl; [by constructor|].
  destruct (not_worse e y); constructor; [done|].
  by apply HdRel_inv in Hl.
Qed.

Lemma place_Sorted (e : Entry) (l : list Entry) :
  Sorted (λ a b, not_worse a b = true) l →
  Sorted (λ a b, not_worse a b = true) (place e l).
Proof.
  induction 1 as [|x l Hl IH Hx]; simpl; [by repeat constructor|].
  destruct (not_worse e x) eqn:Hex.
  - constructor; [by constructor|by constructor].
  - constructor; [done|]. apply place_HdRel; [|done].
    by apply not_worse_total.
Qed.

Lemma order_Sorted (l : list Entry) :
  Sorted (λ a b, not_worse a b = true) (order l).
Proof.
  induction l as [|e l IH]; simpl; [constructor|]. by apply place_Sorted.
Qed.

Lemma place_Permutation (e : Entry) (l : list Entry) : place e l ≡ₚ e :: l.
Proof.
  induction l as [|x l IH]; simpl; [done|].
  destruct (not_worse e x); [done|]. rewrite IH. apply Permutation_swap.
Qed.

Lemma order_Permutation (l : list Entry) : order l ≡ₚ l.
Proof.
  induction l as [|e l IH]; simpl; [done|].
  by rewrite place_Permutation, IH.
Qed.

Lemma position_None (a : Label) (r : PeerReview) :
  position a r = None ↔ a ∉ ranking r.
Proof.
  split; [|apply position_unranked].
  unfold position. intros Hnone Hin.
  destruct (list_find_elem_of (λ l, l = a) (ranking r) a Hin eq_refl)
    as [[i l] Hfind].
  by rewrite Hfind in Hnone.
Qed.

(** An answer has one position for each review that ranked it. *)
Lemma positions_count (a : Label) (reviews : list PeerReview) :
  length (positions a reviews)
    = length (filter (λ r, a ∈ ranking r) reviews).
Proof.
  unfold positions. induction reviews as [|r reviews IH]; [done|].
  rewrite filter_cons. simpl.
  destruct (position a r) as [p|] eqn:Hp.
  - rewrite decide_True; [simpl; f_equal; exact IH|].
    destruct (decide (a ∈ ranking r)) as [|Hni]; [done|].
    apply position_None in Hni. congruence.
  - rewrite decide_False; [exact IH|]. by apply position_None.
Qed.

Lemma score_None (reviews : list PeerReview) (a : Label) :
  score reviews a = None ↔ ¬ Exists (λ r, a ∈ ranking r) reviews.
Proof.
  unfold score.
  pose proof (positions_count a reviews) as Hcount.
  destruct (positions a reviews) as [|p ps]; simpl in Hcount.
  - split; [|done]. intros _ Hex.
    apply Exists_exists in Hex as (r & Hr & Ha).
    assert (r ∈ filter (λ r, a ∈ ranking r) reviews) as Hin.
    { by apply list_elem_of_filter. }
    destruct (filter (λ r, a ∈ ranking r) reviews); [|done].
    by apply elem_of_nil in Hin.
  - split; [done|]. intros Hno. exfalso.
    destruct (filter (λ r, a ∈ ranking r) reviews) as [|r rs] eqn:Hf; [done|].
    assert (r ∈ filter (λ r, a ∈ ranking r) reviews) as Hin.
    { rewrite Hf. apply elem_of_cons. by left. }
    apply list_elem_of_filter in Hin as [Har Hr].
    apply Hno, Exists_exists. by exists r.
Qed.

(** The answers that get an entry are those that some review ranked,
    each once and in the order of the council. *)
Lemma scored_answers (answers : list Label) (reviews : list PeerReview) :
  answer <$> omap (score reviews) answers
    = filter (λ a, Exists (λ r, a ∈ ranking r) reviews) answers.
Proof.
  induction answers as [|a answers IH]; [done|].
  rewrite filter_cons. simpl.
  destruct (score reviews a) as [e|] eqn:He.
  - rewrite decide_True.
    + rewrite fmap_cons. f_equal; [|exact IH].
      by apply score_mean in He as (-> & _).
    + destruct (decide (Exists (λ r, a ∈ ranking r) reviews)) as [|Hno];
        [done|].
      apply score_None in Hno. congruence.
  - rewrite decide_False; [exact IH|]. by apply score_None.
Qed.

(** C4: the aggregate has one entry for each answer that some review
    ranked, and only for those, so that an answer which a reviewer did
    not rank is still scored by the others; every entry carries the mean
    of the positions of its answer over the reviews that ranked it, with
    the number of those reviews as its votes; a review that did not rank
    an answer adds nothing to the positions of that answer, and one that
    ranked it adds the position it gave; the entries come with the lower
    mean first; the reviews [[A,B,C],[B,A,C],[A,B,C]] give the order A,
    B, C with mean ranks 4/3, 5/3 and 3, shown as 1.33, 1.67 and 3.00;
    and in a council of two whose members rank only each other's answer,
    both answers are scored, each with the mean of its one position. *)
Theorem aggregate_by_mean_position
    (answers : list Label) (reviews : list PeerReview) :
  (∀ e, e ∈ aggregate answers reviews →
     answer e ∈ answers ∧
     votes e = length (positions (answer e) reviews) ∧ 0 < votes e ∧
     (mean_rank e ==
        inject_Z (Z.of_nat (total (positions (answer e) reviews)))
          / inject_Z (Z.of_nat (votes e)))%Q) ∧
  (∀ a r, a ∉ ranking r →
     positions a (r :: reviews) = positions a reviews) ∧
  (∀ a r p, position a r = Some p →
     positions a (r :: reviews) = p :: positions a reviews) ∧
  Sorted Qle (mean_rank <$> aggregate answers reviews) ∧
  answer <$> aggregate [A; B; C] three_reviews = [A; B; C] ∧
  Forall2 Qeq (mean_rank <$> aggregate [A; B; C] three_reviews)
              [4 # 3; 5 # 3; 3 # 1]%Q ∧
  (hundredths ∘ mean_rank) <$> aggregate [A; B; C] three_reviews
    = [133; 167; 300]%Z ∧
  (answer <$> aggregate answers reviews)
    ≡ₚ filter (λ a, Exists (λ r, a ∈ ranking r) reviews) answers ∧
  (∀ a, a ∈ answers → (∃ r, r ∈ reviews ∧ a ∈ ranking r) →
        ∃ e, e ∈ aggregate answers reviews ∧ answer e = a ∧
             votes e = length (filter (λ r, a ∈ ranking r) reviews)) ∧
  (∀ a, length (positions a reviews)
          = length (filter (λ r, a ∈ ranking r) reviews)) ∧
  (λ e, (answer e, mean_rank e, votes e))
    <$> aggregate [A; B] peer_only_reviews
    = [(A, (1 # 1)%Q, 1); (B, (1 # 1)%Q, 1)].
Proof.
  split; [|split; [|split; [|split; [|split; [|split; [|split]]]]]].
  - intros e He. unfold aggregate in He.
    rewrite order_Permutation in He.
    apply list_elem_of_omap in He as (a & Ha & Hscore).
    apply score_mean in Hscore as (<- & Hv & Hpos & _ & Hmean). done.
  - intros a r Hni. unfold positions. simpl.
    by rewrite position_unranked.
  - intros a r p Hp. unfold positions. simpl. by rewrite Hp.
  - unfold aggregate.
    eapply Sorted_fmap; [|apply order_Sorted]. apply not_worse_le.
  - reflexivity.
  - repeat constructor.
  - reflexivity.
  - split; [|split; [|split]].
    + unfold aggregate. by rewrite order_Permutation, scored_answers.
    + intros a Ha (r & Hr & Har).
      destruct (score reviews a) as [e|] eqn:He.
      * exists e. split.
        { unfold aggregate. rewrite order_Permutation.
          apply list_elem_of_omap. by exists a. }
        apply score_mean in He as (Hans & Hv & _).
        split; [done|]. by rewrite Hv, positions_count.
      * apply score_None in He. destruct He.
        apply Exists_exists. by exists r.
    + intros a. apply positions_count.
    + reflexivity.
Qed.

(** Each member of a council of two ranks only its peer: every answer
    has exactly one vote. *)
Example peer_only_votes :
  (λ e, (answer e, votes e)) <$> aggregate [A; B] peer_only_reviews
    = [(A, 1); (B, 1)].
Proof. reflexivity. Qed.

End RankingAggregatorFacts.

(** ** The cost estimator *)

Module CostEstimatorFacts.
Import Js CostEstimator ChatInterface Samples.

(** The estimate reads the price table and nothing else of the world. *)
Lemma estimate_reads_prices (tokenCount : string → nat) (query : string)
    (councilMembers : list string) (chairman : string) (w1 w2 : World) :
  price_table w1 = price_table w2 →
  fst (estimateCost tokenCount query councilMembers chairman w1) =
  fst (estimateCost tokenCount query councilMembers chairman w2).
Proof.
  intros Hp. unfold estimateCost. simpl. f_equal.
  f_equal. apply map_ext. intros m. unfold input_cost. by rewrite Hp.
Qed.

Lemma estimate_leaves_world (tokenCount : string → nat) (query : string)
    (councilMembers : list string) (chairman : string) (w : World) :
  snd (estimateCost tokenCount query councilMembers chairman w) = w.
Proof. reflexivity. Qed.

(** C6: [estimateCost] run twice in a row on the same inputs gives the
    same estimate both times and leaves the world as it found it, so the
    list of calls to the model gateway does not grow; its result depends
    on the world through the price table alone, whatever calls were made
    before; and the estimate effect of the chat input, which reaches it
    through the API, sets the same estimate when it fires twice on the
    same input. *)
Theorem estimateCost_is_pure (tokenCount : string → nat) (query : string)
    (councilMembers : list string) (chairman : string) (w : World) :
  (let first := estimateCost tokenCount query councilMembers chairman w in
   let second :=
     estimateCost tokenCount query councilMembers chairman (snd first) in
   fst first = fst second ∧
   snd second = w ∧
   gateway_calls (snd first) = gateway_calls w ∧
   gateway_calls (snd second) = gateway_calls w) ∧
  (∀ w', price_table w' = price_table w →
     fst (estimateCost tokenCount query councilMembers chairman w') =
     fst (estimateCost tokenCount query councilMembers chairman w)) ∧
  (∀ councilOf isLoading conversationId s s',
     let first := estimateEffect tokenCount councilOf query isLoading
                    conversationId s w in
     let second := estimateEffect tokenCount councilOf query isLoading
                     conversationId s' (snd first) in
     estimate (fst first) = estimate (fst second) ∧ snd second = w).
Proof.
  split; [|split].
  - simpl. done.
  - intros w' Hp. by apply estimate_reads_prices.
  - intros councilOf isLoading conversationId s s'. simpl.
    unfold estimateEffect, api_estimateCost.
    destruct (negb (blank query) && negb isLoading && truthy conversationId);
      [|done].
    destruct (councilOf (default "" conversationId)) as [[members chair]|];
      done.
Qed.

Example estimate_of_sample :
  fst (estimateCost quarter_tokens "What is 6 times 7?"
         ["openai/gpt-4o"; "google/gemini-1.5-pro"] "openai/gpt-4o"
         busy_world) =
  fst (estimateCost quarter_tokens "What is 6 times 7?"
         ["openai/gpt-4o"; "google/gemini-1.5-pro"] "openai/gpt-4o"
         fresh_world) ∧
  promptTokens
    (fst (estimateCost quarter_tokens "What is 6 times 7?"
            ["openai/gpt-4o"; "google/gemini-1.5-pro"] "openai/gpt-4o"
            fresh_world)) = 5.
Proof. split; [by apply estimate_reads_prices|reflexivity]. Qed.

End CostEstimatorFacts.

(** * More properties of the front end *)

(** ** Arrays *)

Module ArraysFacts.
Import Arrays.

Lemma filterFrom_ext {A} (p q : A → nat → bool) (k : nat) (a : list A) :
  (∀ x i, k ≤ i → p x i = q x i) → filterFrom k p a = filterFrom k q a.
Proof.
  revert k. induction a as [|x a IH]; intros k Hpq; [done|].
  simpl. rewrite (Hpq x k) by lia.
  rewrite (IH (S k)) by (intros; apply Hpq; lia). done.
Qed.

Lemma filterFrom_all {A} (p : A → nat → bool) (k : nat) (a : list A) :
  (∀ x i, k ≤ i → p x i = true) → filterFrom k p a = a.
Proof.
  revert k. induction a as [|x a IH]; intros k Hp; [done|].
  simpl. rewrite Hp by lia. f_equal. apply IH. intros. apply Hp. lia.
Qed.

Lemma filterFrom_remove {A} (k n : nat) (a : list A) :
  filterFrom k (λ _ i, negb (i =? k + n)) a = delete n a.
Proof.
  revert k n. induction a as [|x a IH]; intros k n; [done|].
  simpl. destruct n as [|n].
  - rewrite Nat.add_0_r, Nat.eqb_refl. simpl.
    apply filterFrom_all. intros _ i Hi.
    apply negb_true_iff, Nat.eqb_neq. lia.
  - replace (k =? k + S n) with false
      by (symmetry; apply Nat.eqb_neq; lia).
    simpl. f_equal. rewrite <- (IH (S k) n).
    apply filterFrom_ext. intros _ i _. by rewrite Nat.add_succ_r.
Qed.

(** Filtering on the index removes the element at that index, and
    nothing else. *)
Lemma removeAt_delete {A} (index : nat) (a : list A) :
  removeAt index a = delete index a.
Proof. apply (filterFrom_remove 0 index a). Qed.

Lemma insertBy_Permutation {A} (cmp : A → A → Z) (x : A) (l : list A) :
  insertBy cmp x l ≡ₚ x :: l.
Proof.
  induction l as [|y l IH]; simpl; [done|].
  destruct (cmp x y <=? 0)%Z; [done|]. rewrite IH. apply Permutation_swap.
Qed.

(** Sorting keeps the elements. *)
Lemma sort_Permutation {A} (cmp : A → A → Z) (a : list A) :
  sort cmp a ≡ₚ a.
Proof.
  induction a as [|x a IH]; simpl; [done|].
  unfold sort in *. simpl. by rewrite insertBy_Permutation, IH.
Qed.

Lemma insertBy_HdRel {A} (cmp : A → A → Z) (x y : A) (l : list A) :
  (cmp y x <= 0)%Z → HdRel (λ a b, (cmp a b <= 0)%Z) y l →
  HdRel (λ a b, (cmp a b <= 0)%Z) y (insertBy cmp x l).
Proof.
  intros Hyx Hl. destruct l as [|z l]; simpl; [by constructor|].
  destruct (cmp x z <=? 0)%Z; constructor; [done|].
  by apply HdRel_inv in Hl.
Qed.

(** With a comparator that never puts two elements after each other,
    the result is in order: no element comes after its successor. *)
Lemma sort_Sorted {A} (cmp : A → A → Z) (a : list A) :
  (∀ x y, (0 < cmp x y)%Z → (cmp y x <= 0)%Z) →
  Sorted (λ x y, (cmp x y <= 0)%Z) (sort cmp a).
Proof.
  intros Htotal. induction a as [|x a IH]; [constructor|].
  unfold sort in *. simpl. revert IH.
  generalize (foldr (insertBy cmp) [] a). clear a.
  induction 1 as [|y l Hl IH Hy]; simpl; [by repeat constructor|].
  destruct (cmp x y <=? 0)%Z eqn:Hxy.
  - apply Z.leb_le in Hxy. constructor; [by constructor|by constructor].
  - apply Z.leb_gt in Hxy. constructor; [done|].
    apply insertBy_HdRel; [|done]. by apply Htotal.
Qed.

(** A comparator that only tells two classes apart puts the first class
    in front and keeps the order within each class. *)
Lemma sort_two_classes {A} (first : A → bool) (a : list A) :
  sort (λ x y, if first x && negb (first y) then (-1)%Z
               else if negb (first x) && first y then 1%Z else 0%Z) a
  = filter (λ x, first x = true) a ++ filter (λ x, first x = false) a.
Proof.
  induction a as [|x a IH]; [done|].
  unfold sort in *. simpl. rewrite IH. clear IH.
  rewrite !filter_cons. destruct (first x) eqn:Hx.
  - rewrite decide_True, decide_False by done.
    rewrite <- app_comm_cons.
    destruct (filter (λ x0, first x0 = true) a ++ _) as [|y l]; [done|].
    simpl. rewrite Hx. by destruct (first y).
  - rewrite decide_False, decide_True by done.
    assert (∀ l, Forall (λ y, first y = true) l →
              ∀ k, insertBy
                (λ x0 y, if first x0 && negb (first y) then (-1)%Z
                         else if negb (first x0) && first y then 1%Z
                         else 0%Z) x (l ++ k)
              = l ++ insertBy
                (λ x0 y, if first x0 && negb (first y) then (-1)%Z
                         else if negb (first x0) && first y then 1%Z
                         else 0%Z) x k) as Hskip.
    { induction 1 as [|y l Hy _ IHl]; intros k; [done|].
      simpl. rewrite Hx, Hy. simpl. by rewrite IHl. }
    rewrite Hskip by (apply Forall_forall; intros y Hy;
                      by apply list_elem_of_filter in Hy as [? _]).
    f_equal.
    destruct (filter (λ x0, first x0 = false) a) as [|y l] eqn:Hl; [done|].
    assert (first y = false) as Hy.
    { assert (y ∈ filter (λ x0, first x0 = false) a) as Hin
        by (rewrite Hl; left).
      by apply list_elem_of_filter in Hin as [? _]. }
    simpl. by rewrite Hx, Hy.
Qed.

End ArraysFacts.

(** ** The presets *)

Module PresetsFacts.
Import Js Presets Samples MoreSamples.

Lemma loadPresets_in_step (s : State) : in_step (loadPresets s).
Proof. unfold in_step, loadPresets. by destruct (storedPresets s). Qed.

Lemma act_in_step (a : Action) (s : State) : in_step s → in_step (act a s).
Proof.
  unfold in_step. intros Hs. destruct a as [text| |index|index|]; simpl.
  - done.
  - unfold handleSavePreset.
    by destruct (ChatInterface.blank (newPresetName s)).
  - done.
  - by destruct (presets s !! index).
  - apply loadPresets_in_step.
Qed.

(** X1: whatever is done with the presets after the dialog has loaded them
    (names typed, presets saved, deleted or applied, the dialog opened
    again), local storage holds exactly the list on screen, and opening
    the dialog once more shows that same list: a deleted preset does not
    come back, and with every preset deleted the defaults do not either. *)
Theorem presets_follow_storage (acts : list Action) (s : State) :
  storedPresets (run acts (loadPresets s))
    = Some (presets (run acts (loadPresets s))) ∧
  presets (loadPresets (run acts (loadPresets s)))
    = presets (run acts (loadPresets s)).
Proof.
  assert (in_step (run acts (loadPresets s))) as Hin.
  { unfold run. generalize (loadPresets_in_step s).
    generalize (loadPresets s). clear s.
    induction acts as [|a acts IH]; intros s Hs; [done|].
    simpl. apply IH. by apply act_in_step. }
  split; [done|]. unfold loadPresets. by rewrite Hin.
Qed.

(** X2: a preset saved under a name that is not blank is the last of the
    list and carries the name as typed; applying it to any later state of
    the dialog brings back the council and the chairman selected when it
    was saved, and touches nothing else of the selection; deleting it
    again gives back the list of presets from before. *)
Theorem saved_preset_round_trip (s : State) :
  ChatInterface.blank (newPresetName s) = false →
  ∃ p, presets (handleSavePreset s) = presets s ++ [p] ∧
       name p = newPresetName s ∧
       newPresetName (handleSavePreset s) = "" ∧
       (∀ later,
          let applied := selection (handleApplyPreset p later) in
          Settings.councilModels applied
            = Settings.councilModels (selection s) ∧
          Settings.chairmanModel applied
            = Settings.chairmanModel (selection s) ∧
          Settings.modelPersonas applied
            = Settings.modelPersonas (selection later) ∧
          Settings.error applied = Settings.error (selection later)) ∧
       presets (handleDeletePreset (length (presets s)) (handleSavePreset s))
         = presets s.
Proof.
  intros Hname. unfold handleSavePreset. rewrite Hname. simpl.
  eexists. split; [reflexivity|]. split; [reflexivity|].
  split; [reflexivity|]. split; [done|].
  rewrite ArraysFacts.removeAt_delete.
  rewrite delete_middle. by rewrite app_nil_r.
Qed.

Lemma saved_preset_round_trip_witness :
  ∃ p, presets (handleSavePreset naming_preset)
         = presets naming_preset ++ [p] ∧
       name p = newPresetName naming_preset ∧
       newPresetName (handleSavePreset naming_preset) = "" ∧
       (∀ later,
          let applied := selection (handleApplyPreset p later) in
          Settings.councilModels applied
            = Settings.councilModels (selection naming_preset) ∧
          Settings.chairmanModel applied
            = Settings.chairmanModel (selection naming_preset) ∧
          Settings.modelPersonas applied
            = Settings.modelPersonas (selection later) ∧
          Settings.error applied = Settings.error (selection later)) ∧
       presets (handleDeletePreset (length (presets naming_preset))
                  (handleSavePreset naming_preset))
         = presets naming_preset.
Proof. apply (saved_preset_round_trip naming_preset). reflexivity. Defined.

(** A blank name saves nothing. *)
Lemma blank_name_saves_nothing (s : State) :
  ChatInterface.blank (newPresetName s) = true → handleSavePreset s = s.
Proof. intros Hname. unfold handleSavePreset. by rewrite Hname. Qed.

(** X3: deleting a preset, like removing an attachment, takes away the
    entry at the index and keeps the others in their order; an index past
    the end takes nothing away. *)
Theorem delete_takes_one_entry (index : nat) (s : State)
    (f : ChatForm.State) :
  presets (handleDeletePreset index s) = delete index (presets s) ∧
  ChatForm.attachments (ChatForm.removeAttachment index f)
    = delete index (ChatForm.attachments f) ∧
  (∀ j, j < index →
     presets (handleDeletePreset index s) !! j = presets s !! j) ∧
  (∀ j, index ≤ j →
     presets (handleDeletePreset index s) !! j = presets s !! S j) ∧
  (length (presets s) ≤ index →
     presets (handleDeletePreset index s) = presets s) ∧
  (index < length (presets s) →
     S (length (presets (handleDeletePreset index s)))
       = length (presets s)).
Proof.
  unfold handleDeletePreset, ChatForm.removeAttachment. simpl.
  rewrite !ArraysFacts.removeAt_delete.
  split; [done|]. split; [done|]. split; [|split; [|split]].
  - intros j Hj. by apply list_lookup_delete_lt.
  - intros j Hj. by apply list_lookup_delete_ge.
  - intros Hlen. rewrite delete_take_drop.
    rewrite take_ge, drop_ge by lia. by rewrite app_nil_r.
  - intros Hlt. rewrite length_delete by (by apply lookup_lt_is_Some_2). lia.
Qed.

End PresetsFacts.

(** ** The model grid and the chairman select *)

Module ModelListsFacts.
Import Js Arrays ModelLists Samples MoreSamples.

Lemma prefix_empty (s : string) : String.prefix "" s = true.
Proof. by destruct s. Qed.

(** Every string includes the empty string. *)
Lemma contains_empty (s : string) : contains s "" = true.
Proof. destruct s; simpl; by rewrite ?prefix_empty. Qed.

Lemma filter_all {A} (P : A → Prop) `{∀ x, Decision (P x)} (l : list A) :
  Forall P l → filter P l = l.
Proof.
  induction 1 as [|x l Hx _ IH]; [done|].
  by rewrite filter_cons_True, IH.
Qed.

Lemma Sorted_weaken {A} (R1 R2 : relation A) (l : list A) :
  (∀ x y, R1 x y → R2 x y) → Sorted R1 l → Sorted R2 l.
Proof.
  intros HR Hl. rewrite <- (list_fmap_id l).
  by apply (Sorted_fmap _ R1 R2).
Qed.

(** X4: the grid shows the models that match the search, those of the
    council first, and within the council and outside of it in the order
    of the list of available models; with an empty search it shows every
    available model. *)
Theorem grid_shows_selected_first (toLowerCase : string → string)
    (availableModels : list Model) (modelSearch : string)
    (councilModels : list string) :
  gridModels toLowerCase availableModels modelSearch councilModels
    = filter (λ m, includes councilModels (id m) = true)
        (filter (λ m, matches toLowerCase modelSearch m = true)
           availableModels)
      ++ filter (λ m, includes councilModels (id m) = false)
           (filter (λ m, matches toLowerCase modelSearch m = true)
              availableModels) ∧
  (∀ m, m ∈ gridModels toLowerCase availableModels modelSearch councilModels
        ↔ m ∈ availableModels ∧ matches toLowerCase modelSearch m = true) ∧
  (toLowerCase "" = "" →
   gridModels toLowerCase availableModels "" councilModels
     ≡ₚ availableModels).
Proof.
  unfold gridModels, selectedFirst.
  split; [|split].
  - apply (ArraysFacts.sort_two_classes
             (λ m, includes councilModels (id m))).
  - intros m. rewrite ArraysFacts.sort_Permutation.
    rewrite list_elem_of_filter. tauto.
  - intros Hempty. rewrite ArraysFacts.sort_Permutation.
    rewrite filter_all; [done|].
    apply Forall_forall. intros m _. unfold matches.
    by rewrite Hempty, contains_empty.
Qed.

Lemma byProviderThenName_total (a b : Model) :
  (0 < byProviderThenName a b)%Z → (byProviderThenName b a <= 0)%Z.
Proof.
  unfold byProviderThenName.
  destruct (String.ltb (provider a) (provider b)),
           (String.ltb (provider b) (provider a)),
           (String.ltb (name a) (name b)),
           (String.ltb (name b) (name a)); lia.
Qed.

Lemma not_ltb_eq (a b : string) :
  String.ltb a b = false → String.ltb b a = false → a = b.
Proof.
  unfold String.ltb. intros Hab Hba. apply String.compare_eq_iff.
  rewrite (String.compare_antisym b a) in Hba.
  by destruct (String.compare a b).
Qed.

Lemma byProviderThenName_order (a b : Model) :
  (byProviderThenName a b <= 0)%Z → in_select_order a b.
Proof.
  unfold byProviderThenName, in_select_order.
  destruct (String.ltb (provider a) (provider b)) eqn:Hab; [by left|].
  destruct (String.ltb (provider b) (provider a)) eqn:Hba; [lia|].
  intros Hn. right. split; [by apply not_ltb_eq|].
  destruct (String.ltb (name a) (name b)) eqn:Hnab; [by left|].
  destruct (String.ltb (name b) (name a)) eqn:Hnba; [lia|].
  right. by apply not_ltb_eq.
Qed.

(** X5: the chairman select lists the available models that match the
    search, and the selected chairman whether it matches or not; it lists
    them by provider and then by name. *)
Theorem chairman_select_keeps_selected (toLowerCase : string → string)
    (availableModels : list Model) (modelSearch : string)
    (chairmanModel : option string) :
  (∀ m, m ∈ availableModels → chairmanModel = Some (id m) →
        m ∈ chairmanOptions toLowerCase availableModels modelSearch
              chairmanModel) ∧
  (∀ m, m ∈ chairmanOptions toLowerCase availableModels modelSearch
              chairmanModel
        ↔ m ∈ availableModels ∧
          (matches toLowerCase modelSearch m = true ∨
           chairmanModel = Some (id m))) ∧
  Sorted in_select_order
    (chairmanOptions toLowerCase availableModels modelSearch chairmanModel).
Proof.
  assert (∀ m, m ∈ chairmanOptions toLowerCase availableModels modelSearch
                 chairmanModel
               ↔ m ∈ availableModels ∧
                 (matches toLowerCase modelSearch m = true ∨
                  chairmanModel = Some (id m))) as Hin.
  { intros m. unfold chairmanOptions.
    rewrite ArraysFacts.sort_Permutation, list_elem_of_filter.
    rewrite orb_true_iff, bool_decide_eq_true. tauto. }
  split; [|split; [done|]].
  - intros m Hm Hsel. apply Hin. auto.
  - unfold chairmanOptions.
    eapply Sorted_weaken; [apply byProviderThenName_order|].
    apply ArraysFacts.sort_Sorted, byProviderThenName_total.
Qed.

Example grid_of_three :
  gridModels lowerCase [gpt4o; sonnet; gemini] "O"
    ["google/gemini-1.5-pro"] = [gemini; gpt4o; sonnet] ∧
  chairmanOptions lowerCase [gpt4o; sonnet; gemini] "gpt"
    (Some "google/gemini-1.5-pro") = [gemini; gpt4o].
Proof. split; reflexivity. Qed.

End ModelListsFacts.

(** ** The stored configuration and the theme *)

Module AppFacts.
Import Js App Samples MoreSamples.

(** X6: a configuration saved in the settings dialog comes back after a
    restart: when the back end has fallen back to its default and the
    application mounts again, it sends the saved configuration and the
    back end holds the saved council and chairman again.  After a
    confirmed reset nothing is sent on the next start and the back end
    keeps its default. *)
Theorem saved_config_survives_restart (s : Settings.State)
    (w : Settings.World) (fallback : Settings.Config) :
  Settings.councilModels s ≠ [] →
  truthy (Settings.chairmanModel s) = true →
  Settings.backend_config
    (loadConfigFromStorage Settings.Resolved
       (restarted fallback
          (snd (Settings.handleSave false Settings.Resolved s w))))
    = {| Settings.cfg_council := Settings.councilModels s;
         Settings.cfg_chairman := default "" (Settings.chairmanModel s) |} ∧
  Settings.requests
    (loadConfigFromStorage Settings.Resolved
       (restarted fallback
          (snd (Settings.handleSave false Settings.Resolved s w))))
    = Settings.requests
        (snd (Settings.handleSave false Settings.Resolved s w))
        ++ [Settings.UpdateConfig
              {| Settings.cfg_council := Settings.councilModels s;
                 Settings.cfg_chairman :=
                   default "" (Settings.chairmanModel s) |}] ∧
  loadConfigFromStorage Settings.Resolved
    (restarted fallback
       (handleReset true
          (snd (Settings.handleSave false Settings.Resolved s w))))
    = restarted fallback
        (handleReset true
           (snd (Settings.handleSave false Settings.Resolved s w))) ∧
  Settings.backend_config
    (restarted fallback
       (handleReset true
          (snd (Settings.handleSave false Settings.Resolved s w))))
    = fallback.
Proof.
  intros Hc Hch. unfold Settings.handleSave.
  destruct (Settings.councilModels s) as [|m ms] eqn:Hcouncil; [done|].
  simpl. rewrite Hch. simpl.
  unfold loadConfigFromStorage, restarted, handleReset. simpl.
  rewrite lookup_insert_eq, lookup_delete_eq. done.
Qed.

Lemma saved_config_survives_restart_witness :
  Settings.backend_config
    (loadConfigFromStorage Settings.Resolved
       (restarted factory_config
          (snd (Settings.handleSave false Settings.Resolved
                  two_selected quiet_world))))
    = {| Settings.cfg_council := Settings.councilModels two_selected;
         Settings.cfg_chairman :=
           default "" (Settings.chairmanModel two_selected) |} ∧
  Settings.requests
    (loadConfigFromStorage Settings.Resolved
       (restarted factory_config
          (snd (Settings.handleSave false Settings.Resolved
                  two_selected quiet_world))))
    = Settings.requests
        (snd (Settings.handleSave false Settings.Resolved
                two_selected quiet_world))
        ++ [Settings.UpdateConfig
              {| Settings.cfg_council := Settings.councilModels two_selected;
                 Settings.cfg_chairman :=
                   default "" (Settings.chairmanModel two_selected) |}] ∧
  loadConfigFromStorage Settings.Resolved
    (restarted factory_config
       (handleReset true
          (snd (Settings.handleSave false Settings.Resolved
                  two_selected quiet_world))))
    = restarted factory_config
        (handleReset true
           (snd (Settings.handleSave false Settings.Resolved
                   two_selected quiet_world))) ∧
  Settings.backend_config
    (restarted factory_config
       (handleReset true
          (snd (Settings.handleSave false Settings.Resolved
                  two_selected quiet_world))))
    = factory_config.
Proof.
  apply (saved_config_survives_restart two_selected quiet_world
           factory_config); [discriminate|reflexivity].
Defined.

(** X7: the theme that an effect has applied is the theme both components
    start with the next time, whichever of the two effects applied it. *)
Theorem theme_survives_reload (isDarkMode : bool) (t : ThemeStore) :
  initialDarkMode (applyTheme isDarkMode t) = isDarkMode ∧
  settingsInitialDarkMode (applyTheme isDarkMode t) = isDarkMode ∧
  initialDarkMode (settingsApplyTheme isDarkMode t) = isDarkMode ∧
  settingsInitialDarkMode (settingsApplyTheme isDarkMode t) = isDarkMode.
Proof. by destruct isDarkMode. Qed.

End AppFacts.

(** ** The form of the chat *)

Module ChatFormFacts.
Import Js ChatForm Samples MoreSamples.

Lemma readFiles_spec (files : list File) (acc : list Attachment)
    (alerts : list string) :
  fst (readFiles files acc alerts)
    = acc ++ (attach <$> filter (λ f, (size f <= maxSize)%N) files) ∧
  length (snd (readFiles files acc alerts))
    = length alerts + length (filter (λ f, (maxSize < size f)%N) files).
Proof.
  revert acc alerts. induction files as [|f files IH]; intros acc alerts.
  - simpl. by rewrite app_nil_r, Nat.add_0_r.
  - simpl. rewrite !filter_cons.
    destruct (maxSize <? size f)%N eqn:Hbig.
    + apply N.ltb_lt in Hbig.
      rewrite decide_False, decide_True by lia.
      destruct (IH acc (alerts ++ ["File " +:+ file_name f
                                   +:+ " is too large (max 5MB)"]))
        as [-> ->].
      split; [done|]. rewrite length_app. simpl. lia.
    + apply N.ltb_ge in Hbig.
      rewrite decide_True, decide_False by lia.
      change {| name := file_name f; type := file_type f;
                content := text f |} with (attach f).
      destruct (IH (acc ++ [attach f]) alerts) as [-> ->].
      split; [|done]. by rewrite <- (assoc_L (++)).
Qed.

(** X8: picking files keeps the attachments already there and adds, in the
    order picked, the files of at most 5 MB (1024 * 1024 * 5 bytes, that
    size included), each with its name, type and text; every larger file
    raises one alert and is not attached. *)
Theorem file_select_skips_large_files (files : list File) (s : State) :
  attachments (handleFileSelect files s)
    = attachments s ++ (attach <$> filter (λ f, (size f <= maxSize)%N) files) ∧
  length (alerts (handleFileSelect files s))
    = length (alerts s) + length (filter (λ f, (maxSize < size f)%N) files) ∧
  length (attachments (handleFileSelect files s))
    + length (alerts (handleFileSelect files s))
    = length (attachments s) + length (alerts s) + length files ∧
  input (handleFileSelect files s) = input s.
Proof.
  unfold handleFileSelect.
  pose proof (readFiles_spec files [] []) as [Hnew Hraised].
  destruct (readFiles files [] []) as [newAttachments raised].
  simpl in *. subst newAttachments.
  split; [done|]. split; [by rewrite length_app, Hraised|].
  split; [|done].
  rewrite !length_app, length_fmap, Hraised.
  assert (length (filter (λ f, (size f <= maxSize)%N) files)
          + length (filter (λ f, (maxSize < size f)%N) files) = length files)
    as <-; [|lia].
  clear. induction files as [|f files IH]; [done|].
  rewrite !filter_cons.
  destruct (decide (size f <= maxSize)%N), (decide (maxSize < size f)%N);
    simpl; lia.
Qed.

Example pick_two_files :
  attachments (handleFileSelect [big_dump; small_note] typed_form)
    = [attach small_note] ∧
  alerts (handleFileSelect [big_dump; small_note] typed_form)
    = ["File dump.log is too large (max 5MB)"].
Proof. split; reflexivity. Qed.

Lemma ready_to_send (s : State) :
  negb (ChatInterface.blank (input s)) || (0 <? length (attachments s))
    = true
  ↔ ChatInterface.blank (input s) = false ∨ attachments s ≠ [].
Proof.
  rewrite orb_true_iff, negb_true_iff, Nat.ltb_lt.
  destruct (attachments s); simpl; split; intros [?|?]; auto; try lia; done.
Qed.

(** X9: the form sends exactly when it is not loading and there is an input
    that is not blank or an attachment; what it sends is the input as
    typed with the attachments, and it leaves the form empty, so that a
    second submit right after it sends nothing; while loading, and with
    Shift held, nothing is sent and the form is left as it is. *)
Theorem submit_sends_once (isLoading : bool) (s : State) :
  (snd (handleSubmit isLoading s) ≠ None ↔
     isLoading = false ∧
     (ChatInterface.blank (input s) = false ∨ attachments s ≠ [])) ∧
  (∀ call, snd (handleSubmit isLoading s) = Some call →
     sent_input call = input s ∧
     sent_attachments call = attachments s ∧
     input (fst (handleSubmit isLoading s)) = "" ∧
     attachments (fst (handleSubmit isLoading s)) = [] ∧
     estimate (fst (handleSubmit isLoading s)) = None ∧
     ∀ again, handleSubmit again (fst (handleSubmit isLoading s))
              = (fst (handleSubmit isLoading s), None)) ∧
  (snd (handleSubmit isLoading s) = None →
     fst (handleSubmit isLoading s) = s) ∧
  (∀ key, handleKeyDown key true isLoading s = (s, None)) ∧
  handleKeyDown "Enter" false isLoading s = handleSubmit isLoading s.
Proof.
  pose proof (ready_to_send s) as Hready.
  unfold handleSubmit.
  destruct (negb (ChatInterface.blank (input s))
            || (0 <? length (attachments s))) eqn:Hr;
    destruct isLoading; simpl.
  - split; [split; [done|by intros [? _]]|].
    split; [done|]. split; [done|].
    split; [intros key; unfold handleKeyDown; by rewrite andb_false_r|].
    unfold handleKeyDown, handleSubmit. simpl. by rewrite Hr.
  - split; [split; [intros _; split; [done|by apply Hready]|done]|].
    split; [intros call [= <-]; simpl; repeat split; by intros []|].
    split; [done|].
    split; [intros key; unfold handleKeyDown; by rewrite andb_false_r|].
    unfold handleKeyDown, handleSubmit. simpl. by rewrite Hr.
  - split; [split; [done|by intros [? _]]|].
    split; [done|]. split; [done|].
    split; [intros key; unfold handleKeyDown; by rewrite andb_false_r|].
    unfold handleKeyDown, handleSubmit. simpl. by rewrite Hr.
  - split; [split; [done|]|].
    { intros [_ H]. apply Hready in H. done. }
    split; [done|]. split; [done|].
    split; [intros key; unfold handleKeyDown; by rewrite andb_false_r|].
    unfold handleKeyDown, handleSubmit. simpl. by rewrite Hr.
Qed.

(** An input of no-break spaces is trimmed to nothing: it is not sent,
    and it names no preset. *)
Example no_break_space_is_blank :
  ChatInterface.blank (String (ascii_of_nat 160) " ") = true ∧
  handleSubmit false
    {| input := String (ascii_of_nat 160) " "; attachments := [];
       estimate := None; alerts := [] |}
    = ({| input := String (ascii_of_nat 160) " "; attachments := [];
          estimate := None; alerts := [] |}, None).
Proof. split; reflexivity. Qed.

End ChatFormFacts.

(** ** The list of conversations *)

Module ConversationsFacts.
Import Js UseConversation Conversations MoreSamples.

Lemma filter_other_ids (target : string) (l : list Summary) :
  (∀ c, c ∈ l → Conversations.id c ≠ target) →
  filter (λ c, Conversations.id c ≠ target) l = l.
Proof.
  intros Hfresh. apply ModelListsFacts.filter_all, Forall_forall, Hfresh.
Qed.

(** X10: a conversation that is created and then deleted leaves the list
    as it was, provided its id is new: after the creation it is the
    first entry, with no message, and it is selected; after its
    deletion, asked for in that state, the list is the earlier one and
    nothing is selected or loaded. *)
Theorem create_then_delete_round_trip (newConv : Created) (s : State) :
  (∀ c, c ∈ conversations s → Conversations.id c ≠ new_id newConv) →
  conversations (fst (createConversation (Fulfilled newConv) s)) =
    {| Conversations.id := new_id newConv;
       Conversations.created_at := new_created_at newConv;
       Conversations.title := None; message_count := 0 |}
      :: conversations s ∧
  currentConversationId (hook (fst (createConversation (Fulfilled newConv) s)))
    = Some (new_id newConv) ∧
  isLoading (hook (fst (createConversation (Fulfilled newConv) s))) = false ∧
  snd (createConversation (Fulfilled newConv) s) = None ∧
  conversations
    (deleteConversation (new_id newConv)
       (currentConversationId
          (hook (fst (createConversation (Fulfilled newConv) s))))
       (Fulfilled ())
       (fst (createConversation (Fulfilled newConv) s))) = conversations s ∧
  currentConversationId
    (hook (deleteConversation (new_id newConv)
             (currentConversationId
                (hook (fst (createConversation (Fulfilled newConv) s))))
             (Fulfilled ())
             (fst (createConversation (Fulfilled newConv) s)))) = None ∧
  currentConversation
    (hook (deleteConversation (new_id newConv)
             (currentConversationId
                (hook (fst (createConversation (Fulfilled newConv) s))))
             (Fulfilled ())
             (fst (createConversation (Fulfilled newConv) s)))) = None.
Proof.
  intros Hfresh. simpl.
  rewrite bool_decide_eq_true_2 by done. simpl.
  rewrite filter_cons_False by (simpl; intros H; by apply H).
  rewrite filter_other_ids by done. done.
Qed.

Lemma create_then_delete_round_trip_witness :
  conversations (fst (createConversation (Fulfilled created_c2) ready_state)) =
    {| Conversations.id := "c2"; Conversations.created_at := "2025-01-03";
       Conversations.title := None; message_count := 0 |}
      :: sidebar_entries ∧
  currentConversationId
    (hook (fst (createConversation (Fulfilled created_c2) ready_state)))
    = Some "c2" ∧
  isLoading (hook (fst (createConversation (Fulfilled created_c2) ready_state)))
    = false ∧
  snd (createConversation (Fulfilled created_c2) ready_state) = None ∧
  conversations
    (deleteConversation "c2"
       (currentConversationId
          (hook (fst (createConversation (Fulfilled created_c2) ready_state))))
       (Fulfilled ())
       (fst (createConversation (Fulfilled created_c2) ready_state)))
    = sidebar_entries ∧
  currentConversationId
    (hook (deleteConversation "c2"
             (currentConversationId
                (hook (fst (createConversation (Fulfilled created_c2)
                              ready_state))))
             (Fulfilled ())
             (fst (createConversation (Fulfilled created_c2) ready_state))))
    = None ∧
  currentConversation
    (hook (deleteConversation "c2"
             (currentConversationId
                (hook (fst (createConversation (Fulfilled created_c2)
                              ready_state))))
             (Fulfilled ())
             (fst (createConversation (Fulfilled created_c2) ready_state))))
    = None.
Proof.
  apply (create_then_delete_round_trip created_c2 ready_state).
  intros c Hc. simpl in Hc. unfold sidebar_entries in Hc.
  rewrite !elem_of_cons, elem_of_nil in Hc.
  destruct Hc as [-> | [-> | []]]; simpl; discriminate.
Defined.

(** X11: the selection stays within the list as long as a deletion
    settles in the state it was asked for in: when the selected id is
    that of a listed conversation, it still is after a creation, a click
    on a listed conversation, the load that follows a change of
    selection, and a deletion whose handler saw the selection that is
    current when it settles, however the calls to the back end end.  A
    deletion compares its target with the selection its handler saw: if
    the target was selected only after the deletion was asked for, it is
    taken off the list and stays selected. *)
Theorem selection_stays_listed (s : State) :
  selection_listed s →
  (∀ target reply,
     selection_listed
       (deleteConversation target (currentConversationId (hook s)) reply s)) ∧
  (∀ reply, selection_listed (fst (createConversation reply s))) ∧
  (∀ c, c ∈ conversations s →
        selection_listed (selectConversation (Some (Conversations.id c)) s)) ∧
  (∀ reply, selection_listed (loadSelected reply s)) ∧
  (∀ target selectedAtCall,
     selectedAtCall ≠ Some target →
     currentConversationId (hook s) = Some target →
     currentConversationId
       (hook (deleteConversation target selectedAtCall (Fulfilled ()) s))
       = Some target ∧
     (∀ c, c ∈ conversations
                 (deleteConversation target selectedAtCall (Fulfilled ()) s) →
           Conversations.id c ≠ target) ∧
     ¬ selection_listed
         (deleteConversation target selectedAtCall (Fulfilled ()) s)).
Proof.
  intros Hs. split; [|split; [|split; [|split]]].
  - intros target [[]|message] i; simpl.
    + case_bool_decide as Hsel; simpl; [done|].
      intros Hi. destruct (Hs i Hi) as (c & Hc & Hid).
      exists c. split; [|done].
      apply list_elem_of_filter. split; [|done].
      intros Heq. apply Hsel. congruence.
    + apply Hs.
  - intros [newConv|message] i; simpl.
    + intros [= <-]. eexists. split; [apply elem_of_cons; by left|done].
    + apply Hs.
  - intros c Hc i; simpl. intros [= <-]. by exists c.
  - intros reply i. unfold loadSelected.
    destruct (truthy _); [destruct reply|]; simpl; apply Hs.
  - intros target selectedAtCall Hstale Hnow. simpl.
    rewrite bool_decide_eq_false_2 by done. simpl.
    assert (∀ c, c ∈ filter (λ c, Conversations.id c ≠ target)
                       (conversations s) →
                 Conversations.id c ≠ target) as Hgone.
    { intros c Hc. by apply list_elem_of_filter in Hc as [? _]. }
    split; [done|]. split; [done|].
    intros Hlisted. destruct (Hlisted target Hnow) as (c & Hc & Hid).
    simpl in Hc. by apply Hgone in Hc.
Qed.

Lemma selection_stays_listed_witness :
  (∀ target reply,
     selection_listed
       (deleteConversation target (currentConversationId (hook ready_state))
          reply ready_state)) ∧
  (∀ reply, selection_listed (fst (createConversation reply ready_state))) ∧
  (∀ c, c ∈ conversations ready_state →
        selection_listed
          (selectConversation (Some (Conversations.id c)) ready_state)) ∧
  (∀ reply, selection_listed (loadSelected reply ready_state)) ∧
  (∀ target selectedAtCall,
     selectedAtCall ≠ Some target →
     currentConversationId (hook ready_state) = Some target →
     currentConversationId
       (hook (deleteConversation target selectedAtCall (Fulfilled ())
                ready_state))
       = Some target ∧
     (∀ c, c ∈ conversations
                 (deleteConversation target selectedAtCall (Fulfilled ())
                    ready_state) →
           Conversations.id c ≠ target) ∧
     ¬ selection_listed
         (deleteConversation target selectedAtCall (Fulfilled ())
            ready_state)).
Proof.
  apply (selection_stays_listed ready_state).
  intros i. simpl. intros [= <-].
  eexists. split; [apply elem_of_cons; left; reflexivity|reflexivity].
Defined.

(** The run the invariant leaves out: the first conversation is
    selected when the deletion of the second is asked for; the second is
    selected while the back end is awaited; when the deletion settles,
    the second is off the list and still selected. *)
Example stale_selection_outlives_deletion :
  conversations
    (deleteConversation "c0" (Some "c1") (Fulfilled ())
       (selectConversation (Some "c0") ready_state))
    = [ {| Conversations.id := "c1"; Conversations.created_at := "2025-01-02";
           Conversations.title := Some "Arithmetic";
           message_count := 2 |} ] ∧
  currentConversationId
    (hook (deleteConversation "c0" (Some "c1") (Fulfilled ())
             (selectConversation (Some "c0") ready_state)))
    = Some "c0".
Proof. split; reflexivity. Qed.

End ConversationsFacts.

(** ** A whole exchange seen from the hook *)

Module SendFacts.
Import Js Wire UseConversation HookEvents UseConversationFacts Samples.

Lemma deliver_hook (ev : Event) (h : Hook) (c : Conversation)
    (earlier : list Message) (m : Message) :
  currentConversation h = Some c → messages c = earlier ++ [m] →
  ∃ h', deliver ev h = Returns h' ∧
        currentConversation h' =
          Some (withMessages (Some c)
                  (earlier ++ [updateLastMsg ev (clone m)])) ∧
        currentConversationId h' = currentConversationId h ∧
        error h' = error h ∧
        isLoading h' = (if decide (ends_loading ev) then false
                        else isLoading h) ∧
        reloads h' = reloads h + (if decide (reloads_list ev) then 1 else 0).
Proof.
  intros Hc Hm. unfold deliver.
  rewrite Hc, (onEvent_last ev c earlier m Hm).
  eexists. split; [reflexivity|].
  destruct (decide (ends_loading ev)) as [He|He];
    destruct (decide (reloads_list ev)) as [Hr|Hr];
    unfold ends_loading, reloads_list in He, Hr; unfold effectsOf;
    destruct (kind ev) eqn:Hk; simpl; repeat split;
    first [lia | done | exfalso; intuition congruence].
Qed.

Lemma deliverAll_hook (evs : list Event) (h : Hook) (c : Conversation)
    (earlier : list Message) (m : Message) :
  currentConversation h = Some c → messages c = earlier ++ [m] →
  ∃ h', deliverAll evs h = Returns h' ∧
        currentConversation h' =
          Some (withMessages (Some c) (earlier ++ [fillIn evs m])) ∧
        currentConversationId h' = currentConversationId h ∧
        error h' = error h ∧
        isLoading h' = (if decide (Exists ends_loading evs) then false
                        else isLoading h) ∧
        reloads h' = reloads h + length (filter reloads_list evs).
Proof.
  revert h c m. induction evs as [|ev rest IH]; intros h c m Hc Hm.
  - exists h. split; [done|].
    split; [simpl; rewrite Hc; destruct c; simpl in *; by subst|].
    split; [done|]. split; [done|].
    split; [|simpl; lia].
    case_decide as Hex; [by apply Exists_nil in Hex|done].
  - destruct (deliver_hook ev h c earlier m Hc Hm)
      as (h1 & Hd & Hc1 & Hid1 & Herr1 & Hload1 & Hrel1).
    destruct (IH h1 _ (updateLastMsg ev (clone m)) Hc1 eq_refl)
      as (h' & Hall & Hc' & Hid' & Herr' & Hload' & Hrel').
    exists h'. simpl. rewrite Hd. split; [done|].
    rewrite Hc', withMessages_twice, Hid', Hid1, Herr', Herr1.
    repeat split.
    + rewrite Hload', Hload1.
      destruct (decide (Exists ends_loading rest)) as [Hr|Hr];
        destruct (decide (ends_loading ev)) as [He|He];
        destruct (decide (Exists ends_loading (ev :: rest))) as [Hx|Hx];
        try done;
        try (exfalso; apply Hx;
             first [by apply Exists_cons_hd | by apply Exists_cons_tl]).
      apply Exists_cons in Hx as [?|?]; done.
    + rewrite Hrel', Hrel1, filter_cons.
      destruct (decide (reloads_list ev)); simpl; lia.
Qed.

(** Without a conversation the events change nothing. *)
Lemma deliverAll_none (evs : list Event) (h : Hook) :
  currentConversation h = None → deliverAll evs h = Returns h.
Proof.
  intros Hc. induction evs as [|ev evs IH]; simpl; [done|].
  unfold deliver. by rewrite Hc.
Qed.

(** X12: a send whose stream ends normally, with nothing else updating
    the hook while it is awaited, adds exactly two messages to the
    conversation, the user's text and the assistant message as the
    events have filled it in; it leaves the selection and the error as
    they were; the hook has stopped loading exactly when a [complete]
    or an [error] event was among those delivered; and the list of
    conversations was reloaded once for each [title_complete] and
    [complete] event.  When the current conversation is cleared before
    the events arrive, as a deletion or a deselection does, the events
    change nothing: no conversation is current, the list is not
    reloaded and the hook is left loading, whatever the events. *)
Theorem finished_send_appends_exchange (text : string) (evs : list Event)
    (h : Hook) :
  truthy (currentConversationId h) = true →
  (∃ h', sendMessage text (Arrives <$> evs) Finished h = Returns h' ∧
         messagesOf (currentConversation h') =
           messagesOf (currentConversation h)
             ++ [userMessage text; fillIn evs assistantMessage] ∧
         currentConversationId h' = currentConversationId h ∧
         error h' = error h ∧
         (isLoading h' = false ↔
            ∃ ev, ev ∈ evs ∧ (kind ev = Complete ∨ kind ev = Error)) ∧
         reloads h' = reloads h +
           length (filter (λ ev, kind ev = TitleComplete ∨ kind ev = Complete)
                          evs)) ∧
  (∃ h', sendMessage text
           (Meanwhile (setCurrentConversation None) :: (Arrives <$> evs))
           Finished h = Returns h' ∧
         currentConversation h' = None ∧
         isLoading h' = true ∧
         reloads h' = reloads h ∧
         error h' = error h ∧
         console h' = console h).
Proof.
  intros Hid. split.
  - unfold sendMessage. rewrite Hid, awaited_arrivals.
    cbn [negb currentConversation setCurrentConversation setIsLoading].
    rewrite messagesOf_with, withMessages_twice.
    set (before := messagesOf (currentConversation h)).
    set (c3 := withMessages (currentConversation h)
                 ((before ++ [userMessage text]) ++ [assistantMessage])).
    set (h3 := setCurrentConversation (Some c3) _).
    destruct (deliverAll_hook evs h3 c3
                (before ++ [userMessage text]) assistantMessage)
      as (h4 & -> & Hc & Hid' & Herr & Hload & Hrel).
    { reflexivity. }
    { apply (messagesOf_with (currentConversation h)). }
    exists h4. split; [done|].
    rewrite Hc, Hid', Herr, Hload, Hrel. subst c3 h3.
    rewrite withMessages_twice, messagesOf_with, <- app_assoc.
    cbn [currentConversationId error isLoading reloads
         setCurrentConversation setIsLoading].
    repeat split; try done.
    + case_decide as Hex; [|done]. intros _.
      apply Exists_exists in Hex. done.
    + intros Hex. case_decide as Hno; [done|].
      exfalso. apply Hno, Exists_exists. done.
  - unfold sendMessage. rewrite Hid.
    cbn [negb awaited advance]. rewrite awaited_arrivals.
    rewrite deliverAll_none by done.
    eexists. split; [reflexivity|]. done.
Qed.

Lemma finished_send_appends_exchange_witness :
  (∃ h', sendMessage "And 6 times 8?"
           (Arrives <$> [stage1_answers; bare Complete])
           Finished ready_hook = Returns h' ∧
         messagesOf (currentConversation h') =
           messagesOf (currentConversation ready_hook)
             ++ [userMessage "And 6 times 8?";
                 fillIn [stage1_answers; bare Complete] assistantMessage] ∧
         currentConversationId h' = currentConversationId ready_hook ∧
         error h' = error ready_hook ∧
         (isLoading h' = false ↔
            ∃ ev, ev ∈ [stage1_answers; bare Complete] ∧
                  (kind ev = Complete ∨ kind ev = Error)) ∧
         reloads h' = reloads ready_hook +
           length (filter (λ ev, kind ev = TitleComplete ∨ kind ev = Complete)
                          [stage1_answers; bare Complete])) ∧
  (∃ h', sendMessage "And 6 times 8?"
           (Meanwhile (setCurrentConversation None)
              :: (Arrives <$> [stage1_answers; bare Complete]))
           Finished ready_hook = Returns h' ∧
         currentConversation h' = None ∧
         isLoading h' = true ∧
         reloads h' = reloads ready_hook ∧
         error h' = error ready_hook ∧
         console h' = console ready_hook).
Proof.
  apply (finished_send_appends_exchange "And 6 times 8?"
           [stage1_answers; bare Complete] ready_hook).
  reflexivity.
Defined.

Lemma fillIn_frame (evs : list Event) (f : Field) (m : Message) :
  Forall (λ e, f ∉ assigned (kind e)) evs →
  read f (fillIn evs m) = read f m.
Proof.
  intros Hevs. revert m.
  induction Hevs as [|ev rest Hev _ IH]; intros m; [done|].
  change (fillIn (ev :: rest) m)
    with (fillIn rest (updateLastMsg ev (clone m))).
  by rewrite IH, updateLastMsg_frame, read_clone.
Qed.

Lemma assigned_value (ev : Event) (f : Field) (a b : Message) :
  f ∈ assigned (kind ev) →
  read f (updateLastMsg ev a) = read f (updateLastMsg ev b).
Proof.
  unfold updateLastMsg.
  destruct (kind ev); simpl; intros Hf;
    repeat (apply elem_of_cons in Hf as [->|Hf]);
    try (by apply elem_of_nil in Hf); simpl;
    rewrite ?flag_setFlag; repeat case_decide; done.
Qed.

(** X13: the last event that assigns a field decides its value: when an
    event assigns a field of the assistant message and no later event
    of the stream does, the field holds at the end what that event
    writes, whatever the events before it and the message they started
    from. *)
Theorem last_assignment_wins (pre post : list Event) (ev : Event)
    (f : Field) (m other : Message) :
  f ∈ assigned (kind ev) →
  Forall (λ e, f ∉ assigned (kind e)) post →
  read f (fillIn (pre ++ ev :: post) m) = read f (updateLastMsg ev other).
Proof.
  intros Hf Hpost. unfold fillIn. rewrite foldl_app. simpl.
  fold (fillIn pre m).
  fold (fillIn post (updateLastMsg ev (clone (fillIn pre m)))).
  rewrite fillIn_frame by done. by apply assigned_value.
Qed.

Lemma last_assignment_wins_witness :
  read FStage1
       (fillIn ([bare Stage1Start; stage1_answers]
                  ++ revised_answers :: [bare Stage3Start; bare Complete])
               assistantMessage)
    = read FStage1 (updateLastMsg revised_answers reviewed_message).
Proof.
  apply (last_assignment_wins [bare Stage1Start; stage1_answers]
           [bare Stage3Start; bare Complete] revised_answers FStage1
           assistantMessage reviewed_message).
  - simpl. apply elem_of_cons. by left.
  - repeat constructor; simpl; rewrite ?elem_of_cons, ?elem_of_nil;
      intros H; repeat destruct H as [H|H]; done.
Defined.

End SendFacts.

(** ** The selection of council members and the save *)

Module SelectionFacts.
Import Js Settings SettingsFacts Samples.

Lemma toggles_NoDup (clicks : list string) (s : State) :
  NoDup (councilModels s) → NoDup (councilModels (toggles clicks s)).
Proof.
  unfold toggles. revert s.
  induction clicks as [|m clicks IH]; intros s Hs; [done|].
  simpl. by apply IH, toggle_NoDup.
Qed.

(** X14: clicks on model cards keep a selection valid: from a selection that
    is not empty and names no model twice, every run of clicks leaves a
    selection that is not empty and names no model twice, so that the
    save that follows never answers that a council member is missing. *)
Theorem selection_stays_valid (clicks : list string) (s : State) :
  NoDup (councilModels s) → councilModels s ≠ [] →
  NoDup (councilModels (toggles clicks s)) ∧
  councilModels (toggles clicks s) ≠ [] ∧
  ∀ onSaveOverride net w,
    error (fst (handleSave onSaveOverride net (toggles clicks s) w))
      ≠ Some "Please select at least one council member".
Proof.
  intros Hnd Hne.
  pose proof (toggles_NoDup clicks s Hnd) as Hnd'.
  pose proof (toggles_nonempty clicks s Hnd Hne) as Hne'.
  split; [done|]. split; [done|].
  intros onSaveOverride net w. unfold handleSave.
  destruct (councilModels (toggles clicks s)) as [|m l] eqn:Hl; [done|].
  simpl. destruct (truthy (chairmanModel (toggles clicks s))); simpl;
    [|discriminate].
  destruct onSaveOverride, net; simpl; discriminate.
Qed.

Lemma selection_stays_valid_witness :
  NoDup (councilModels
           (toggles ["openai/gpt-4o"; "google/gemini-1.5-pro";
                     "google/gemini-1.5-pro"] two_selected)) ∧
  councilModels
    (toggles ["openai/gpt-4o"; "google/gemini-1.5-pro";
              "google/gemini-1.5-pro"] two_selected) ≠ [] ∧
  ∀ onSaveOverride net w,
    error (fst (handleSave onSaveOverride net
                  (toggles ["openai/gpt-4o"; "google/gemini-1.5-pro";
                            "google/gemini-1.5-pro"] two_selected) w))
      ≠ Some "Please select at least one council member".
Proof.
  apply (selection_stays_valid
           ["openai/gpt-4o"; "google/gemini-1.5-pro"; "google/gemini-1.5-pro"]
           two_selected).
  - simpl. repeat constructor; rewrite ?elem_of_cons, ?elem_of_nil;
      intros H; repeat destruct H as [H|H]; done.
  - simpl. discriminate.
Defined.

Lemma filter_appended (modelId : string) (l : list string) :
  modelId ∉ l → filter (λ m, m ≠ modelId) (l ++ [modelId]) = l.
Proof.
  intros Hnot. rewrite filter_app, filter_cons_False by (intros H; by apply H).
  rewrite filter_nil, app_nil_r.
  apply ModelListsFacts.filter_all, Forall_forall.
  intros m Hm ->. done.
Qed.

(** X15: two clicks on the card of a model that is not selected give back
    the state the dialog had, when at least one other model is selected:
    the first click appends the model and the second removes it. *)
Theorem toggle_twice_restores (modelId : string) (s : State) :
  modelId ∉ councilModels s → councilModels s ≠ [] →
  councilModels (handleToggleModel modelId s) = councilModels s ++ [modelId] ∧
  handleToggleModel modelId (handleToggleModel modelId s) = s.
Proof.
  intros Hnot Hne.
  pose proof (toggle_unselected modelId s Hnot) as Hadd.
  split; [done|].
  unfold handleToggleModel at 1. rewrite Hadd.
  replace (includes (councilModels s ++ [modelId]) modelId) with true.
  2: { symmetry. apply includes_elem_of, elem_of_app. right.
       by apply list_elem_of_singleton. }
  replace (1 <? length (councilModels s ++ [modelId])) with true.
  2: { symmetry. apply Nat.ltb_lt. rewrite length_app. simpl.
       destruct (councilModels s); [done|simpl; lia]. }
  rewrite filter_appended by done.
  unfold handleToggleModel.
  apply includes_false in Hnot. rewrite Hnot.
  by destruct s.
Qed.

Lemma toggle_twice_restores_witness :
  councilModels (handleToggleModel "openai/gpt-4o-mini" two_selected)
    = councilModels two_selected ++ ["openai/gpt-4o-mini"] ∧
  handleToggleModel "openai/gpt-4o-mini"
    (handleToggleModel "openai/gpt-4o-mini" two_selected) = two_selected.
Proof.
  apply (toggle_twice_restores "openai/gpt-4o-mini" two_selected).
  - simpl. rewrite !elem_of_cons, elem_of_nil.
    intros H; repeat destruct H as [H|H]; done.
  - simpl. discriminate.
Defined.

(** X16: only a save that the back end accepts is stored: when [handleSave]
    changes local storage or schedules the dialog to close, no override
    was given, the call resolved and the selection was valid; storage
    then holds the selection under [llm-council-config], and the dialog
    is no longer saving. *)
Theorem only_accepted_save_is_stored (onSaveOverride : bool) (net : Settled)
    (s : State) (w : World) :
  localStorage (snd (handleSave onSaveOverride net s w)) ≠ localStorage w ∨
  close_scheduled (snd (handleSave onSaveOverride net s w))
    ≠ close_scheduled w →
  onSaveOverride = false ∧ net = Resolved ∧
  councilModels s ≠ [] ∧ truthy (chairmanModel s) = true ∧
  localStorage (snd (handleSave onSaveOverride net s w))
    !! "llm-council-config"
    = Some {| cfg_council := councilModels s;
              cfg_chairman := default "" (chairmanModel s) |} ∧
  saving (fst (handleSave onSaveOverride net s w)) = false ∧
  error (fst (handleSave onSaveOverride net s w)) = None.
Proof.
  unfold handleSave.
  destruct (councilModels s) as [|m l] eqn:Hl; simpl; [intros [?|?]; done|].
  destruct (truthy (chairmanModel s)); simpl; [|intros [?|?]; done].
  destruct onSaveOverride, net; simpl; try (intros [?|?]; done).
  intros _. by rewrite lookup_insert_eq.
Qed.

Lemma only_accepted_save_is_stored_witness :
  false = false ∧ Resolved = Resolved ∧
  councilModels two_selected ≠ [] ∧
  truthy (chairmanModel two_selected) = true ∧
  localStorage (snd (handleSave false Resolved two_selected quiet_world))
    !! "llm-council-config"
    = Some {| cfg_council := councilModels two_selected;
              cfg_chairman := default "" (chairmanModel two_selected) |} ∧
  saving (fst (handleSave false Resolved two_selected quiet_world)) = false ∧
  error (fst (handleSave false Resolved two_selected quiet_world)) = None.
Proof.
  apply (only_accepted_save_is_stored false Resolved two_selected quiet_world).
  right. simpl. discriminate.
Defined.

End SelectionFacts.

(** ** The labels of the Stage 1 tabs *)

Module TabLabelFacts.
Import Js Arrays Stage1View Samples.

Lemma split_slashless (s : string) :
  slashless s → split "/" s = [s].
Proof.
  induction s as [|c rest IH]; simpl; [done|].
  intros [Hc Hrest].
  destruct (Ascii.eqb_spec c "/"); [done|]. by rewrite IH.
Qed.

Lemma split_first (a rest : string) :
  slashless a → split "/" (a +:+ String "/" rest) = a :: split "/" rest.
Proof.
  induction a as [|c a IH]; simpl; [done|].
  intros [Hc Ha].
  destruct (Ascii.eqb_spec c "/"); [done|]. by rewrite IH.
Qed.

(** X17: the label of a tab is the part of the model id between the first
    and the second slash, the model name of an id such as
    [provider/name]; an id with no slash, or with nothing after its
    first slash, is shown whole. *)
Theorem tab_label_is_model_name (provider name : string) :
  slashless provider → slashless name → name ≠ "" →
  tabLabel (provider +:+ String "/" name) = name ∧
  (∀ more, tabLabel (provider +:+ String "/" (name +:+ String "/" more))
           = name) ∧
  tabLabel provider = provider ∧
  tabLabel (provider +:+ "/") = provider +:+ "/".
Proof.
  intros Hp Hn Hne. unfold tabLabel.
  assert (String.eqb name "" = false) as Hne'.
  { by apply String.eqb_neq. }
  repeat split.
  - rewrite split_first, split_slashless by done. simpl. by rewrite Hne'.
  - intros more. rewrite !split_first by done. simpl. by rewrite Hne'.
  - by rewrite split_slashless.
  - by rewrite split_first.
Qed.

Lemma tab_label_is_model_name_witness :
  tabLabel ("google" +:+ String "/" "gemini-1.5-pro") = "gemini-1.5-pro" ∧
  (∀ more,
     tabLabel ("google" +:+ String "/" ("gemini-1.5-pro" +:+ String "/" more))
       = "gemini-1.5-pro") ∧
  tabLabel "google" = "google" ∧
  tabLabel ("google" +:+ "/") = "google" +:+ "/".
Proof.
  apply (tab_label_is_model_name "google" "gemini-1.5-pro").
  - simpl. repeat split; discriminate.
  - simpl. repeat split; discriminate.
  - discriminate.
Defined.

End TabLabelFacts.

(** ** The sidebar *)

Module SidebarFacts.
Import Js UseConversation Conversations Sidebar MoreSamples.

Lemma shown_items (s : State) :
  shown s = renderItem (currentConversationId (hook s)) <$> conversations s.
Proof.
  unfold shown, conversationList. by destruct (conversations s).
Qed.

Lemma active_count (cur : string) (l : list Summary) :
  NoDup (Conversations.id <$> l) →
  length (filter (λ it, item_active it = true) (renderItem (Some cur) <$> l))
    = if bool_decide (cur ∈ Conversations.id <$> l) then 1 else 0.
Proof.
  induction l as [|c l IH]; intros Hnd; [done|].
  rewrite fmap_cons in Hnd. apply NoDup_cons in Hnd as [Hc Hnd].
  rewrite fmap_cons, filter_cons.
  pose proof (IH Hnd) as Hcount.
  destruct (decide (item_active (renderItem (Some cur) c) = true))
    as [Hact|Hact]; simpl in Hact.
  - apply bool_decide_eq_true in Hact. injection Hact as Heq. subst cur.
    simpl length. rewrite Hcount, (bool_decide_eq_false_2 _ Hc).
    rewrite bool_decide_eq_true_2; [done|].
    rewrite fmap_cons. apply elem_of_cons. by left.
  - apply not_true_is_false, bool_decide_eq_false in Hact.
    rewrite Hcount. apply (f_equal (λ b : bool, if b then 1 else 0)).
    apply bool_decide_ext. rewrite fmap_cons, elem_of_cons.
    split; [by right|]. intros [->|?]; done.
Qed.

(** X18: the sidebar marks the selected conversation, and only that one:
    when the listed conversations have distinct ids and the selected id
    is that of a listed conversation, exactly one entry is drawn as
    active and it carries the selected id; with nothing selected no
    entry is active.  Every listed conversation has its entry, in the
    order of the list. *)
Theorem sidebar_marks_selection (s : State) :
  NoDup (Conversations.id <$> conversations s) →
  selection_listed s →
  item_key <$> shown s = Conversations.id <$> conversations s ∧
  (∀ i, currentConversationId (hook s) = Some i →
        length (filter (λ it, item_active it = true) (shown s)) = 1 ∧
        ∀ it, it ∈ shown s → item_active it = true → item_key it = i) ∧
  (currentConversationId (hook s) = None →
   filter (λ it, item_active it = true) (shown s) = []).
Proof.
  intros Hnd Hsel. rewrite shown_items.
  split; [|split].
  - by rewrite <- list_fmap_compose.
  - intros i Hi. rewrite Hi. split.
    + rewrite active_count by done.
      destruct (Hsel i Hi) as (c & Hc & Hid).
      rewrite bool_decide_eq_true_2; [done|].
      apply list_elem_of_fmap. by exists c.
    + intros it Hit Hact.
      apply list_elem_of_fmap in Hit as (c & -> & _).
      simpl in *. apply bool_decide_eq_true in Hact. congruence.
  - intros ->. clear Hnd Hsel.
    induction (conversations s) as [|c l IH]; [done|].
    rewrite fmap_cons, filter_cons_False; [done|].
    simpl. discriminate.
Qed.

Lemma sidebar_marks_selection_witness :
  item_key <$> shown ready_state
    = Conversations.id <$> conversations ready_state ∧
  (∀ i, currentConversationId (hook ready_state) = Some i →
        length (filter (λ it, item_active it = true) (shown ready_state)) = 1 ∧
        ∀ it, it ∈ shown ready_state → item_active it = true →
              item_key it = i) ∧
  (currentConversationId (hook ready_state) = None →
   filter (λ it, item_active it = true) (shown ready_state) = []).
Proof.
  apply (sidebar_marks_selection ready_state).
  - simpl. repeat constructor; rewrite ?elem_of_cons, ?elem_of_nil;
      intros H; repeat destruct H as [H|H]; done.
  - intros i. simpl. intros [= <-].
    eexists. split; [apply elem_of_cons; left; reflexivity|reflexivity].
Defined.

(** A conversation that was just created is drawn first, as the active
    entry, under the title [New Conversation], with no message and no
    export button. *)
Lemma new_conversation_is_shown_first (newConv : Created) (s : State) :
  head (shown (fst (createConversation (Fulfilled newConv) s)))
    = Some {| item_key := new_id newConv; item_active := true;
              item_title := "New Conversation"; item_messages := 0;
              item_export := false |}.
Proof.
  rewrite shown_items. simpl. unfold renderItem. simpl.
  by rewrite bool_decide_eq_true_2.
Qed.

End SidebarFacts.

(** ** The Stage 1 view and its active tab *)

Module ActiveTabFacts.
Import Js Wire Stage1View Samples.

(** X19: the view is drawn exactly when the active tab is one of the
    results: for a list of results that is not empty, it is drawn with
    the first tab active, which is how the component starts, and with any
    tab within the list, and it fails exactly when the active tab lies
    past the end, as it does once the results have been replaced by a
    list too short for the tab that was open. *)
Theorem stage1_needs_active_result (rs : list ModelResult)
    (activeTab : nat) :
  rs ≠ [] →
  (∃ v, Stage1 (Some rs) 0 = Returns (Some v)) ∧
  ((∃ v, Stage1 (Some rs) activeTab = Returns (Some v))
     ↔ activeTab < length rs) ∧
  ((∃ e, Stage1 (Some rs) activeTab = Throws e) ↔ length rs ≤ activeTab).
Proof.
  intros Hne. unfold Stage1.
  replace (Nat.eqb (length rs) 0) with false by (by destruct rs).
  split; [|split].
  - destruct rs as [|r rs']; [done|]. simpl. eauto.
  - destruct (rs !! activeTab) as [r|] eqn:Hr.
    + apply lookup_lt_Some in Hr as Hlt. split; [done|eauto].
    + apply lookup_ge_None in Hr as Hge. split; [by intros [? ?]|lia].
  - destruct (rs !! activeTab) as [r|] eqn:Hr.
    + apply lookup_lt_Some in Hr as Hlt. split; [by intros [? ?]|lia].
    + apply lookup_ge_None in Hr as Hge. split; [done|eauto].
Qed.

Lemma stage1_needs_active_result_witness :
  (∃ v, Stage1 (Some [revised_answer]) 0 = Returns (Some v)) ∧
  ((∃ v, Stage1 (Some [revised_answer]) 1 = Returns (Some v))
     ↔ 1 < length [revised_answer]) ∧
  ((∃ e, Stage1 (Some [revised_answer]) 1 = Throws e)
     ↔ length [revised_answer] ≤ 1).
Proof.
  apply (stage1_needs_active_result [revised_answer] 1).
  discriminate.
Defined.

End ActiveTabFacts.

(** ** The two stream callbacks and the objects they share *)

Module SharedStoreFacts.
Import Js Wire UseConversation UseConversationFacts SharedStore.
Import Samples MoreSamples.

Section Assignments.
Variables (a l : nat) (O : list MessageObject) (F : list (gmap string bool)).

Lemma assignFlag_at (f : string) (b : bool) (o : MessageObject)
    (flags : gmap string bool) (st : Store) :
  differs_at a l O F o flags st →
  ∃ st', assignFlag f b a st = Returns st' ∧
         differs_at a l O F o (<[f := b]> flags) st'.
Proof.
  intros (HO & HF & Hl & Ha & Hlt). unfold assignFlag.
  rewrite HO, list_lookup_insert_eq, Hl by done.
  rewrite HF, list_lookup_insert_eq by done.
  eexists. split; [reflexivity|].
  repeat split; simpl; try done. by rewrite list_insert_insert_eq.
Qed.

Lemma assignField_at (set : MessageObject → MessageObject)
    (o : MessageObject) (flags : gmap string bool) (st : Store) :
  (∀ x, o_loading (set x) = o_loading x) →
  differs_at a l O F o flags st →
  ∃ st', assignField set a st = Returns st' ∧
         differs_at a l O F (set o) flags st'.
Proof.
  intros Hset (HO & HF & Hl & Ha & Hlt). unfold assignField.
  rewrite HO, list_lookup_insert_eq by done.
  eexists. split; [reflexivity|].
  repeat split; simpl; try done.
  - by rewrite list_insert_insert_eq.
  - by rewrite Hset.
Qed.

Lemma andThen_at (u v : Update) (st st1 : Store) :
  u st = Returns st1 → andThen u v st = v st1.
Proof. unfold andThen. by intros ->. Qed.

(** The assignments of an event change the object at [a] as the
    [switch] of the hook changes a message. *)
Lemma assignments_at (ev : Event) (o : MessageObject)
    (flags : gmap string bool) (st : Store) :
  differs_at a l O F o flags st →
  ∃ st' o' flags',
    assignments ev a st = Returns st' ∧
    differs_at a l O F o' flags' st' ∧
    toMessage o' (Some flags') = updateLastMsg ev (toMessage o (Some flags)).
Proof.
  intros Hst. unfold assignments, updateLastMsg.
  destruct (kind ev).
  - destruct (assignFlag_at "resolving" true _ _ _ Hst) as (s1 & -> & H1).
    by eexists _, _, _.
  - destruct (assignFlag_at "resolving" false _ _ _ Hst) as (s1 & E1 & H1).
    destruct (assignFlag_at "stage1" true _ _ _ H1) as (s2 & E2 & H2).
    rewrite (andThen_at _ _ _ _ E1), E2. by eexists _, _, _.
  - destruct (assignField_at (withStage1 (data ev)) _ _ _ (λ _, eq_refl) Hst)
      as (s1 & E1 & H1).
    destruct (assignFlag_at "stage1" false _ _ _ H1) as (s2 & E2 & H2).
    rewrite (andThen_at _ _ _ _ E1), E2. by eexists _, _, _.
  - destruct (assignFlag_at "stage2" true _ _ _ Hst) as (s1 & -> & H1).
    by eexists _, _, _.
  - destruct (assignField_at (withStage2 (data ev)) _ _ _ (λ _, eq_refl) Hst)
      as (s1 & E1 & H1).
    destruct (assignField_at (withMetadata (metadata ev)) _ _ _
                (λ _, eq_refl) H1) as (s2 & E2 & H2).
    destruct (assignFlag_at "stage2" false _ _ _ H2) as (s3 & E3 & H3).
    rewrite (andThen_at _ _ _ _ E1), (andThen_at _ _ _ _ E2), E3.
    by eexists _, _, _.
  - destruct (assignFlag_at "stage1" true _ _ _ Hst) as (s1 & -> & H1).
    by eexists _, _, _.
  - destruct (assignFlag_at "stage3" true _ _ _ Hst) as (s1 & -> & H1).
    by eexists _, _, _.
  - destruct (assignField_at (withStage3 (data ev)) _ _ _ (λ _, eq_refl) Hst)
      as (s1 & E1 & H1).
    destruct (assignFlag_at "stage3" false _ _ _ H1) as (s2 & E2 & H2).
    rewrite (andThen_at _ _ _ _ E1), E2. by eexists _, _, _.
  - by eexists _, _, _.
  - by eexists _, _, _.
  - by eexists _, _, _.
Qed.

Lemma read_at (o : MessageObject) (flags : gmap string bool) (st : Store) :
  differs_at a l O F o flags st →
  readMessage st a = Some (toMessage o (Some flags)).
Proof.
  intros (HO & HF & Hl & Ha & Hlt). unfold readMessage.
  rewrite HO, list_lookup_insert_eq by done. simpl. rewrite Hl.
  rewrite HF, list_lookup_insert_eq by done. done.
Qed.

(** A message that is another object and has another [loading] object
    reads as in [O] and [F]. *)
Lemma read_elsewhere (o : MessageObject) (flags : gmap string bool)
    (st : Store) (b : nat) :
  differs_at a l O F o flags st → b ≠ a →
  (O !! b ≫= o_loading) ≠ Some l →
  readMessage st b =
    readMessage {| messageObjects := O; loadingObjects := F |} b.
Proof.
  intros (HO & HF & Hl & Ha & Hlt) Hb Hlb. unfold readMessage. simpl.
  rewrite HO, list_lookup_insert_ne by done.
  destruct (O !! b) as [ob|]; simpl in *; [|done].
  destruct (o_loading ob) as [lb|]; [|done].
  rewrite HF, list_lookup_insert_ne by congruence. done.
Qed.

(** Every message that could be read in [O] and [F] can still be
    read. *)
Lemma read_still (o : MessageObject) (flags : gmap string bool)
    (st : Store) (b : nat) :
  differs_at a l O F o flags st →
  O !! a ≫= o_loading = Some l →
  is_Some (readMessage {| messageObjects := O; loadingObjects := F |} b) →
  is_Some (readMessage st b).
Proof.
  intros Hst Hold [m Hm].
  destruct (decide (b = a)) as [->|Hb].
  { rewrite (read_at _ _ _ Hst). eauto. }
  destruct Hst as (HO & HF & Hl & Ha & Hlt).
  unfold readMessage in *. simpl in *.
  rewrite HO, list_lookup_insert_ne by done.
  destruct (O !! b) as [ob|]; simpl in *; [|done].
  destruct (o_loading ob) as [lb|]; [|eauto].
  rewrite HF. destruct (decide (l = lb)) as [->|Hne].
  - rewrite list_lookup_insert_eq by done. simpl. eauto.
  - rewrite list_lookup_insert_ne by done.
    destruct (F !! lb); simpl in *; [eauto|done].
Qed.

End Assignments.

Lemma readConversation_messages (st : Store) (c : ConversationRef)
    (conv : Conversation) :
  readConversation st c = Some conv ↔
  mapM (readMessage st) (c_messages c) = Some (messages conv) ∧
  id conv = c_id c ∧ title conv = c_title c ∧ created_at conv = c_created_at c.
Proof.
  unfold readConversation.
  destruct (mapM (readMessage st) (c_messages c)) as [ms|]; simpl.
  - split.
    + by intros [= <-].
    + intros ([= ->] & Hid & Ht & Hc). destruct conv; simpl in *. by subst.
  - split; [done|by intros [? _]].
Qed.

Lemma mapM_snoc_inv {A B} (f : A → option B) (l : list A) (k : list B)
    (y : B) :
  mapM f l = Some (k ++ [y]) →
  ∃ l' x, l = l' ++ [x] ∧ mapM f l' = Some k ∧ f x = Some y.
Proof.
  intros H. apply mapM_Some_1 in H.
  apply Forall2_app_inv_r in H as (l' & lx & Hl' & Hx & ->).
  apply Forall2_cons_inv_r in Hx as (x & rest & Hfx & Hrest & ->).
  apply Forall2_nil_inv_r in Hrest as ->.
  exists l', x. split; [done|]. split; [by apply mapM_Some_2|done].
Qed.

Lemma mapM_snoc {A B} (f : A → option B) (l : list A) (k : list B)
    (x : A) (y : B) :
  mapM f l = Some k → f x = Some y → mapM f (l ++ [x]) = Some (k ++ [y]).
Proof.
  intros Hl Hx. apply mapM_Some_2, Forall2_app.
  - by apply mapM_Some_1.
  - by repeat constructor.
Qed.

Lemma mapM_frame {A B} (f g : A → option B) (l : list A) (k : list B) :
  (∀ x y, x ∈ l → f x = Some y → g x = Some y) →
  mapM f l = Some k → mapM g l = Some k.
Proof.
  intros Hfg H. apply mapM_Some_2. apply mapM_Some_1 in H.
  induction H as [|x y l k Hxy _ IH]; constructor.
  - apply Hfg; [apply elem_of_cons; by left|done].
  - apply IH. intros x' y' Hx'. apply Hfg, elem_of_cons. by right.
Qed.

Lemma readMessage_valid (st : Store) (b : nat) (m : Message) :
  readMessage st b = Some m →
  b < length (messageObjects st) ∧
  ∀ lb, messageObjects st !! b ≫= o_loading = Some lb →
        lb < length (loadingObjects st).
Proof.
  unfold readMessage. intros H.
  destruct (messageObjects st !! b) as [ob|] eqn:Hob; simpl in *; [|done].
  split; [by apply lookup_lt_Some in Hob|].
  intros lb Hlb. rewrite Hlb in H.
  destruct (loadingObjects st !! lb) eqn:Hf; simpl in *; [|done].
  by apply lookup_lt_Some in Hf.
Qed.

Lemma store_eta (st : Store) :
  {| messageObjects := messageObjects st;
     loadingObjects := loadingObjects st |} = st.
Proof. by destruct st. Qed.

(** X20: the stream callback of the hook never changes an object that
    the previous state holds: for a conversation that can be read and
    has a message, it returns a new conversation, every conversation
    that could be read before, the previous one among them, reads
    exactly as before in the store it leaves, and the new conversation
    reads as [UseConversation.onEvent] says, the last message replaced by
    the updated clone. *)
Theorem hook_event_spares_previous_state (ev : Event) (st : Store)
    (c : ConversationRef) (conv : Conversation) :
  readConversation st c = Some conv → messages conv ≠ [] →
  ∃ c' st',
    SharedStore.onEvent ev (Some c) st = Returns (Some c', st') ∧
    (∀ other x, readConversation st other = Some x →
                readConversation st' other = Some x) ∧
    UseConversation.onEvent ev (Some conv)
      = Returns (readConversation st' c').
Proof.
  intros Hread Hne.
  apply readConversation_messages in Hread as (Hms & Hid & Ht & Hc).
  destruct (messages conv) as [|m0 ms0] eqn:Hconv using rev_ind; [done|].
  clear IHms0 Hne. rename ms0 into earlier, m0 into m.
  apply mapM_snoc_inv in Hms as (addrs & a & Haddrs & Hearlier & Ha).
  unfold SharedStore.onEvent. rewrite Haddrs, last_index.
  rewrite list_lookup_middle by done.
  unfold cloneMessage.
  destruct (messageObjects st !! a) as [o|] eqn:Ho;
    [|by unfold readMessage in Ha; rewrite Ho in Ha].
  set (O := messageObjects st ++
              [withLoading (Some (length (loadingObjects st))) o]).
  set (flags := default ∅ (o_loading o ≫= (loadingObjects st !!.))).
  set (F := loadingObjects st ++ [flags]).
  assert (toMessage (withLoading (Some (length (loadingObjects st))) o)
            (Some flags) = clone m) as Hclone.
  { unfold readMessage in Ha. rewrite Ho in Ha. simpl in Ha.
    subst flags. destruct (o_loading o) as [lo|]; simpl in *.
    - destruct (loadingObjects st !! lo); simpl in *; [|done].
      by injection Ha as <-.
    - by injection Ha as <-. }
  assert (differs_at (length (messageObjects st)) (length (loadingObjects st))
            O F (withLoading (Some (length (loadingObjects st))) o) flags
            {| messageObjects := O; loadingObjects := F |}) as Hst.
  { subst O F. repeat split; simpl.
    - rewrite list_insert_id; [done|]. by apply list_lookup_middle.
    - rewrite list_insert_id; [done|]. by apply list_lookup_middle.
    - rewrite length_app. simpl. lia.
    - rewrite length_app. simpl. lia. }
  destruct (assignments_at _ _ _ _ ev _ _ _ Hst)
    as (st' & o' & flags' & -> & Hst' & Hmsg).
  eexists _, st'. split; [reflexivity|].
  assert (∀ b y, readMessage st b = Some y → readMessage st' b = Some y)
    as Hframe.
  { intros b y Hb.
    destruct (readMessage_valid _ _ _ Hb) as [Hlt Hflags].
    rewrite (read_elsewhere _ _ _ _ _ _ _ b Hst').
    - unfold readMessage in *. simpl. subst O F.
      rewrite lookup_app_l by done.
      destruct (messageObjects st !! b) as [ob|] eqn:Hob; simpl in *;
        [|done].
      destruct (o_loading ob) as [lb|] eqn:Hlb; [|done].
      rewrite lookup_app_l; [done|]. by apply Hflags.
    - lia.
    - subst O. rewrite lookup_app_l by done.
      intros Hlb. apply Hflags in Hlb. lia. }
  split.
  - intros other x Hx.
    apply readConversation_messages in Hx as (Hx & ? & ? & ?).
    apply readConversation_messages. split; [|done].
    apply (mapM_frame (readMessage st)); [|done].
    intros b y _. apply Hframe.
  - rewrite (onEvent_last ev conv earlier m Hconv). f_equal. symmetry.
    apply readConversation_messages. simpl.
    split; [|by rewrite Hid, Ht, Hc].
    replace (length addrs) with (length addrs + 0) by lia.
    rewrite insert_app_r. simpl.
    apply mapM_snoc.
    + apply (mapM_frame (readMessage st)); [|done].
      intros b y _. apply Hframe.
    + rewrite (read_at _ _ _ _ _ _ _ Hst'), Hmsg, Hclone. done.
Qed.

Lemma hook_event_spares_previous_state_witness :
  ∃ c' st',
    SharedStore.onEvent stage1_answers (Some streaming_ref) streaming_store
      = Returns (Some c', st') ∧
    (∀ other x, readConversation streaming_store other = Some x →
                readConversation st' other = Some x) ∧
    UseConversation.onEvent stage1_answers (Some streaming_view)
      = Returns (readConversation st' c').
Proof.
  apply (hook_event_spares_previous_state stage1_answers streaming_store
           streaming_ref streaming_view).
  - reflexivity.
  - discriminate.
Defined.

(** X21: the stream callback of the earlier [App] writes into the
    message that the previous state holds: it returns a conversation
    with the same message objects, and in the store it leaves the
    previous conversation itself reads with its last message updated.
    When no two messages of the conversation share an object, that is
    the conversation which the callback of the hook computes. *)
Theorem app_event_rewrites_previous_state (ev : Event) (st : Store)
    (c : ConversationRef) (conv : Conversation) (earlier : list Message)
    (m : Message) (flags : gmap string bool) :
  readConversation st c = Some conv →
  messages conv = earlier ++ [m] → loading m = Some flags →
  ∃ st',
    appOnEvent ev c st = Returns (c, st') ∧
    (∃ conv', readConversation st' c = Some conv' ∧
              last (messages conv') = Some (updateLastMsg ev m)) ∧
    (separate st c →
     UseConversation.onEvent ev (Some conv)
       = Returns (readConversation st' c)).
Proof.
  intros Hread Hconv Hflags.
  apply readConversation_messages in Hread as (Hms & Hid & Ht & Hc).
  rewrite Hconv in Hms.
  apply mapM_snoc_inv in Hms as (addrs & a & Haddrs & Hearlier & Ha).
  assert (∃ o l, messageObjects st !! a = Some o ∧ o_loading o = Some l ∧
                 loadingObjects st !! l = Some flags ∧
                 m = toMessage o (Some flags)) as (o & l & Ho & Hl & Hf & Hm).
  { unfold readMessage in Ha.
    destruct (messageObjects st !! a) as [o|]; simpl in *; [|done].
    destruct (o_loading o) as [l|] eqn:Hl; simpl in *.
    - destruct (loadingObjects st !! l) as [fl|] eqn:Hfl; simpl in *; [|done].
      injection Ha as <-. simpl in Hflags. injection Hflags as ->.
      by exists o, l.
    - injection Ha as <-. done. }
  assert (differs_at a l (messageObjects st) (loadingObjects st) o flags st)
    as Hst.
  { repeat split.
    - by rewrite list_insert_id.
    - by rewrite list_insert_id.
    - done.
    - by apply lookup_lt_Some in Ho.
    - by apply lookup_lt_Some in Hf. }
  destruct (assignments_at _ _ _ _ ev _ _ _ Hst)
    as (st' & o' & flags' & Hassign & Hst' & Hmsg).
  rewrite <- Hm in Hmsg.
  assert (readMessage st' a = Some (updateLastMsg ev m)) as Ha'.
  { by rewrite (read_at _ _ _ _ _ _ _ Hst'), Hmsg. }
  assert (c = {| c_id := c_id c; c_title := c_title c;
                 c_created_at := c_created_at c;
                 c_messages := c_messages c |}) as Hc_eta.
  { by destruct c. }
  assert (∃ st'', appOnEvent ev c st = Returns (c, st'') ∧
                  (st'' = st' ∨ (st'' = st ∧ updateLastMsg ev m = m)))
    as (st'' & Happ & Hst'').
  { unfold appOnEvent. unfold assignments in Hassign.
    unfold updateLastMsg.
    rewrite Haddrs, last_index, list_lookup_middle by done.
    rewrite <- Haddrs.
    destruct (kind ev) eqn:Hk;
      try (unfold assignments; rewrite Hk, Hassign, <- Hc_eta;
           eexists; split; [reflexivity|by left]);
      (eexists; split; [reflexivity|by right]). }
  exists st''. split; [done|].
  assert (readMessage st'' a = Some (updateLastMsg ev m)) as Ha''.
  { destruct Hst'' as [->|[-> ->]]; done. }
  assert (∀ b, is_Some (readMessage st b) → is_Some (readMessage st'' b))
    as Hstill.
  { intros b Hb. destruct Hst'' as [->|[-> _]]; [|done].
    apply (read_still _ _ _ _ _ _ _ b Hst').
    - by rewrite Ho.
    - by rewrite store_eta. }
  split.
  - assert (is_Some (mapM (readMessage st'') addrs)) as [earlier' He'].
    { apply mapM_is_Some, Forall_forall. intros b Hb. simpl.
      apply Hstill.
      apply mapM_Some_1 in Hearlier.
      apply list_elem_of_lookup_1 in Hb as [i Hi].
      destruct (Forall2_lookup_l _ _ _ _ _ Hearlier Hi) as (y & _ & Hy).
      eauto. }
    exists {| id := c_id c; title := c_title c; created_at := c_created_at c;
              messages := earlier' ++ [updateLastMsg ev m] |}.
    split.
    + apply readConversation_messages. simpl. split; [|done].
      rewrite Haddrs. by apply mapM_snoc.
    + simpl. by rewrite last_snoc.
  - intros [Hnd Hndl].
    rewrite (onEvent_last ev conv earlier m Hconv). f_equal. symmetry.
    apply readConversation_messages. simpl.
    split; [|by rewrite Hid, Ht, Hc].
    replace (clone m) with m by (destruct m; simpl in *; by subst).
    rewrite Haddrs. apply mapM_snoc; [|done].
    apply (mapM_frame (readMessage st)); [|done].
    intros b y Hb Hy. destruct Hst'' as [->|[-> _]]; [|done].
    rewrite (read_elsewhere _ _ _ _ _ _ _ b Hst').
    + by rewrite store_eta.
    + rewrite Haddrs in Hnd. apply NoDup_app in Hnd as (_ & Hnd & _).
      intros ->. apply (Hnd a Hb). by apply list_elem_of_singleton.
    + rewrite Haddrs, omap_app in Hndl.
      apply NoDup_app in Hndl as (_ & Hndl & _).
      intros Hlb. apply (Hndl l).
      * apply list_elem_of_omap. by exists b.
      * simpl. rewrite Ho. simpl. rewrite Hl. by apply list_elem_of_singleton.
Qed.

Lemma app_event_rewrites_previous_state_witness :
  ∃ st',
    appOnEvent stage1_answers streaming_ref streaming_store
      = Returns (streaming_ref, st') ∧
    (∃ conv', readConversation st' streaming_ref = Some conv' ∧
              last (messages conv')
                = Some (updateLastMsg stage1_answers assistantMessage)) ∧
    (separate streaming_store streaming_ref →
     UseConversation.onEvent stage1_answers (Some streaming_view)
       = Returns (readConversation st' streaming_ref)).
Proof.
  apply (app_event_rewrites_previous_state stage1_answers streaming_store
           streaming_ref streaming_view
           [userMessage "And 6 times 8?"] assistantMessage
           (<["resolving" := false]>
            (<["stage1" := false]>
            (<["stage2" := false]>
            (<["stage3" := false]> ∅))))).
  - reflexivity.
  - reflexivity.
  - reflexivity.
Defined.

End SharedStoreFacts.

(** ** The buttons and their handlers *)

Module ButtonsFacts.
Import Js.

Lemma snoc_differs {A} (l : list A) (x : A) : l ++ [x] ≠ l.
Proof.
  intros H. apply (f_equal length) in H. rewrite length_app in H.
  simpl in H. lia.
Qed.

(** X22: a button is disabled exactly when its handler would do
    nothing: the Send button when a submit would not call
    [onSendMessage], the button that saves a preset when
    [handleSavePreset] would leave the dialog as it is; and a click on
    the save button of the dialog, when it is enabled, always makes its
    request, while for a dialog that is not saving the button is disabled
    only when [handleSave] would stop at its checks and touch nothing
    outside the component. *)
Theorem disabled_buttons_match_handlers (isLoading : bool)
    (f : ChatForm.State) (p : Presets.State) (s : Settings.State) :
  (ChatForm.sendDisabled isLoading f = true
     ↔ snd (ChatForm.handleSubmit isLoading f) = None) ∧
  (Presets.savePresetDisabled p = true ↔ Presets.handleSavePreset p = p) ∧
  (Presets.saveDisabled s = false →
   ∀ onSaveOverride net w,
     Settings.requests (snd (Settings.handleSave onSaveOverride net s w))
       ≠ Settings.requests w) ∧
  (Presets.saveDisabled s = true → Settings.saving s = false →
   ∀ onSaveOverride net w,
     snd (Settings.handleSave onSaveOverride net s w) = w).
Proof.
  split; [|split; [|split]].
  - unfold ChatForm.sendDisabled, ChatForm.handleSubmit.
    destruct (ChatInterface.blank (ChatForm.input f)),
      (ChatForm.attachments f), isLoading; simpl; split; done.
  - unfold Presets.savePresetDisabled, Presets.handleSavePreset.
    destruct (ChatInterface.blank (Presets.newPresetName p)); [done|].
    split; [done|]. intros H. apply (f_equal Presets.presets) in H.
    simpl in H. by apply snoc_differs in H.
  - unfold Presets.saveDisabled, Settings.handleSave.
    intros Hen onSaveOverride net w.
    apply orb_false_iff in Hen as [Hen Hch].
    apply orb_false_iff in Hen as [_ Hlen].
    rewrite Hlen. apply negb_false_iff in Hch. rewrite Hch. simpl.
    destruct onSaveOverride, net; simpl; apply snoc_differs.
  - unfold Presets.saveDisabled, Settings.handleSave.
    intros Hdis Hs onSaveOverride net w. rewrite Hs in Hdis. simpl in Hdis.
    destruct (Nat.eqb (length (Settings.councilModels s)) 0); [done|].
    simpl in Hdis. by rewrite Hdis.
Qed.

End ButtonsFacts.

(** ** The name of an exported file *)

Module ExportMenuFacts.
Import Js ExportMenu.

Lemma untilQuote_quoteless (s : string) : quoteless (untilQuote s).
Proof.
  induction s as [|c rest IH]; simpl; [done|].
  destruct (Ascii.eqb_spec c quote); simpl; [done|]. by split.
Qed.

Lemma untilQuote_run (name rest : string) :
  quoteless name → untilQuote (name +:+ String quote rest) = name.
Proof.
  induction name as [|c name IH]; simpl.
  - intros _. by rewrite ?Ascii.eqb_refl.
  - intros [Hc Hname].
    destruct (Ascii.eqb_spec c quote); [done|]. by rewrite IH.
Qed.

Lemma untilQuote_whole (name : string) :
  quoteless name → untilQuote name = name.
Proof.
  induction name as [|c name IH]; simpl; [done|].
  intros [Hc Hname].
  destruct (Ascii.eqb_spec c quote); [done|]. by rewrite IH.
Qed.

Lemma matchHere_name (s name : string) :
  matchHere s = Some name → name ≠ "" ∧ quoteless name.
Proof.
  unfold matchHere. destruct (afterPrefix "filename=" s) as [rest|]; [|done].
  set (run := match rest with
              | String c rest' =>
                  if Ascii.eqb c quote then untilQuote rest'
                  else untilQuote rest
              | EmptyString => EmptyString
              end).
  assert (quoteless run) as Hrun.
  { subst run. destruct rest as [|c rest']; [done|].
    destruct (Ascii.eqb c quote); apply untilQuote_quoteless. }
  destruct (String.eqb_spec run ""); [done|].
  intros [= <-]. done.
Qed.

Lemma matchFilename_name (s name : string) :
  matchFilename s = Some name → name ≠ "" ∧ quoteless name.
Proof.
  induction s as [|c rest IH]; simpl.
  - done.
  - destruct (matchHere (String c rest)) eqn:Hm.
    + intros [= <-]. by apply (matchHere_name (String c rest)).
    + apply IH.
Qed.

Lemma append_nonempty (a b : string) : b ≠ "" → a +:+ b ≠ "".
Proof. destruct a; [done|]. intros _. simpl. discriminate. Qed.

(** X23: an export ends with either a download or an error, never
    both, and is no longer exporting; the download, if any, has a name
    that is not empty.  The name is taken from the [Content-Disposition]
    header when the header has a [filename=] followed by a name: a
    quoted name is taken without its quotes, and a name taken from a
    header never holds a double quote; with no header, or an empty one,
    the name is the conversation title, or [conversation], with the
    format as its extension. *)
Theorem export_names_the_download (conversationId : string)
    (conversationTitle : option string) (format : string) (reply : Fetched)
    (s : State) (name : string) (response : Response) :
  (downloaded (snd (handleExport conversationId conversationTitle format
                      reply s)) = None
   ↔ error (fst (handleExport conversationId conversationTitle format
                   reply s)) ≠ None) ∧
  exporting (fst (handleExport conversationId conversationTitle format
                    reply s)) = false ∧
  downloaded (snd (handleExport conversationId conversationTitle format
                     reply s)) ≠ Some "" ∧
  (matchFilename (default "" (contentDisposition response)) = Some name →
   quoteless name ∧
   filenameOf conversationTitle format (contentDisposition response)
     = name) ∧
  (quoteless name → name ≠ "" →
   filenameOf conversationTitle format
     (Some ("attachment; filename=" +:+ String quote (name +:+ String quote "")))
     = name ∧
   filenameOf conversationTitle format
     (Some ("attachment; filename=" +:+ name)) = name) ∧
  filenameOf conversationTitle format None
    = defaultFilename conversationTitle format ∧
  filenameOf conversationTitle format (Some "")
    = defaultFilename conversationTitle format ∧
  filenameOf None format None = "conversation." +:+ format.
Proof.
  assert (∀ header,
            filenameOf conversationTitle format header ≠ "") as Hnonempty.
  { intros header. unfold filenameOf.
    assert (defaultFilename conversationTitle format ≠ "") as Hdefault.
    { unfold defaultFilename. by apply append_nonempty. }
    destruct (truthy header); [|done].
    destruct (matchFilename (default "" header)) as [n|] eqn:Hn; [|done].
    by apply matchFilename_name in Hn as [? _]. }
  split; [|split; [|split; [|split; [|split]]]].
  - unfold handleExport. destruct reply as [r|m]; simpl; [|done].
    destruct (ok r); simpl; [|done].
    destruct (blobFailure r); simpl; split; done.
  - unfold handleExport. destruct reply as [r|m]; simpl; [|done].
    destruct (ok r); simpl; [|done]. by destruct (blobFailure r).
  - unfold handleExport. destruct reply as [r|m]; simpl; [|done].
    destruct (ok r); simpl; [|done].
    destruct (blobFailure r); simpl; [done|].
    intros [= H]. by apply Hnonempty in H.
  - intros Hname. split; [by apply matchFilename_name in Hname as [_ ?]|].
    unfold filenameOf.
    destruct (contentDisposition response) as [header|]; simpl in *.
    + destruct (String.eqb_spec header "") as [->|_]; simpl.
      * discriminate Hname.
      * by rewrite Hname.
    + discriminate Hname.
  - intros Hq Hne. unfold filenameOf. split.
    + simpl. unfold matchHere. simpl.
      rewrite untilQuote_run by done.
      by destruct (String.eqb_spec name "").
    + simpl. unfold matchHere. simpl.
      change ("" +:+ name) with name.
      destruct name as [|c name']; [done|].
      destruct (Ascii.eqb_spec c quote) as [->|_]; [by destruct Hq|].
      by rewrite (untilQuote_whole (String c name')).
  - done.
Qed.

Example export_of_arithmetic :
  downloaded
    (snd (handleExport "c1" (Some "Arithmetic") "markdown"
            (Arrived {| ok := true;
                        contentDisposition :=
                          Some "attachment; filename=arithmetic.md; size=3";
                        blobFailure := None |})
            {| exporting := true; error := None |}))
    = Some "arithmetic.md; size=3" ∧
  downloaded
    (snd (handleExport "c1" (Some "Arithmetic") "markdown"
            (Arrived {| ok := true; contentDisposition := None;
                        blobFailure := None |})
            {| exporting := true; error := None |}))
    = Some "Arithmetic.markdown".
Proof. split; reflexivity. Qed.

End ExportMenuFacts.
